(** * Meeting memory: search pill, meeting chat, meeting store and RAG queue

    A shallow embedding of the TypeScript sources of the meeting assistant,
    followed by the properties proved of it.

    The embedding:
    - [JS]          : the string primitives of JavaScript the sources use;
    - [SearchPill]  : [fuzzyMatch] and [searchMeetings] of the top search pill;
    - [MeetingChat] : [buildContextString] and [submitQuestion] of the chat
                      overlay, with its stream listeners, as a machine that
                      the user, the promises and the stream events drive;
    - [Store]       : the SQLite schema of [DatabaseManager.runMigrations] and
                      the operations [saveMeeting], [updateMeetingTitle],
                      [updateMeetingSummary] and [deleteMeeting];
    - [Rag]         : the chunker, the embedding queue, the summary upsert
                      and the fallback policy that the schema is prepared
                      for, modelled from the design document;
    - [Queries]     : the read methods [getRecentMeetings],
                      [getMeetingDetails] and [getUnprocessedMeetings] of
                      [DatabaseManager], [seedDemoMeeting], and the stores
                      that calls of the public API build.

    The properties: [JSFacts], [SearchPillFacts], [ContextFacts],
    [ChatFacts], [ChatErrorFacts], [SaveFacts], [SummaryFacts],
    [ChunkerFacts], [StoreOpsFacts], [QueueFacts], [SummaryRowFacts],
    [CascadeFacts], [JsonFacts], [OrderFacts], [BuiltFacts], [ReadFacts],
    [ListFacts], [UpdateFacts] and [LifecycleFacts].

    JavaScript strings are sequences of UTF-16 code units.  The embedding keeps
    the code units below 256 (the Latin-1 range), one [ascii] each. *)

From Stdlib Require Import Ascii String NArith ZArith Lia.
From stdpp Require Import gmap strings list fin_maps pretty sorting.

Set Warnings "-register-all,-clear-no-such-hyp".

Local Open Scope string_scope.
Local Open Scope list_scope.
Local Open Scope stdpp_scope.
Local Open Scope nat_scope.

(** ** JavaScript string primitives *)
Module JS.

(** [String.prototype.toLowerCase] on one code unit of the Latin-1 range:
    A-Z and the accented capitals U+00C0-U+00DE (U+00D7 is the
    multiplication sign) move up by 32. *)
Definition lower_char (c : ascii) : ascii :=
  let n := N_of_ascii c in
  if ((65 <=? n) && (n <=? 90)
      || (192 <=? n) && (n <=? 222) && negb (n =? 215))%N
  then ascii_of_N (n + 32) else c.

Fixpoint toLowerCase (s : string) : string :=
  match s with
  | EmptyString => EmptyString
  | String c r => String (lower_char c) (toLowerCase r)
  end.

(** WhiteSpace and LineTerminator code units below 256: TAB, LF, VT, FF,
    CR, SP and NBSP. *)
Definition is_space (c : ascii) : bool :=
  let n := N_of_ascii c in
  ((9 <=? n) && (n <=? 13) || (n =? 32) || (n =? 160))%N.

Fixpoint trimStart (s : string) : string :=
  match s with
  | EmptyString => EmptyString
  | String c r => if is_space c then trimStart r else s
  end.

(** [trimEnd] keeps a character when it is not a space or when something
    survives after it. *)
Fixpoint trimEnd (s : string) : string :=
  match s with
  | EmptyString => EmptyString
  | String c r =>
      match trimEnd r with
      | EmptyString => if is_space c then EmptyString else String c EmptyString
      | r' => String c r'
      end
  end.

Definition trim (s : string) : string := trimEnd (trimStart s).

(** Truthiness of a string: only the empty string is falsy. *)
Definition truthy (s : string) : bool :=
  match s with EmptyString => false | _ => true end.

Fixpoint startsWith (q s : string) : bool :=
  match q, s with
  | EmptyString, _ => true
  | String a q', String b s' => if Ascii.eqb a b then startsWith q' s' else false
  | String _ _, EmptyString => false
  end.

(** [String.prototype.includes]: some suffix of [s] starts with [q]. *)
Fixpoint includes (s q : string) : bool :=
  startsWith q s ||
  match s with
  | EmptyString => false
  | String _ r => includes r q
  end.

(** [Array.prototype.join]. *)
Fixpoint join (sep : string) (l : list string) : string :=
  match l with
  | [] => ""
  | [x] => x
  | x :: r => x +:+ sep +:+ join sep r
  end.

(** [Array.prototype.slice(-k)]: the last [min k n] elements. *)
Definition slice_last {A} (k : nat) (l : list A) : list A :=
  drop (length l - k) l.

Definition all_space (s : string) : Prop :=
  Forall (fun c => is_space c = true) (list_ascii_of_string s).

End JS.

(** ** The top search pill *)
Module SearchPill.
Import JS.

Record Meeting := mkMeeting {
  id : string;
  title : string;
  date : string;
  summary : option string
}.

(** [type] is the constant ['meeting']. *)
Record SearchResult := mkResult {
  r_id : string;
  r_title : string;
  r_subtitle : option string;
  meetingId : string
}.

Definition fuzzyMatch (text query : string) : bool :=
  let normalizedText := toLowerCase text in
  let normalizedQuery := toLowerCase query in
  if includes normalizedText normalizedQuery then true else false.

Section Search.
(** [new Date(d).toLocaleDateString('en-US', {month:'short', day:'numeric'})]
    belongs to the host; the search only stores its result. *)
Variable toLocaleDateString : string -> string.

Definition result_of (m : Meeting) : SearchResult :=
  {| r_id := id m; r_title := title m;
     r_subtitle := Some (toLocaleDateString (date m));
     meetingId := id m |}.

(** [meeting.summary && fuzzyMatch(meeting.summary, query)], as a boolean. *)
Definition summaryMatch (m : Meeting) (query : string) : bool :=
  match summary m with
  | Some s => truthy s && fuzzyMatch s query
  | None => false
  end.

Definition matches (query : string) (m : Meeting) : bool :=
  fuzzyMatch (title m) query || summaryMatch m query.

(** The [for ... of] loop, with [results] and [seen] threaded through. *)
Fixpoint search_loop (meetings : list Meeting) (query : string)
    (results : list SearchResult) (seen : gset string) : list SearchResult :=
  match meetings with
  | [] => results
  | meeting :: rest =>
      if decide (id meeting ∈ seen) then search_loop rest query results seen
      else
        let hit := matches query meeting in
        let seen' := if hit then {[ id meeting ]} ∪ seen else seen in
        let results' := if hit then results ++ [result_of meeting] else results in
        if (5 <=? length results')%nat then results'
        else search_loop rest query results' seen'
  end.

Definition searchMeetings (meetings : list Meeting) (query : string)
    : list SearchResult :=
  if negb (truthy (trim query)) then []
  else search_loop meetings query [] ∅.

(** Keep the first meeting of every id. *)
Fixpoint first_by_id (ms : list Meeting) (seen : gset string) : list Meeting :=
  match ms with
  | [] => []
  | m :: rest =>
      if decide (id m ∈ seen) then first_by_id rest seen
      else m :: first_by_id rest ({[ id m ]} ∪ seen)
  end.

(** What the loop computes, as a pipeline. *)
Definition search_spec (meetings : list Meeting) (query : string)
    : list SearchResult :=
  result_of <$> take 5 (first_by_id (filter (fun m => matches query m = true) meetings) ∅).

End Search.
End SearchPill.

(** ** The meeting chat overlay *)
Module MeetingChat.
Import JS.

Inductive Role := user | assistant.

(** Message ids are [`user-${Date.now()}`] and [`assistant-${Date.now()}`]. *)
Inductive MsgId := UserId (now : Z) | AssistantId (now : Z).

#[global] Instance MsgId_eq_dec : EqDecision MsgId.
Proof. solve_decision. Defined.

Record Message := mkMessage {
  msg_id : MsgId;
  role : Role;
  content : string;
  isStreaming : option bool
}.

Record Utterance := mkUtterance {
  speaker : string;
  text : string;
  timestamp : Z
}.

Record MeetingContext := mkContext {
  id : option string;
  title : string;
  summary : option string;
  keyPoints : option (list string);
  actionItems : option (list string);
  transcript : option (list Utterance)
}.

Inductive ChatState :=
  idle | opening | waiting_for_llm | streaming_response | error | closing.

#[global] Instance ChatState_eq_dec : EqDecision ChatState.
Proof. solve_decision. Defined.

(** *** buildContextString *)

Definition nl : string := String (ascii_of_nat 10) "".

Definition bullet (p : string) : string := "- " +:+ p.

Definition speaker_label (t : Utterance) : string :=
  if String.eqb (speaker t) "user" then "Me" else "Them".

Definition transcript_line (t : Utterance) : string :=
  "[" +:+ speaker_label t +:+ "]: " +:+ text t.

Definition title_part (ctx : MeetingContext) : string :=
  "MEETING: " +:+ title ctx.

Definition summary_header : string := nl +:+ "SUMMARY:" +:+ nl.
Definition keyPoints_header : string := nl +:+ "KEY POINTS:" +:+ nl.
Definition actionItems_header : string := nl +:+ "ACTION ITEMS:" +:+ nl.
Definition transcript_header : string := nl +:+ "RECENT TRANSCRIPT:" +:+ nl.

(** [if (meetingContext.summary)]: present and not the empty string. *)
Definition summary_part (ctx : MeetingContext) : list string :=
  match summary ctx with
  | Some s => if truthy s then [summary_header +:+ s] else []
  | None => []
  end.

(** [if (xs?.length)]: present and of non-zero length. *)
Definition list_section (header : string) (xs : option (list string)) : list string :=
  match xs with
  | Some (x :: r) => [header +:+ join nl (bullet <$> (x :: r))]
  | _ => []
  end.

Definition recentTranscript (us : list Utterance) : list Utterance :=
  slice_last 20 us.

Definition transcript_part (ctx : MeetingContext) : list string :=
  match transcript ctx with
  | Some (u :: r) =>
      [transcript_header +:+ join nl (transcript_line <$> recentTranscript (u :: r))]
  | _ => []
  end.

Definition context_parts (ctx : MeetingContext) : list string :=
  [title_part ctx] ++ summary_part ctx
    ++ list_section keyPoints_header (keyPoints ctx)
    ++ list_section actionItems_header (actionItems ctx)
    ++ transcript_part ctx.

Definition buildContextString (ctx : MeetingContext) : string :=
  join nl (context_parts ctx).

(** *** submitQuestion and the stream listeners *)

Definition preamble : string :=
  "You are recalling a specific meeting. Answer questions ONLY about this meeting. Be concise (2-4 sentences). Sound natural, like a human recalling. If information is not present, say so briefly. Never guess.".

Definition systemPrompt (ctx : MeetingContext) : string :=
  preamble +:+ nl +:+ nl +:+ buildContextString ctx.

Definition couldnt_get_response : string :=
  "Couldn't get a response. Please try again.".
Definition something_went_wrong : string :=
  "Something went wrong. Please try again.".

(** Calls made on [window.electronAPI].  [streamGeminiChat] is always
    called with an undefined context and [{ skipSystemPrompt: true }]. *)
Inductive Call :=
| ragQueryMeeting (meetingId question : string)
| streamGeminiChat (question prompt : string).

Inductive Channel :=
  RAGStreamChunk | RAGStreamComplete | RAGStreamError
| GeminiStreamToken | GeminiStreamDone.

#[global] Instance Channel_eq_dec : EqDecision Channel.
Proof. solve_decision. Defined.

(** A registered listener: its channel and the assistant message its
    closure writes to. *)
Record Listener := mkListener { channel : Channel; target : MsgId }.

#[global] Instance Listener_eq_dec : EqDecision Listener.
Proof. solve_decision. Defined.

(** Where a suspended [submitQuestion] is waiting. *)
Inductive Await := AtTimer | AtRag | AtGemini.

#[global] Instance Await_eq_dec : EqDecision Await.
Proof. solve_decision. Defined.

Record Task := mkTask { t_aid : MsgId; t_question : string; t_await : Await }.

(** The value [ragQueryMeeting] resolves to. *)
Record RagResult := mkRagResult { fallback : bool }.

Record Chat := mkChat {
  messages : list Message;
  chatState : ChatState;
  errorMessage : option string;
  listeners : list Listener;
  tasks : list Task;
  calls : list Call
}.

Definition initial : Chat :=
  {| messages := []; chatState := idle; errorMessage := None;
     listeners := []; tasks := []; calls := [] |}.

Definition setMessages (f : list Message -> list Message) (c : Chat) : Chat :=
  {| messages := f (messages c); chatState := chatState c;
     errorMessage := errorMessage c; listeners := listeners c;
     tasks := tasks c; calls := calls c |}.
Definition setChatState (s : ChatState) (c : Chat) : Chat :=
  {| messages := messages c; chatState := s;
     errorMessage := errorMessage c; listeners := listeners c;
     tasks := tasks c; calls := calls c |}.
Definition setErrorMessage (e : option string) (c : Chat) : Chat :=
  {| messages := messages c; chatState := chatState c;
     errorMessage := e; listeners := listeners c;
     tasks := tasks c; calls := calls c |}.
Definition setListeners (f : list Listener -> list Listener) (c : Chat) : Chat :=
  {| messages := messages c; chatState := chatState c;
     errorMessage := errorMessage c; listeners := f (listeners c);
     tasks := tasks c; calls := calls c |}.
Definition setTasks (f : list Task -> list Task) (c : Chat) : Chat :=
  {| messages := messages c; chatState := chatState c;
     errorMessage := errorMessage c; listeners := listeners c;
     tasks := f (tasks c); calls := calls c |}.
Definition call (k : Call) (c : Chat) : Chat :=
  {| messages := messages c; chatState := chatState c;
     errorMessage := errorMessage c; listeners := listeners c;
     tasks := tasks c; calls := calls c ++ [k] |}.

Definition on (ch : Channel) (aid : MsgId) : Chat -> Chat :=
  setListeners (fun ls => ls ++ [mkListener ch aid]).
Definition off (ch : Channel) (aid : MsgId) : Chat -> Chat :=
  setListeners (filter (fun l => l ≠ mkListener ch aid)).

Definition appendContent (aid : MsgId) (piece : string) (msg : Message) : Message :=
  if decide (msg_id msg = aid)
  then {| msg_id := msg_id msg; role := role msg;
          content := content msg +:+ piece; isStreaming := isStreaming msg |}
  else msg.
Definition stopStreaming (aid : MsgId) (msg : Message) : Message :=
  if decide (msg_id msg = aid)
  then {| msg_id := msg_id msg; role := role msg;
          content := content msg; isStreaming := Some false |}
  else msg.
Definition dropMessage (aid : MsgId) : list Message -> list Message :=
  filter (fun msg => msg_id msg ≠ aid).

Definition ragCleanup (aid : MsgId) (c : Chat) : Chat :=
  off RAGStreamError aid (off RAGStreamComplete aid (off RAGStreamChunk aid c)).
Definition geminiCleanup (aid : MsgId) (c : Chat) : Chat :=
  off GeminiStreamDone aid (off GeminiStreamToken aid c).

(** The body of the listener registered on [ch] for message [aid]; [data]
    is the chunk, token or error text of the event. *)
Definition handler (ch : Channel) (aid : MsgId) (data : string) (c : Chat) : Chat :=
  match ch with
  | RAGStreamChunk | GeminiStreamToken =>
      setMessages (fmap (appendContent aid data)) (setChatState streaming_response c)
  | RAGStreamComplete =>
      ragCleanup aid (setChatState idle (setMessages (fmap (stopStreaming aid)) c))
  | RAGStreamError =>
      ragCleanup aid
        (setChatState error
           (setErrorMessage (Some couldnt_get_response)
              (setMessages (dropMessage aid) c)))
  | GeminiStreamDone =>
      geminiCleanup aid (setChatState idle (setMessages (fmap (stopStreaming aid)) c))
  end.

(** An event on [ch] runs every listener that was registered on [ch] when
    the event was emitted, in registration order. *)
Definition emit (ch : Channel) (data : string) (c : Chat) : Chat :=
  foldl (fun c' l => if decide (channel l = ch) then handler ch (target l) data c' else c')
        c (listeners c).

(** The [catch] block of [submitQuestion]. *)
Definition catch_block (aid : MsgId) (c : Chat) : Chat :=
  setChatState error
    (setErrorMessage (Some something_went_wrong)
       (setMessages (dropMessage aid) c)).

(** What the world does to the overlay: the user submits a question, a
    promise a [submitQuestion] is awaiting settles, or a stream event is
    delivered. *)
Inductive Input :=
| Submit (question : string) (now : Z)
| Timer (aid : MsgId)
| RagResolved (aid : MsgId) (result : option RagResult)
| RagRejected (aid : MsgId)
| GeminiResolved (aid : MsgId)
| GeminiRejected (aid : MsgId)
| Event (ch : Channel) (data : string).

Definition waiting (aid : MsgId) (a : Await) (c : Chat) : option Task :=
  snd <$> list_find (fun t => t_aid t = aid ∧ t_await t = a) (tasks c).

Definition suspend (t : Task) (a : Await) : Chat -> Chat :=
  setTasks (fmap (fun t' => if decide (t_aid t' = t_aid t)
                            then mkTask (t_aid t) (t_question t) a else t')).

Definition finish (t : Task) : Chat -> Chat :=
  setTasks (filter (fun t' => t_aid t' ≠ t_aid t)).

Section Overlay.
(** Whether [window.electronAPI] is defined: every use is [electronAPI?.f(..)]. *)
Variable electronAPI : bool.
Variable meetingContext : MeetingContext.

Definition api (f : Chat -> Chat) (c : Chat) : Chat :=
  if electronAPI then f c else c.

(** [if (meetingId)]: an absent or empty id is falsy. *)
Definition meetingId : option string :=
  match id meetingContext with
  | Some s => if truthy s then Some s else None
  | None => None
  end.

Definition busy (s : ChatState) : bool :=
  bool_decide (s = waiting_for_llm) || bool_decide (s = streaming_response).

(** [submitQuestion] up to its first [await] (the 200 ms timer). *)
Definition submit (question : string) (now : Z) (c : Chat) : Chat :=
  if negb (truthy (trim question)) || busy (chatState c) then c
  else
    let userMessage := mkMessage (UserId now) user question None in
    setTasks (fun ts => ts ++ [mkTask (AssistantId now) question AtTimer])
      (setErrorMessage None
         (setChatState waiting_for_llm
            (setMessages (fun prev => prev ++ [userMessage]) c))).

(** The context-window path: build the context string, listen to the
    Gemini stream and call [streamGeminiChat]; the same text in both
    branches of the source. *)
Definition contextWindow (t : Task) (c : Chat) : Chat :=
  let contextString := buildContextString meetingContext in
  let prompt := preamble +:+ nl +:+ nl +:+ contextString in
  let c1 := api (on GeminiStreamToken (t_aid t)) c in
  let c2 := api (on GeminiStreamDone (t_aid t)) c1 in
  if electronAPI
  then suspend t AtGemini (call (streamGeminiChat (t_question t) prompt) c2)
  else finish t c2.

(** From the timer to the next [await]. *)
Definition after_timer (t : Task) (c : Chat) : Chat :=
  let aid := t_aid t in
  let c1 := setMessages (fun prev => prev ++ [mkMessage aid assistant "" (Some true)]) c in
  let c2 := api (on RAGStreamChunk aid) c1 in
  let c3 := api (on RAGStreamComplete aid) c2 in
  let c4 := api (on RAGStreamError aid) c3 in
  match meetingId with
  | Some m =>
      if electronAPI
      then suspend t AtRag (call (ragQueryMeeting m (t_question t)) c4)
      else finish t c4
  | None => contextWindow t c4
  end.

(** After [ragQueryMeeting] resolved: [if (result?.fallback)]. *)
Definition after_rag (t : Task) (result : option RagResult) (c : Chat) : Chat :=
  match result with
  | Some r =>
      if fallback r
      then contextWindow t (api (ragCleanup (t_aid t)) c)
      else finish t c
  | None => finish t c
  end.

Definition step (i : Input) (c : Chat) : Chat :=
  match i with
  | Submit question now => submit question now c
  | Timer aid =>
      match waiting aid AtTimer c with
      | Some t => after_timer t c
      | None => c
      end
  | RagResolved aid result =>
      match waiting aid AtRag c with
      | Some t => after_rag t result c
      | None => c
      end
  | RagRejected aid =>
      match waiting aid AtRag c with
      | Some t => finish t (catch_block aid c)
      | None => c
      end
  | GeminiResolved aid =>
      match waiting aid AtGemini c with
      | Some t => finish t c
      | None => c
      end
  | GeminiRejected aid =>
      match waiting aid AtGemini c with
      | Some t => finish t (catch_block aid c)
      | None => c
      end
  | Event ch data => emit ch data c
  end.

Definition run (inputs : list Input) (c : Chat) : Chat :=
  foldl (fun c' i => step i c') c inputs.

End Overlay.

(** The text shown for the assistant message [aid], if it is displayed. *)
Definition answer (aid : MsgId) (c : Chat) : option string :=
  content <$> (snd <$> list_find (fun msg => msg_id msg = aid) (messages c)).

Definition is_gemini_call (k : Call) : bool :=
  match k with streamGeminiChat _ _ => true | ragQueryMeeting _ _ => false end.

Definition gemini_calls (c : Chat) : list Call :=
  filter (fun k => is_gemini_call k = true) (calls c).

End MeetingChat.

(** ** The meeting store (DatabaseManager over SQLite)

    The constructor of [DatabaseManager] either opens the database or
    throws, so the handle [this.db] of an instance is never null and the
    [if (!this.db)] guards of its methods never fire. *)
Module Store.
Import JS.

(** *** JavaScript values and JSON text *)

(** Objects are finite maps from property names to values. *)
Inductive value :=
| VUndefined
| VNull
| VBool (b : bool)
| VNum (z : Z)
| VStr (s : string)
| VArr (l : list value)
| VObj (m : gmap string value).

(** What [JSON.parse(JSON.stringify(v))] reads back: a property whose value
    is [undefined] is left out of an object, and an [undefined] array
    element becomes [null]. *)
Fixpoint to_json (v : value) : value :=
  match v with
  | VArr l => VArr ((fun x => match to_json x with VUndefined => VNull | y => y end) <$> l)
  | VObj m => VObj (omap (fun x => match to_json x with VUndefined => None | y => Some y end) m)
  | _ => v
  end.

(** A TEXT cell.  A cell written by [JSON.stringify] is represented by the
    value [JSON.parse] reads back from it; any other text is kept raw. *)
Inductive Text :=
| JsonText (v : value)
| RawText (s : string).

Definition stringify (v : value) : Text := JsonText (to_json v).

(** [JSON.parse(cell || '{}')]; [None] when [JSON.parse] throws. *)
Definition parse_or_empty (cell : option Text) : option value :=
  match cell with
  | None => Some (VObj ∅)
  | Some (RawText s) => if truthy s then None else Some (VObj ∅)
  | Some (JsonText v) => Some v
  end.

Definition js_truthy (v : value) : bool :=
  match v with
  | VUndefined | VNull => false
  | VBool b => b
  | VNum z => negb (z =? 0)%Z
  | VStr s => truthy s
  | VArr _ | VObj _ => true
  end.

Definition chars (s : string) : list value :=
  (fun c => VStr (String c "")) <$> list_ascii_of_string s.

Definition indexed (l : list value) : gmap string value :=
  list_to_map (imap (fun i x => (pretty i, x)) l).

(** The own enumerable properties that an object spread [{...v}] copies. *)
Definition spread (v : value) : gmap string value :=
  match v with
  | VObj m => m
  | VArr l => indexed l
  | VStr s => indexed (chars s)
  | _ => ∅
  end.

(** [v.name] for a name that no prototype defines ([detailedSummary],
    [legacySummary]); [None] is the TypeError on [null] and [undefined]. *)
Definition prop (name : string) (v : value) : option value :=
  match v with
  | VUndefined | VNull => None
  | VObj m => Some (default VUndefined (m !! name))
  | _ => Some VUndefined
  end.

(** *** Rows and tables of [runMigrations] *)

Record MeetingRow := mkMeetingRow {
  title : string;
  start_time : Z;
  duration_ms : Z;
  summary_json : option Text;
  created_at : string;
  calendar_event_id : option string;
  source : option string;
  is_processed : Z
}.

Record TranscriptRow := mkTranscriptRow {
  t_id : nat;
  t_meeting_id : string;
  t_speaker : string;
  t_content : string;
  t_timestamp_ms : Z
}.

Record InteractionRow := mkInteractionRow {
  i_id : nat;
  i_meeting_id : string;
  i_type : string;
  i_timestamp : Z;
  user_query : option string;
  ai_response : option string;
  metadata_json : option Text
}.

(** BLOB cells hold the components of an embedding. *)
Record ChunkRow := mkChunkRow {
  c_id : nat;
  c_meeting_id : string;
  chunk_index : nat;
  c_speaker : option string;
  start_timestamp_ms : Z;
  end_timestamp_ms : Z;
  cleaned_text : string;
  token_count : nat;
  c_embedding : option (list Z);
  c_created_at : Z
}.

Record SummaryRow := mkSummaryRow {
  s_id : nat;
  s_meeting_id : string;
  summary_text : string;
  s_embedding : option (list Z);
  s_created_at : Z
}.

Inductive JobStatus := pending | in_progress | completed | failed.

#[global] Instance JobStatus_eq_dec : EqDecision JobStatus.
Proof. solve_decision. Defined.

Record JobRow := mkJobRow {
  j_id : nat;
  j_meeting_id : string;
  chunk_id : option nat;
  status : JobStatus;
  retry_count : nat;
  error_message : option string;
  j_created_at : Z;
  processed_at : option Z
}.

(** The AUTOINCREMENT counters of [sqlite_sequence]. *)
Record Sequences := mkSequences {
  seq_transcripts : nat;
  seq_interactions : nat;
  seq_chunks : nat;
  seq_summaries : nat;
  seq_queue : nat
}.

Record Tables := mkTables {
  meetings : gmap string MeetingRow;
  transcripts : list TranscriptRow;
  ai_interactions : list InteractionRow;
  chunks : list ChunkRow;
  chunk_summaries : list SummaryRow;
  embedding_queue : list JobRow;
  sequences : Sequences
}.

Definition empty : Tables :=
  {| meetings := ∅; transcripts := []; ai_interactions := []; chunks := [];
     chunk_summaries := []; embedding_queue := [];
     sequences := mkSequences 0 0 0 0 0 |}.

(** *** Statements *)

(** Deleting the [meetings] row [id] runs the ON DELETE CASCADE action of
    the four tables that reference [meetings(id)]; better-sqlite3 opens its
    connections with foreign keys enforced.  [embedding_queue] has no
    foreign key and is left alone. *)
Definition delete_meeting_row (id : string) (db : Tables) : Tables :=
  {| meetings := delete id (meetings db);
     transcripts := filter (fun r => t_meeting_id r ≠ id) (transcripts db);
     ai_interactions := filter (fun r => i_meeting_id r ≠ id) (ai_interactions db);
     chunks := filter (fun r => c_meeting_id r ≠ id) (chunks db);
     chunk_summaries := filter (fun r => s_meeting_id r ≠ id) (chunk_summaries db);
     embedding_queue := embedding_queue db;
     sequences := sequences db |}.

(** [DELETE FROM meetings WHERE id = ?], with the number of changed rows. *)
Definition delete_from_meetings (id : string) (db : Tables) : nat * Tables :=
  match meetings db !! id with
  | Some _ => (1, delete_meeting_row id db)
  | None => (0, db)
  end.

(** [INSERT OR REPLACE INTO meetings]: REPLACE first deletes the row that
    holds the primary key, which is a deletion like any other for the
    foreign keys, and then inserts. *)
Definition insert_or_replace_meeting (id : string) (row : MeetingRow) (db : Tables) : Tables :=
  let db' := snd (delete_from_meetings id db) in
  {| meetings := <[id := row]> (meetings db');
     transcripts := transcripts db';
     ai_interactions := ai_interactions db';
     chunks := chunks db';
     chunk_summaries := chunk_summaries db';
     embedding_queue := embedding_queue db';
     sequences := sequences db' |}.

Definition bump_transcripts (s : Sequences) : Sequences :=
  mkSequences (S (seq_transcripts s)) (seq_interactions s) (seq_chunks s)
              (seq_summaries s) (seq_queue s).
Definition bump_interactions (s : Sequences) : Sequences :=
  mkSequences (seq_transcripts s) (S (seq_interactions s)) (seq_chunks s)
              (seq_summaries s) (seq_queue s).

(** [INSERT INTO transcripts]; [None] is the foreign-key failure. *)
Definition insert_transcript (meeting_id speaker content : string) (ts : Z)
    (db : Tables) : option Tables :=
  match meetings db !! meeting_id with
  | None => None
  | Some _ =>
      let n := S (seq_transcripts (sequences db)) in
      Some {| meetings := meetings db;
              transcripts := transcripts db ++ [mkTranscriptRow n meeting_id speaker content ts];
              ai_interactions := ai_interactions db;
              chunks := chunks db;
              chunk_summaries := chunk_summaries db;
              embedding_queue := embedding_queue db;
              sequences := bump_transcripts (sequences db) |}
  end.

(** [INSERT INTO ai_interactions]. *)
Definition insert_interaction (meeting_id type : string) (ts : Z)
    (query answer : option string) (metadata : option Text)
    (db : Tables) : option Tables :=
  match meetings db !! meeting_id with
  | None => None
  | Some _ =>
      let n := S (seq_interactions (sequences db)) in
      Some {| meetings := meetings db;
              transcripts := transcripts db;
              ai_interactions := ai_interactions db
                ++ [mkInteractionRow n meeting_id type ts query answer metadata];
              chunks := chunks db;
              chunk_summaries := chunk_summaries db;
              embedding_queue := embedding_queue db;
              sequences := bump_interactions (sequences db) |}
  end.

(** [UPDATE meetings SET summary_json = ? WHERE id = ?]. *)
Definition update_summary_json (id : string) (json : Text) (db : Tables) : nat * Tables :=
  match meetings db !! id with
  | None => (0, db)
  | Some row =>
      (1, {| meetings := <[id := {| title := title row; start_time := start_time row;
                                   duration_ms := duration_ms row;
                                   summary_json := Some json;
                                   created_at := created_at row;
                                   calendar_event_id := calendar_event_id row;
                                   source := source row;
                                   is_processed := is_processed row |}]> (meetings db);
             transcripts := transcripts db;
             ai_interactions := ai_interactions db;
             chunks := chunks db;
             chunk_summaries := chunk_summaries db;
             embedding_queue := embedding_queue db;
             sequences := sequences db |})
  end.

(** [UPDATE meetings SET title = ? WHERE id = ?]. *)
Definition update_title (id : string) (new_title : string) (db : Tables) : nat * Tables :=
  match meetings db !! id with
  | None => (0, db)
  | Some row =>
      (1, {| meetings := <[id := {| title := new_title; start_time := start_time row;
                                   duration_ms := duration_ms row;
                                   summary_json := summary_json row;
                                   created_at := created_at row;
                                   calendar_event_id := calendar_event_id row;
                                   source := source row;
                                   is_processed := is_processed row |}]> (meetings db);
             transcripts := transcripts db;
             ai_interactions := ai_interactions db;
             chunks := chunks db;
             chunk_summaries := chunk_summaries db;
             embedding_queue := embedding_queue db;
             sequences := sequences db |})
  end.

(** *** Running statements: state and exceptions *)

(** A call runs its statements one after the other.  A statement throws
    when its constraint check fails, or when the engine cannot carry it out
    (disk full, value that cannot be bound): [fault k] says that of the
    [k]-th statement the call runs. *)
Record Exec := mkExec { tables : Tables; executed : nat }.

Inductive result (A : Type) :=
| Ok (a : A)
| Throw.
Arguments Ok {A} a.
Arguments Throw {A}.

Definition M (A : Type) : Type := Exec -> Exec * result A.

Definition ret {A} (a : A) : M A := fun e => (e, Ok a).

Definition bind {A B} (m : M A) (k : A -> M B) : M B :=
  fun e => match m e with
           | (e', Ok a) => k a e'
           | (e', Throw) => (e', Throw)
           end.

Notation "x <- m ;; k" := (bind m (fun x => k))
  (at level 90, m at level 89, right associativity).
Notation "m ;;; k" := (bind m (fun _ => k))
  (at level 90, right associativity).

Fixpoint for_each {A} (l : list A) (body : A -> M unit) : M unit :=
  match l with
  | [] => ret tt
  | x :: r => body x ;;; for_each r body
  end.

Section Faults.
Variable fault : nat -> bool.

(** [stmt.run(...)] of a statement that changes rows. *)
Definition run_stmt {A} (stmt : Tables -> option (A * Tables)) : M A :=
  fun e =>
    let e' := mkExec (tables e) (S (executed e)) in
    if fault (executed e) then (e', Throw)
    else match stmt (tables e) with
         | Some (a, t) => (mkExec t (S (executed e)), Ok a)
         | None => (e', Throw)
         end.

(** [db.transaction(fn)()]: BEGIN, the body, COMMIT; when the body throws,
    ROLLBACK to the state at BEGIN and throw again. *)
Definition transaction (body : M unit) (db : Tables) : Tables * result unit :=
  let at_begin := db in
  match body (mkExec db 0) with
  | (e, Ok _) => (tables e, Ok tt)
  | (_, Throw) => (at_begin, Throw)
  end.

(** *** The public API *)

Record Segment := mkSegment {
  speaker : string;
  text : string;
  timestamp : Z
}.

(** [answer] is declared a string; [saveMeeting] also expects arrays. *)
Inductive Answer :=
| AnswerText (s : string)
| AnswerList (l : list string).

Record Usage := mkUsage {
  u_type : string;
  u_timestamp : Z;
  question : option string;
  answer : option Answer;
  items : option (list string)
}.

(** The [Meeting] interface; [m_title] and [m_source] are its [title] and
    [source], which the columns of [meetings] are named after as well. *)
Record Meeting := mkMeeting {
  id : string;
  m_title : string;
  date : string;
  duration : string;
  summary : string;
  detailedSummary : option (gmap string value);
  transcript : option (list Segment);
  usage : option (list Usage);
  calendarEventId : option string;
  m_source : option string;
  isProcessed : option bool
}.

Definition or_null (s : option string) : option string :=
  match s with
  | Some x => if truthy x then Some x else None
  | None => None
  end.

Definition strings (l : list string) : value := VArr (VStr <$> l).

Definition metadata_of (u : Usage) : option Text :=
  match items u with
  | Some its => Some (stringify (strings its))
  | None =>
      if String.eqb (u_type u) "followup_questions"
      then match answer u with
           | Some (AnswerList l) => Some (stringify (strings l))
           | _ => None
           end
      else None
  end.

Definition answerText (u : Usage) : option string :=
  match answer u with
  | Some (AnswerText s) => if truthy s then Some s else None
  | _ => None
  end.

Definition summaryJson (meeting : Meeting) : Text :=
  stringify (VObj (<["legacySummary" := VStr (summary meeting)]>
                   (<["detailedSummary" :=
                        match detailedSummary meeting with
                        | Some d => VObj d
                        | None => VUndefined
                        end]> ∅))).

Definition meeting_row (meeting : Meeting) (startTimeMs durationMs : Z) : MeetingRow :=
  {| title := m_title meeting;
     start_time := startTimeMs;
     duration_ms := durationMs;
     summary_json := Some (summaryJson meeting);
     created_at := date meeting;
     calendar_event_id := or_null (calendarEventId meeting);
     source := Some (match or_null (m_source meeting) with
                     | Some x => x
                     | None => "manual"
                     end);
     is_processed := match isProcessed meeting with
                     | Some true => 1%Z
                     | _ => 0%Z
                     end |}.

(** The body of [runTransaction]. *)
Definition saveMeeting_body (meeting : Meeting) (startTimeMs durationMs : Z) : M unit :=
  run_stmt (fun db => Some (tt, insert_or_replace_meeting (id meeting)
                                  (meeting_row meeting startTimeMs durationMs) db)) ;;;
  match transcript meeting with
  | Some segments =>
      for_each segments (fun segment =>
        run_stmt (fun db => pair tt <$> insert_transcript (id meeting) (speaker segment)
                                          (text segment) (timestamp segment) db))
  | None => ret tt
  end ;;;
  match usage meeting with
  | Some us =>
      for_each us (fun u =>
        let metadata := metadata_of u in
        let answerText := answerText u in
        let queryText := or_null (question u) in
        run_stmt (fun db => pair tt <$> insert_interaction (id meeting) (u_type u)
                                          (u_timestamp u) queryText answerText metadata db))
  | None => ret tt
  end.

(** [saveMeeting]: the result is [Throw] when the error is thrown again. *)
Definition saveMeeting (meeting : Meeting) (startTimeMs durationMs : Z)
    (db : Tables) : Tables * result unit :=
  transaction (saveMeeting_body meeting startTimeMs durationMs) db.

(** Outside a transaction every statement commits on its own; the methods
    below catch what a statement throws and return [false]. *)
Definition updateMeetingTitle (id : string) (new_title : string) (db : Tables)
    : Tables * bool :=
  match run_stmt (fun t => Some (update_title id new_title t)) (mkExec db 0) with
  | (e, Ok changes) => (tables e, bool_decide (0 < changes))
  | (_, Throw) => (db, false)
  end.

Definition updateMeetingSummary (id : string) (updates : gmap string value)
    (db : Tables) : Tables * bool :=
  let body : M bool :=
    row <- run_stmt (fun t => Some (meetings t !! id, t)) ;;
    match row with
    | None => ret false
    | Some r =>
        match parse_or_empty (summary_json r) with
        | None => fun e => (e, Throw)
        | Some existingData =>
            match prop "detailedSummary" existingData with
            | None => fun e => (e, Throw)
            | Some d =>
                let currentDetailed := if js_truthy d then d else VObj ∅ in
                let newDetailed := updates ∪ spread currentDetailed in
                let newData := <["detailedSummary" := VObj newDetailed]> (spread existingData) in
                let jsonStr := stringify (VObj newData) in
                changes <- run_stmt (fun t => Some (update_summary_json id jsonStr t)) ;;
                ret (bool_decide (0 < changes))
            end
        end
    end in
  match body (mkExec db 0) with
  | (e, Ok b) => (tables e, b)
  | (e, Throw) => (tables e, false)
  end.

Definition deleteMeeting (id : string) (db : Tables) : Tables * bool :=
  match run_stmt (fun t => Some (delete_from_meetings id t)) (mkExec db 0) with
  | (e, Ok changes) => (tables e, bool_decide (0 < changes))
  | (_, Throw) => (db, false)
  end.

End Faults.

End Store.

(** ** Chunks, embedding jobs, summaries and the fallback decision

    The schema above prepares the tables [chunks], [chunk_summaries] and
    [embedding_queue]; the code that fills them is not part of these
    sources and is modelled from the design document. *)
Module Rag.
Import JS.

(** *** Chunker *)

(** Modelled from the spec: the [speaker] of an Utterance of section 3. *)
Inductive Speaker := self | other.

#[global] Instance Speaker_eq_dec : EqDecision Speaker.
Proof. solve_decision. Defined.

(** Modelled from the spec: the Utterance of section 3; the utterances of
    a meeting are ordered by timestamp. *)
Record Utterance := mkUtterance {
  speaker : Speaker;
  text : string;
  timestamp_ms : Z
}.

(** Modelled from the spec: the Chunk of section 3 as the Chunker makes
    it; its id, embedding and creation time come with the row in [chunks]. *)
Record Chunk := mkChunk {
  meeting_id : string;
  chunk_index : nat;
  chunk_speaker : option Speaker;
  start_ts : Z;
  end_ts : Z;
  cleaned_text : string;
  token_count : nat
}.

(** Modelled from the spec: the TokenEstimator of section 2 and the three
    limits of the Chunker of section 4.1, which are configuration. *)
Record ChunkerConfig := mkChunkerConfig {
  estimate : string -> nat;
  ceiling : nat;
  max_span : Z;
  min_buffer : nat
}.

(** Modelled from the spec: the state of the Chunker of a meeting, its
    ordered buffer and the index of its next chunk. *)
Record Chunker := mkChunker {
  owner : string;
  buffer : list Utterance;
  next_index : nat
}.

Definition new_chunker (meeting : string) : Chunker :=
  {| owner := meeting; buffer := []; next_index := 0 |}.

(** Modelled from the spec: the normalized speaker labels of section 4.1. *)
Definition label (s : Speaker) : string :=
  match s with self => "Me" | other => "Them" end.

(** Modelled from the spec: the Chunker of section 4.1 is missing from the
    sources.  [cleaned_text] is the concatenation of the utterance texts
    with normalized speaker labels. *)
Definition clean (us : list Utterance) : string :=
  join MeetingChat.nl ((fun u => label (speaker u) +:+ ": " +:+ text u) <$> us).

Definition buffer_tokens (cfg : ChunkerConfig) (us : list Utterance) : nat :=
  estimate cfg (clean us).

Definition common_speaker (u : Utterance) (us : list Utterance) : option Speaker :=
  if forallb (fun v => bool_decide (speaker v = speaker u)) us
  then Some (speaker u) else None.

(** Modelled from the spec: the buffered utterances become one chunk whose
    [start_ts] and [end_ts] are the timestamps of the first and of the last
    utterance; an empty buffer gives nothing. *)
Definition materialize (cfg : ChunkerConfig) (st : Chunker) : option Chunk :=
  match buffer st with
  | [] => None
  | u :: r =>
      Some {| meeting_id := owner st;
              chunk_index := next_index st;
              chunk_speaker := common_speaker u r;
              start_ts := timestamp_ms u;
              end_ts := timestamp_ms (List.last r u);
              cleaned_text := clean (u :: r);
              token_count := buffer_tokens cfg (u :: r) |}
  end.

Definition cut (cfg : ChunkerConfig) (st : Chunker) : list Chunk * Chunker :=
  match materialize cfg st with
  | Some c => ([c], {| owner := owner st; buffer := []; next_index := S (next_index st) |})
  | None => ([], st)
  end.

(** Modelled from the spec: with a non-empty buffer, the next utterance
    closes the chunk when it would take the buffer over the token ceiling,
    when it comes later than the maximal span after the first buffered
    utterance, or when it changes the speaker of a buffer that has the
    minimal size. *)
Definition closes (cfg : ChunkerConfig) (buf : list Utterance) (u : Utterance) : bool :=
  match buf with
  | [] => false
  | first :: r =>
      (ceiling cfg <? buffer_tokens cfg (buf ++ [u]))%nat
      || (max_span cfg <? timestamp_ms u - timestamp_ms first)%Z
      || (negb (bool_decide (speaker (List.last r first) = speaker u))
          && (min_buffer cfg <=? buffer_tokens cfg buf)%nat)
  end.

Definition push (u : Utterance) (st : Chunker) : Chunker :=
  {| owner := owner st; buffer := buffer st ++ [u]; next_index := next_index st |}.

(** Modelled from the spec: [append(utterance) -> list<Chunk>] of section
    4.1.  A buffer that reaches the ceiling is finalized at once, so an
    utterance that exceeds the ceiling alone is one chunk. *)
Definition append (cfg : ChunkerConfig) (u : Utterance) (st : Chunker)
    : list Chunk * Chunker :=
  let '(out1, st1) := if closes cfg (buffer st) u then cut cfg st else ([], st) in
  let st2 := push u st1 in
  if (ceiling cfg <=? buffer_tokens cfg (buffer st2))%nat
  then let '(out2, st3) := cut cfg st2 in (out1 ++ out2, st3)
  else (out1, st2).

(** Modelled from the spec: [flush() -> optional<Chunk>] of section 4.1. *)
Definition flush (cfg : ChunkerConfig) (st : Chunker) : list Chunk * Chunker :=
  cut cfg st.

(** Modelled from the spec: [onTranscriptAppend] for each utterance in
    turn, collecting the chunks that are put out. *)
Fixpoint append_all (cfg : ChunkerConfig) (us : list Utterance) (st : Chunker)
    : list Chunk * Chunker :=
  match us with
  | [] => ([], st)
  | u :: r =>
      let '(out, st') := append cfg u st in
      let '(outs, st'') := append_all cfg r st' in
      (out ++ outs, st'')
  end.

(** Modelled from the spec: all chunks of a meeting, the utterances
    appended in order and the flush of [onMeetingEnd] when [ended]. *)
Definition chunks_of_transcript (cfg : ChunkerConfig) (meeting : string)
    (us : list Utterance) (ended : bool) : list Chunk :=
  let '(out, st) := append_all cfg us (new_chunker meeting) in
  if ended then out ++ fst (flush cfg st) else out.

(** *** Tables written by the RAG engine *)

Definition with_chunks (cs : list Store.ChunkRow) (sq : Store.Sequences)
    (db : Store.Tables) : Store.Tables :=
  {| Store.meetings := Store.meetings db;
     Store.transcripts := Store.transcripts db;
     Store.ai_interactions := Store.ai_interactions db;
     Store.chunks := cs;
     Store.chunk_summaries := Store.chunk_summaries db;
     Store.embedding_queue := Store.embedding_queue db;
     Store.sequences := sq |}.

Definition with_summaries (ss : list Store.SummaryRow) (sq : Store.Sequences)
    (db : Store.Tables) : Store.Tables :=
  {| Store.meetings := Store.meetings db;
     Store.transcripts := Store.transcripts db;
     Store.ai_interactions := Store.ai_interactions db;
     Store.chunks := Store.chunks db;
     Store.chunk_summaries := ss;
     Store.embedding_queue := Store.embedding_queue db;
     Store.sequences := sq |}.

Definition with_queue (js : list Store.JobRow) (sq : Store.Sequences)
    (db : Store.Tables) : Store.Tables :=
  {| Store.meetings := Store.meetings db;
     Store.transcripts := Store.transcripts db;
     Store.ai_interactions := Store.ai_interactions db;
     Store.chunks := Store.chunks db;
     Store.chunk_summaries := Store.chunk_summaries db;
     Store.embedding_queue := js;
     Store.sequences := sq |}.

Definition bump_chunks (s : Store.Sequences) : Store.Sequences :=
  Store.mkSequences (Store.seq_transcripts s) (Store.seq_interactions s)
    (S (Store.seq_chunks s)) (Store.seq_summaries s) (Store.seq_queue s).
Definition bump_summaries (s : Store.Sequences) : Store.Sequences :=
  Store.mkSequences (Store.seq_transcripts s) (Store.seq_interactions s)
    (Store.seq_chunks s) (S (Store.seq_summaries s)) (Store.seq_queue s).
Definition bump_queue (s : Store.Sequences) : Store.Sequences :=
  Store.mkSequences (Store.seq_transcripts s) (Store.seq_interactions s)
    (Store.seq_chunks s) (Store.seq_summaries s) (S (Store.seq_queue s)).

(** [INSERT INTO chunks]: the foreign key wants the meeting to exist. *)
Definition insert_chunk (c : Chunk) (now : Z) (db : Store.Tables)
    : option (nat * Store.Tables) :=
  match Store.meetings db !! meeting_id c with
  | None => None
  | Some _ =>
      let n := S (Store.seq_chunks (Store.sequences db)) in
      let row :=
        {| Store.c_id := n;
           Store.c_meeting_id := meeting_id c;
           Store.chunk_index := chunk_index c;
           Store.c_speaker := label <$> chunk_speaker c;
           Store.start_timestamp_ms := start_ts c;
           Store.end_timestamp_ms := end_ts c;
           Store.cleaned_text := cleaned_text c;
           Store.token_count := token_count c;
           Store.c_embedding := None;
           Store.c_created_at := now |} in
      Some (n, with_chunks (Store.chunks db ++ [row]) (bump_chunks (Store.sequences db)) db)
  end.

(** [INSERT INTO chunk_summaries]: [meeting_id] is UNIQUE and a foreign
    key, so the statement fails when the meeting has a row already. *)
Definition insert_summary (meeting text : string) (now : Z) (db : Store.Tables)
    : option Store.Tables :=
  match Store.meetings db !! meeting with
  | None => None
  | Some _ =>
      if bool_decide (meeting ∈ Store.s_meeting_id <$> Store.chunk_summaries db)
      then None
      else
        let n := S (Store.seq_summaries (Store.sequences db)) in
        Some (with_summaries
                (Store.chunk_summaries db ++ [Store.mkSummaryRow n meeting text None now])
                (bump_summaries (Store.sequences db)) db)
  end.

Definition overwrite (meeting text : string) (r : Store.SummaryRow) : Store.SummaryRow :=
  if decide (Store.s_meeting_id r = meeting)
  then {| Store.s_id := Store.s_id r; Store.s_meeting_id := meeting;
          Store.summary_text := text; Store.s_embedding := None;
          Store.s_created_at := Store.s_created_at r |}
  else r.

(** Modelled from the spec: the summary upsert of sections 3 and 4.2 is
    missing from the sources.  The new text replaces the text of the row of
    the meeting and drops its embedding; a row is inserted only when the
    meeting has none. *)
Definition upsert_summary (meeting text : string) (now : Z) (db : Store.Tables)
    : option Store.Tables :=
  match Store.meetings db !! meeting with
  | None => None
  | Some _ =>
      if bool_decide (meeting ∈ Store.s_meeting_id <$> Store.chunk_summaries db)
      then Some (with_summaries (overwrite meeting text <$> Store.chunk_summaries db)
                   (Store.sequences db) db)
      else insert_summary meeting text now db
  end.

(** *** Embedding queue *)

(** Modelled from the spec: the configuration of the EmbeddingQueue of
    section 4.3 and the dimension of the EmbeddingClient of section 6. *)
Record QueueConfig := mkQueueConfig {
  max_retries : nat;
  base_delay : Z;
  max_delay : Z;
  dimension : nat;
  stale_timeout : Z
}.

(** Modelled from the spec: the store, and the two timestamps the queue of
    section 4.3 keeps per job, the time before which a job is not eligible
    and the time it was claimed. *)
Record State := mkState {
  db : Store.Tables;
  not_before : gmap nat Z;
  claimed_at : gmap nat Z
}.

Definition booted : State :=
  {| db := Store.empty; not_before := ∅; claimed_at := ∅ |}.

Definition set_db (t : Store.Tables) (st : State) : State :=
  {| db := t; not_before := not_before st; claimed_at := claimed_at st |}.

Definition jobs (st : State) : list Store.JobRow := Store.embedding_queue (db st).

Definition set_jobs (js : list Store.JobRow) (st : State) : State :=
  set_db (with_queue js (Store.sequences (db st)) (db st)) st.

Definition update_job (id : nat) (f : Store.JobRow -> Store.JobRow) (st : State) : State :=
  set_jobs ((fun j => if decide (Store.j_id j = id) then f j else j) <$> jobs st) st.

(** Modelled from the spec: [enqueue(target)] of section 4.3; the target is
    a chunk, or the summary of the meeting when [chunk] is [None]. *)
Definition enqueue (meeting : string) (chunk : option nat) (now : Z) (st : State) : State :=
  let n := S (Store.seq_queue (Store.sequences (db st))) in
  let job :=
    {| Store.j_id := n; Store.j_meeting_id := meeting; Store.chunk_id := chunk;
       Store.status := Store.pending; Store.retry_count := 0;
       Store.error_message := None; Store.j_created_at := now;
       Store.processed_at := None |} in
  set_db (with_queue (jobs st ++ [job]) (bump_queue (Store.sequences (db st))) (db st)) st.

Definition eligible (now : Z) (st : State) (j : Store.JobRow) : Prop :=
  Store.status j = Store.pending ∧ (default 0 (not_before st !! Store.j_id j) ≤ now)%Z.

#[global] Instance eligible_dec now st j : Decision (eligible now st j).
Proof. unfold eligible. apply _. Defined.

(** Oldest first. *)
Definition older (a b : Store.JobRow) : Prop :=
  (Store.j_created_at a < Store.j_created_at b)%Z
  ∨ (Store.j_created_at a = Store.j_created_at b ∧ Store.j_id a ≤ Store.j_id b).

#[global] Instance older_dec a b : Decision (older a b).
Proof. unfold older. apply _. Defined.

(** Modelled from the spec: [drain] selects up to [batch_size] pending
    jobs, oldest first. *)
Definition select (batch_size : nat) (now : Z) (st : State) : list Store.JobRow :=
  take batch_size (merge_sort older (filter (eligible now st) (jobs st))).

Definition set_status (s : Store.JobStatus) (j : Store.JobRow) : Store.JobRow :=
  {| Store.j_id := Store.j_id j; Store.j_meeting_id := Store.j_meeting_id j;
     Store.chunk_id := Store.chunk_id j; Store.status := s;
     Store.retry_count := Store.retry_count j;
     Store.error_message := Store.error_message j;
     Store.j_created_at := Store.j_created_at j;
     Store.processed_at := Store.processed_at j |}.

(** Modelled from the spec: the selected jobs move to [in_progress] before
    the embedding call. *)
Definition claim (now : Z) (sel : list Store.JobRow) (st : State) : State :=
  foldr (fun j st' =>
           {| db := db (update_job (Store.j_id j) (set_status Store.in_progress) st');
              not_before := not_before st';
              claimed_at := <[Store.j_id j := now]> (claimed_at st') |})
        st sel.

Definition complete (now : Z) (j : Store.JobRow) : Store.JobRow :=
  {| Store.j_id := Store.j_id j; Store.j_meeting_id := Store.j_meeting_id j;
     Store.chunk_id := Store.chunk_id j; Store.status := Store.completed;
     Store.retry_count := Store.retry_count j;
     Store.error_message := Store.error_message j;
     Store.j_created_at := Store.j_created_at j;
     Store.processed_at := Some now |}.

(** Modelled from the spec: on failure the retry count goes up by one; the
    job goes back to [pending] while the count is below the maximum, and is
    [failed] for good otherwise, or when the failure cannot be retried. *)
Definition fail (cfg : QueueConfig) (retryable : bool) (msg : string)
    (j : Store.JobRow) : Store.JobRow :=
  let n := S (Store.retry_count j) in
  if retryable && (n <? max_retries cfg)%nat
  then {| Store.j_id := Store.j_id j; Store.j_meeting_id := Store.j_meeting_id j;
          Store.chunk_id := Store.chunk_id j; Store.status := Store.pending;
          Store.retry_count := n;
          Store.error_message := Store.error_message j;
          Store.j_created_at := Store.j_created_at j;
          Store.processed_at := Store.processed_at j |}
  else {| Store.j_id := Store.j_id j; Store.j_meeting_id := Store.j_meeting_id j;
          Store.chunk_id := Store.chunk_id j; Store.status := Store.failed;
          Store.retry_count := n;
          Store.error_message := Some msg;
          Store.j_created_at := Store.j_created_at j;
          Store.processed_at := Store.processed_at j |}.

(** Modelled from the spec: the backoff delay
    [base_delay * 2^retry_count], capped. *)
Definition backoff (cfg : QueueConfig) (retries : nat) : Z :=
  Z.min (max_delay cfg) (base_delay cfg * 2 ^ Z.of_nat retries).

Definition set_chunk_embedding (id : nat) (v : list Z) (r : Store.ChunkRow) : Store.ChunkRow :=
  if decide (Store.c_id r = id)
  then {| Store.c_id := Store.c_id r; Store.c_meeting_id := Store.c_meeting_id r;
          Store.chunk_index := Store.chunk_index r; Store.c_speaker := Store.c_speaker r;
          Store.start_timestamp_ms := Store.start_timestamp_ms r;
          Store.end_timestamp_ms := Store.end_timestamp_ms r;
          Store.cleaned_text := Store.cleaned_text r;
          Store.token_count := Store.token_count r;
          Store.c_embedding := Some v; Store.c_created_at := Store.c_created_at r |}
  else r.

Definition set_summary_embedding (meeting : string) (v : list Z) (r : Store.SummaryRow)
    : Store.SummaryRow :=
  if decide (Store.s_meeting_id r = meeting)
  then {| Store.s_id := Store.s_id r; Store.s_meeting_id := Store.s_meeting_id r;
          Store.summary_text := Store.summary_text r; Store.s_embedding := Some v;
          Store.s_created_at := Store.s_created_at r |}
  else r.

(** Modelled from the spec: the vector goes to the target of the job; a
    target that is gone is not an error. *)
Definition write_embedding (j : Store.JobRow) (v : list Z) (t : Store.Tables) : Store.Tables :=
  match Store.chunk_id j with
  | Some c => with_chunks (set_chunk_embedding c v <$> Store.chunks t) (Store.sequences t) t
  | None =>
      with_summaries (set_summary_embedding (Store.j_meeting_id j) v <$> Store.chunk_summaries t)
        (Store.sequences t) t
  end.

(** Modelled from the spec: what the EmbeddingClient of section 6 answers. *)
Inductive Reply :=
| Vector (v : list Z)
| Error (msg : string).

Definition retries_of (id : nat) (st : State) : nat :=
  default 0 (Store.retry_count <$> (snd <$> list_find (fun j => Store.j_id j = id) (jobs st))).

(** Modelled from the spec: the outcome of one embedding call.  A vector of
    the wrong dimension is a failure that is not retried. *)
Definition settle (cfg : QueueConfig) (now : Z) (j : Store.JobRow) (reply : Reply)
    (st : State) : State :=
  let id := Store.j_id j in
  match reply with
  | Vector v =>
      if decide (length v = dimension cfg)
      then update_job id (complete now) (set_db (write_embedding j v (db st)) st)
      else update_job id (fail cfg false "dimension") st
  | Error msg =>
      let st' := update_job id (fail cfg true msg) st in
      {| db := db st';
         not_before := <[id := (now + backoff cfg (retries_of id st'))%Z]> (not_before st');
         claimed_at := claimed_at st' |}
  end.

(** Modelled from the spec: the worker calls the client job by job; [None]
    is a worker that dies during the call, which leaves that job and the
    rest [in_progress]. *)
Fixpoint drain_loop (cfg : QueueConfig) (now : Z)
    (client : Store.JobRow -> option Reply)
    (sel : list Store.JobRow) (st : State) (processed : nat) : State * nat :=
  match sel with
  | [] => (st, processed)
  | j :: r =>
      match client j with
      | None => (st, processed)
      | Some reply => drain_loop cfg now client r (settle cfg now j reply st) (S processed)
      end
  end.

(** Modelled from the spec: [drain(batch_size) -> processed_count] of
    section 4.3. *)
Definition drain (cfg : QueueConfig) (batch_size : nat) (now : Z)
    (client : Store.JobRow -> option Reply) (st : State) : State * nat :=
  let sel := select batch_size now st in
  drain_loop cfg now client sel (claim now sel st) 0.

Definition stale (cfg : QueueConfig) (now : Z) (st : State) (j : Store.JobRow) : bool :=
  bool_decide (Store.status j = Store.in_progress)
  && bool_decide (default 0 (claimed_at st !! Store.j_id j) + stale_timeout cfg < now)%Z.

(** Modelled from the spec: the recovery pass resets the [in_progress] jobs
    that are older than the timeout to [pending]. *)
Definition recover (cfg : QueueConfig) (now : Z) (st : State) : State :=
  set_jobs ((fun j => if stale cfg now st j then set_status Store.pending j else j)
              <$> jobs st) st.

(** Modelled from the spec: a new chunk is stored and its embedding job is
    enqueued. *)
Definition store_chunk (c : Chunk) (now : Z) (st : State) : State :=
  match insert_chunk c now (db st) with
  | Some (n, t) => enqueue (meeting_id c) (Some n) now (set_db t st)
  | None => st
  end.

(** Modelled from the spec: [recompute] of section 4.2.  [None] is a
    summarizer that is unavailable: the previous summary stays. *)
Definition recompute (meeting : string) (composed : option string) (now : Z)
    (st : State) : State :=
  match composed with
  | None => st
  | Some text =>
      match upsert_summary meeting text now (db st) with
      | Some t => enqueue meeting None now (set_db t st)
      | None => st
      end
  end.

(** *** The operations of the whole store *)

(** The operations of [DatabaseManager] and, modelled from the spec, those
    of the RAG engine. *)
Inductive Op :=
| SaveMeeting (fault : nat -> bool) (meeting : Store.Meeting) (startTimeMs durationMs : Z)
| UpdateMeetingTitle (fault : nat -> bool) (id title : string)
| UpdateMeetingSummary (fault : nat -> bool) (id : string) (updates : gmap string Store.value)
| DeleteMeeting (fault : nat -> bool) (id : string)
| StoreChunk (c : Chunk) (now : Z)
| InsertSummary (meeting text : string) (now : Z)
| Recompute (meeting : string) (composed : option string) (now : Z)
| Enqueue (meeting : string) (chunk : option nat) (now : Z)
| Drain (batch_size : nat) (now : Z) (client : Store.JobRow -> option Reply)
| Recover (now : Z).

Definition apply (cfg : QueueConfig) (op : Op) (st : State) : State :=
  match op with
  | SaveMeeting fault meeting s d =>
      set_db (fst (Store.saveMeeting fault meeting s d (db st))) st
  | UpdateMeetingTitle fault id title =>
      set_db (fst (Store.updateMeetingTitle fault id title (db st))) st
  | UpdateMeetingSummary fault id updates =>
      set_db (fst (Store.updateMeetingSummary fault id updates (db st))) st
  | DeleteMeeting fault id =>
      set_db (fst (Store.deleteMeeting fault id (db st))) st
  | StoreChunk c now => store_chunk c now st
  | InsertSummary meeting text now =>
      match insert_summary meeting text now (db st) with
      | Some t => set_db t st
      | None => st
      end
  | Recompute meeting composed now => recompute meeting composed now st
  | Enqueue meeting chunk now => enqueue meeting chunk now st
  | Drain batch_size now client => fst (drain cfg batch_size now client st)
  | Recover now => recover cfg now st
  end.

Inductive reachable (cfg : QueueConfig) : State -> Prop :=
| reach_booted : reachable cfg booted
| reach_step st op : reachable cfg st -> reachable cfg (apply cfg op st).

(** *** FallbackPolicy *)

(** Modelled from the spec: the two strategies of section 4.6. *)
Inductive Strategy := RAG | ContextWindow.

#[global] Instance Strategy_eq_dec : EqDecision Strategy.
Proof. solve_decision. Defined.

Definition chunks_of (meeting : string) (t : Store.Tables) : list Store.ChunkRow :=
  filter (fun r => Store.c_meeting_id r = meeting) (Store.chunks t).

Definition embedded_chunks (meeting : string) (t : Store.Tables) : list Store.ChunkRow :=
  filter (fun r => is_Some (Store.c_embedding r)) (chunks_of meeting t).

(** Modelled from the spec: [select_strategy] of section 4.6 is missing
    from the sources.  It chooses [ContextWindow] when the meeting has no
    embedded chunk, when the last retrieval was unavailable, or when the
    meeting has fewer chunks than the minimum. *)
Definition select_strategy (min_chunks : nat) (last_unavailable : bool)
    (meeting : string) (t : Store.Tables) : Strategy :=
  if bool_decide (embedded_chunks meeting t = [])
     || last_unavailable
     || (length (chunks_of meeting t) <? min_chunks)%nat
  then ContextWindow else RAG.

(** Modelled from the spec: what [queryMeeting] of section 6 reports back
    to the chat as [used_fallback], the [fallback] flag the chat reads. *)
Definition queryMeeting (min_chunks : nat) (last_unavailable : bool)
    (meeting : string) (t : Store.Tables) : MeetingChat.RagResult :=
  {| MeetingChat.fallback :=
       bool_decide (select_strategy min_chunks last_unavailable meeting t = ContextWindow) |}.

End Rag.

(** ** The meeting store: reading meetings back *)
Module Queries.
Import JS Store.

(** *** ORDER BY and LIMIT *)

(** SQL leaves the order of the rows with equal keys to the engine.  An
    engine is any function that returns the rows it is given, sorted by the
    key; [le x y] says that [x] may come before [y]. *)
Record Engine := mkEngine {
  order_by : ∀ A : Type, (A -> A -> bool) -> list A -> list A;
  order_by_permutation : ∀ A le l, order_by A le l ≡ₚ l;
  order_by_sorted : ∀ A (le : A -> A -> bool) l,
    (∀ x y, le x y = true ∨ le y x = true) →
    (∀ x y z, le x y = true → le y z = true → le x z = true) →
    StronglySorted (fun x y => le x y = true) (order_by A le l)
}.

(** [ORDER BY created_at DESC]: TEXT compares code unit by code unit, a
    proper prefix first. *)
Definition created_desc (a b : string * MeetingRow) : bool :=
  String.leb (created_at b.2) (created_at a.2).

(** [ORDER BY timestamp_ms ASC] and [ORDER BY timestamp ASC]. *)
Definition transcript_asc (a b : TranscriptRow) : bool :=
  (t_timestamp_ms a <=? t_timestamp_ms b)%Z.
Definition interaction_asc (a b : InteractionRow) : bool :=
  (i_timestamp a <=? i_timestamp b)%Z.

(** [LIMIT ?]: a negative limit is no limit. *)
Definition limit_rows {A} (limit : Z) (rows : list A) : list A :=
  if (limit <? 0)%Z then rows else take (Z.to_nat limit) rows.

(** *** What a row is read back as *)

(** [a || b]. *)
Definition js_or (a b : value) : value := if js_truthy a then a else b.

(** [s.padStart(targetLength, c)] for a filler of one character. *)
Definition padStart (targetLength : nat) (c : ascii) (s : string) : string :=
  string_of_list_ascii (replicate (targetLength - String.length s) c) +:+ s.

(** The "M:SS" string of a duration.  [Math.floor(x / y)] is the floor of
    the quotient and [%] takes the sign of the dividend; [toString] of an
    integer is its decimal numeral.  The double arithmetic of the source is
    exact below 2^52 milliseconds. *)
Definition durationStr (duration_ms : Z) : string :=
  let minutes := (duration_ms / 60000)%Z in
  let seconds := (Z.rem duration_ms 60000 / 1000)%Z in
  pretty minutes +:+ ":" +:+ padStart 2 "0" (pretty seconds).

Record UsageOut := mkUsageOut {
  o_type : string;
  o_timestamp : Z;
  o_question : option string;
  o_answer : option string;
  o_items : option (list value)
}.

(** The object the read methods return for a meeting.  [l_isProcessed] is
    the key [isProcessed], which only [getUnprocessedMeetings] sets. *)
Record Loaded := mkLoaded {
  l_id : string;
  l_title : string;
  l_date : string;
  l_duration : string;
  l_summary : value;
  l_detailedSummary : value;
  l_calendarEventId : option string;
  l_source : option string;
  l_isProcessed : option bool;
  l_transcript : list Segment;
  l_usage : list UsageOut
}.

(** [summaryData.legacySummary || ''] and [summaryData.detailedSummary] of
    [JSON.parse(row.summary_json || '{}')]; [None] when [JSON.parse] throws
    or [summaryData] is [null]. *)
Definition summary_fields (row : MeetingRow) : option (value * value) :=
  summaryData ← parse_or_empty (summary_json row);
  legacy ← prop "legacySummary" summaryData;
  detailed ← prop "detailedSummary" summaryData;
  Some (js_or legacy (VStr ""), detailed).

(** The callback of [rows.map] in the two list queries. *)
Definition list_view (isProcessed : option bool) (r : string * MeetingRow) : option Loaded :=
  fields ← summary_fields r.2;
  Some {| l_id := r.1;
          l_title := title r.2;
          l_date := created_at r.2;
          l_duration := durationStr (duration_ms r.2);
          l_summary := fields.1;
          l_detailedSummary := fields.2;
          l_calendarEventId := calendar_event_id r.2;
          l_source := source r.2;
          l_isProcessed := isProcessed;
          l_transcript := [];
          l_usage := [] |}.

(** [items] of a usage row: the parsed [metadata_json] when it is an
    array; a cell that is empty, or that [JSON.parse] rejects, gives
    none. *)
Definition items_of (cell : option Text) : option (list value) :=
  match cell with
  | Some (JsonText (VArr l)) => Some l
  | _ => None
  end.

Definition segment_view (row : TranscriptRow) : Segment :=
  {| speaker := t_speaker row; text := t_content row; timestamp := t_timestamp_ms row |}.

Definition usage_view (row : InteractionRow) : UsageOut :=
  {| o_type := i_type row;
     o_timestamp := i_timestamp row;
     o_question := user_query row;
     o_answer := ai_response row;
     o_items := items_of (metadata_json row) |}.

Definition throw {A} : M A := fun e => (e, Throw).

(** What a method that catches nothing hands to its caller. *)
Definition returned {A} (m : M A) (db : Tables) : result A := snd (m (mkExec db 0)).

Section Faults.
Variable fault : nat -> bool.
Variable E : Engine.

(** [stmt.get(...)] and [stmt.all(...)]: the rows, the store as it is. *)
Definition query {A} (rows : Tables -> A) : M A :=
  run_stmt fault (fun t => Some (rows t, t)).

Definition of_option {A} (o : option A) : M A :=
  match o with
  | Some a => ret a
  | None => throw
  end.

(** *** The read methods *)

Definition getRecentMeetings (limit : option Z) (db : Tables) : result (list Loaded) :=
  returned
    (rows <- query (fun t =>
       limit_rows (default 50%Z limit)
         (order_by E _ created_desc (map_to_list (meetings t)))) ;;
     of_option (mapM (list_view None) rows)) db.

Definition getMeetingDetails (id : string) (db : Tables) : result (option Loaded) :=
  returned
    (meetingRow <- query (fun t => meetings t !! id) ;;
     match meetingRow with
     | None => ret None
     | Some row =>
         transcriptRows <- query (fun t =>
           order_by E _ transcript_asc
             (filter (fun r => t_meeting_id r = id) (transcripts t))) ;;
         usageRows <- query (fun t =>
           order_by E _ interaction_asc
             (filter (fun r => i_meeting_id r = id) (ai_interactions t))) ;;
         fields <- of_option (summary_fields row) ;;
         ret (Some {| l_id := id;
                      l_title := title row;
                      l_date := created_at row;
                      l_duration := durationStr (duration_ms row);
                      l_summary := fields.1;
                      l_detailedSummary := fields.2;
                      l_calendarEventId := calendar_event_id row;
                      l_source := source row;
                      l_isProcessed := None;
                      l_transcript := segment_view <$> transcriptRows;
                      l_usage := usage_view <$> usageRows |})
     end) db.

Definition getUnprocessedMeetings (db : Tables) : result (list Loaded) :=
  returned
    (rows <- query (fun t =>
       order_by E _ created_desc
         (filter (fun r => is_processed r.2 = 0%Z) (map_to_list (meetings t)))) ;;
     of_option (mapM (list_view (Some false)) rows)) db.

(** *** The demo meeting *)

Definition demoId : string := "demo-meeting-002".

Definition dquote : string := String "034" "".

(** [today] is [today.toISOString()] of today at 9:30. *)
Definition demoMeeting (today : string) : Meeting :=
  {| id := demoId;
     m_title := "Natively Demo with CEO Evin";
     date := today;
     duration := "4:48";
     summary := "Discussion about Natively product features and roadmap.";
     detailedSummary := Some (
       <["actionItems" := strings [
           "Review the " +:+ dquote +:+ "Telugu sara" +:+ dquote +:+ " phrase clarification";
           "Confirm if " +:+ dquote +:+ "Maria" +:+ dquote +:+ " refers to a team member or persona";
           "Schedule follow-up demo for next Tuesday" ]]>
       (<["keyPoints" := strings [
           "CEO emphasized the importance of real-time latency";
           "Discussed the new " +:+ dquote +:+ "Ghost Mode" +:+ dquote +:+ " privacy feature";
           "Clarified the pricing model for enterprise tier" ]]> ∅));
     transcript := Some [
       mkSegment "user" "So, can you tell me more about the latency?" 0;
       mkSegment "interviewer" "Absolutely. We've optimized the pipeline to be under 200ms." 5000;
       mkSegment "user" "That is impressive. What about 'Telugu sara'?" 12000;
       mkSegment "interviewer"
         "Could you clarify that phrase? I assume it's a specific test case." 15000;
       mkSegment "user" "Yes, exactly." 20000 ];
     usage := Some [
       mkUsage "assist" 1000 (Some "What should I ask about latency?")
         (Some (AnswerText "Ask about specific ms targets.")) None ];
     calendarEventId := None;
     m_source := None;
     isProcessed := None |}.

(** [seedDemoMeeting]; [todayMs] is [today.getTime()].  The statements of
    the [saveMeeting] it calls come after its own SELECT. *)
Definition seedDemoMeeting (today : string) (todayMs : Z) (db : Tables)
    : Tables * result unit :=
  match query (fun t => meetings t !! demoId) (mkExec db 0) with
  | (_, Throw) => (db, Throw)
  | (_, Ok (Some _)) => (db, Ok tt)
  | (_, Ok None) =>
      saveMeeting (fun k => fault (S k)) (demoMeeting today) todayMs 288000 db
  end.

End Faults.

(** *** Stores that the public API builds *)

Inductive Call :=
| DoSave (meeting : Meeting) (startTimeMs durationMs : Z)
| DoTitle (id title : string)
| DoSummary (id : string) (updates : gmap string value)
| DoDelete (id : string)
| DoSeed (today : string) (todayMs : Z).

(** The store after a call, whether it returned or threw. *)
Definition after (fault : nat -> bool) (c : Call) (db : Tables) : Tables :=
  match c with
  | DoSave meeting s d => fst (saveMeeting fault meeting s d db)
  | DoTitle id t => fst (updateMeetingTitle fault id t db)
  | DoSummary id updates => fst (updateMeetingSummary fault id updates db)
  | DoDelete id => fst (deleteMeeting fault id db)
  | DoSeed today todayMs => fst (seedDemoMeeting fault today todayMs db)
  end.

(** The stores that calls of the API reach from the tables that
    [runMigrations] creates. *)
Inductive built : Tables -> Prop :=
| built_empty : built empty
| built_call fault c db : built db -> built (after fault c db).

End Queries.

(** * Properties *)

(** ** Strings *)
Module JSFacts.
Import JS.

Lemma startsWith_spec q s :
  startsWith q s = true ↔ ∃ post, s = q +:+ post.
Proof.
  revert s. induction q as [|a q IH]; intros s; simpl.
  - split; [intros _; by exists s | done].
  - destruct s as [|b s].
    + split; [done | intros [post H]; discriminate].
    + destruct (Ascii.eqb_spec a b) as [->|Hne].
      * rewrite IH. split; intros [post H]; exists post.
        -- by rewrite H.
        -- by injection H.
      * split; [done | intros [post H]; injection H; congruence].
Qed.

(** [includes] is the substring test. *)
Lemma includes_spec s q :
  includes s q = true ↔ ∃ pre post, s = pre +:+ q +:+ post.
Proof.
  induction s as [|c s IH]; simpl.
  - rewrite orb_false_r, startsWith_spec. split.
    + intros [post H]. by exists "", post.
    + intros [pre [post H]]. destruct pre; [by exists post | discriminate].
  - rewrite orb_true_iff, startsWith_spec, IH. split.
    + intros [[post H] | [pre [post H]]].
      * by exists "", post.
      * exists (String c pre), post. simpl. by rewrite H.
    + intros [pre [post H]]. destruct pre as [|d pre]; simpl in H.
      * left. by exists post.
      * right. injection H as _ H. by exists pre, post.
Qed.

Lemma includes_empty_text q : q ≠ "" → includes "" q = false.
Proof. destruct q; [done | reflexivity]. Qed.

Lemma trimStart_all_space s :
  trimStart s = "" ↔ all_space s.
Proof.
  unfold all_space. induction s as [|c s IH]; simpl.
  - split; [constructor | done].
  - destruct (is_space c) eqn:Hc.
    + rewrite IH. split; [by constructor | by inversion 1].
    + split; [done | inversion 1; congruence].
Qed.

Lemma trimEnd_empty s : trimEnd s = "" ↔ all_space s.
Proof.
  unfold all_space. induction s as [|c s IH]; simpl.
  - split; [constructor | done].
  - destruct (trimEnd s) eqn:Ht.
    + destruct (is_space c) eqn:Hc.
      * split; [intros _; constructor; [done | by apply IH] | done].
      * split; [done | inversion 1; congruence].
    + split; [done |]. inversion 1; subst.
      assert (String a s0 = "") by by apply IH. done.
Qed.

Lemma trimStart_keeps_space s :
  all_space (trimStart s) → all_space s.
Proof.
  unfold all_space. induction s as [|c s IH]; simpl; [done |].
  destruct (is_space c) eqn:Hc; [| done].
  intros H. constructor; auto.
Qed.

Lemma trimStart_space s : all_space s → all_space (trimStart s).
Proof. intros H. apply trimStart_all_space in H. rewrite H. constructor. Qed.

(** [!query.trim()] holds exactly for the empty and the whitespace-only
    strings. *)
Lemma trim_blank s : truthy (trim s) = false ↔ all_space s.
Proof.
  unfold trim. transitivity (trimEnd (trimStart s) = "").
  - destruct (trimEnd (trimStart s)); simpl; split; done.
  - rewrite trimEnd_empty. split; [apply trimStart_keeps_space | apply trimStart_space].
Qed.

Lemma all_space_empty : all_space "".
Proof. constructor. Qed.

End JSFacts.

(** ** The search pill *)
Module SearchPillFacts.
Import JS JSFacts SearchPill.

(** The text contains the query, letter case aside. *)
Definition contains_ci (text query : string) : Prop :=
  ∃ pre post, toLowerCase text = pre +:+ toLowerCase query +:+ post.

Lemma fuzzyMatch_spec text query :
  fuzzyMatch text query = true ↔ contains_ci text query.
Proof.
  unfold fuzzyMatch, contains_ci. rewrite <- includes_spec.
  destruct (includes _ _); split; done.
Qed.

Definition title_or_summary_contains (query : string) (m : Meeting) : Prop :=
  contains_ci (title m) query ∨ ∃ s, summary m = Some s ∧ contains_ci s query.

Lemma toLowerCase_empty s : toLowerCase s = "" → s = "".
Proof. destruct s; [done | discriminate]. Qed.

Lemma matches_spec query m :
  query ≠ "" →
  matches query m = true ↔ title_or_summary_contains query m.
Proof.
  intros Hq. unfold matches, summaryMatch, title_or_summary_contains.
  rewrite orb_true_iff, fuzzyMatch_spec. apply or_iff_compat_l.
  destruct (summary m) as [s|]; split.
  - rewrite andb_true_iff, fuzzyMatch_spec. intros [_ H]. by exists s.
  - intros [s' [[= <-] H]]. rewrite andb_true_iff, fuzzyMatch_spec. split; [| done].
    destruct s; [| done]. exfalso.
    apply fuzzyMatch_spec in H. unfold fuzzyMatch in H. cbn [toLowerCase] in H.
    rewrite includes_empty_text in H; [done |].
    intros E. by apply toLowerCase_empty in E.
  - done.
  - intros [s [? _]]. done.
Qed.

Lemma first_by_id_sublist ms seen : first_by_id ms seen `sublist_of` ms.
Proof.
  revert seen. induction ms as [|m ms IH]; intros seen; simpl; [done |].
  destruct (decide (id m ∈ seen)).
  - by apply sublist_cons.
  - by apply sublist_skip.
Qed.

Lemma first_by_id_fresh ms seen m :
  m ∈ first_by_id ms seen → id m ∉ seen.
Proof.
  revert seen. induction ms as [|x ms IH]; intros seen; simpl; [by inversion 1 |].
  destruct (decide (id x ∈ seen)); [by apply IH |].
  intros [-> | H]%elem_of_cons; [done |].
  apply IH in H. set_solver.
Qed.

Lemma first_by_id_NoDup ms seen : NoDup (id <$> first_by_id ms seen).
Proof.
  revert seen. induction ms as [|x ms IH]; intros seen; simpl; [constructor |].
  destruct (decide (id x ∈ seen)); [by apply IH |].
  rewrite fmap_cons. constructor; [| by apply IH].
  intros [y [Hy Hin]]%list_elem_of_fmap.
  apply first_by_id_fresh in Hin. rewrite <- Hy in Hin. set_solver.
Qed.

(** Every id of the list is kept once, unless it was seen before. *)
Lemma first_by_id_complete ms seen m :
  m ∈ ms → id m ∉ seen → id m ∈ id <$> first_by_id ms seen.
Proof.
  revert seen. induction ms as [|x ms IH]; intros seen; [by inversion 1 |].
  simpl. intros Hin Hfresh. apply elem_of_cons in Hin as [-> | Hin].
  - rewrite decide_False by done. rewrite fmap_cons. by left.
  - destruct (decide (id x ∈ seen)); [by apply IH |].
    rewrite fmap_cons. destruct (decide (id m = id x)) as [->|Hne]; [by left |].
    right. apply IH; [done | set_solver].
Qed.

Section Loop.
Variable toLocaleDateString : string -> string.
Variable query : string.

Local Abbreviation result_of := (result_of toLocaleDateString).
Local Abbreviation hit := (fun m => matches query m = true).

Lemma search_loop_spec meetings results seen :
  length results < 5 →
  search_loop toLocaleDateString meetings query results seen
  = take 5 (results ++ (result_of <$> first_by_id (filter hit meetings) seen)).
Proof.
  revert results seen.
  induction meetings as [|m rest IH]; intros results seen Hlen.
  - cbn. rewrite app_nil_r, take_ge; [done | lia].
  - cbn [search_loop]. cbv zeta. rewrite filter_cons.
    destruct (decide (id m ∈ seen)) as [Hin|Hnot].
    + rewrite IH by done.
      destruct (decide (matches query m = true)); [| done].
      cbn [first_by_id]. by rewrite decide_True.
    + destruct (matches query m) eqn:Hm.
      * rewrite decide_True by done. cbn [first_by_id].
        rewrite decide_False by done. rewrite fmap_cons.
        destruct (5 <=? length (results ++ [result_of m])) eqn:Hfull.
        -- apply Nat.leb_le in Hfull. rewrite length_app in Hfull; simpl in Hfull.
           match goal with
           | |- _ = take 5 (_ ++ ?r :: ?tl) => change (r :: tl) with ([r] ++ tl)
           end.
           rewrite app_assoc.
           rewrite take_app_le by (rewrite length_app; simpl; lia).
           rewrite take_ge; [done | rewrite length_app; simpl; lia].
        -- apply Nat.leb_gt in Hfull. rewrite IH by done.
           by rewrite <- app_assoc.
      * rewrite decide_False by done.
        replace (5 <=? length results) with false
          by (symmetry; apply Nat.leb_gt; lia).
        by apply IH.
Qed.

(** [searchMeetings] is the first five of the matching meetings, one per id. *)
Lemma searchMeetings_spec meetings :
  truthy (trim query) = true →
  searchMeetings toLocaleDateString meetings query
  = search_spec toLocaleDateString meetings query.
Proof.
  intros Hq. unfold searchMeetings, search_spec. rewrite Hq. simpl.
  rewrite search_loop_spec by (simpl; lia). simpl. by rewrite fmap_take.
Qed.

End Loop.

(** C10, as amended.  [searchMeetings] returns the empty list for an empty
    or whitespace-only query.  Otherwise its results are built, in input
    order, from the first five of the matching meetings after a later
    meeting that repeats the id of a matching one is left out: there are at
    most 5 results, their meeting ids are distinct, every included meeting
    has the query in its title or in its summary (letter case aside), and
    when fewer than 5 results are returned every meeting with the query in
    its title or summary has its id among them. *)
Theorem searchMeetings_first_five_matches
    (fmt : string -> string) (meetings : list Meeting) (query : string) :
  (all_space query → searchMeetings fmt meetings query = [])
  ∧ (¬ all_space query →
     ∃ picked : list Meeting,
       picked = take 5 (first_by_id (filter (fun m => matches query m = true) meetings) ∅)
       ∧ searchMeetings fmt meetings query = result_of fmt <$> picked
       ∧ picked `sublist_of` meetings
       ∧ length (searchMeetings fmt meetings query) ≤ 5
       ∧ NoDup (meetingId <$> searchMeetings fmt meetings query)
       ∧ (∀ m, m ∈ picked → title_or_summary_contains query m)
       ∧ (length (searchMeetings fmt meetings query) < 5 →
          ∀ m, m ∈ meetings → title_or_summary_contains query m →
               id m ∈ meetingId <$> searchMeetings fmt meetings query)).
Proof.
  split.
  - intros Hq%trim_blank. unfold searchMeetings. by rewrite Hq.
  - intros Hq.
    assert (Ht : truthy (trim query) = true).
    { destruct (truthy (trim query)) eqn:E; [done |]. by apply trim_blank in E. }
    assert (Hne : query ≠ "") by (intros ->; apply Hq, all_space_empty).
    set (hits := filter (fun m => matches query m = true) meetings).
    exists (take 5 (first_by_id hits ∅)).
    rewrite (searchMeetings_spec fmt query meetings Ht). unfold search_spec. fold hits.
    assert (Hids : meetingId <$> (result_of fmt <$> take 5 (first_by_id hits ∅))
                   = id <$> take 5 (first_by_id hits ∅)).
    { rewrite <- list_fmap_compose. done. }
    rewrite Hids, length_fmap.
    split_and!; try done.
    + etrans; [apply sublist_take |]. etrans; [apply first_by_id_sublist |].
      apply sublist_filter.
    + rewrite length_take. lia.
    + rewrite fmap_take.
      apply (sublist_NoDup (take 5 (id <$> first_by_id hits ∅)) (id <$> first_by_id hits ∅));
        [apply first_by_id_NoDup | apply sublist_take].
    + intros m Hm. apply matches_spec; [done |].
      assert (Hin : m ∈ hits).
      { eapply elem_of_sublist; [done |].
        etrans; [apply sublist_take | apply first_by_id_sublist]. }
      by apply list_elem_of_filter in Hin as [? _].
    + intros Hlt m Hin Hm. rewrite take_ge.
      * apply first_by_id_complete; [| set_solver].
        apply list_elem_of_filter. split; [| done]. by apply matches_spec.
      * rewrite length_take in Hlt. lia.
Qed.

(** A match in the summary counts, a repeated id does not. *)
Example search_by_summary :
  meetingId <$> searchMeetings (fun d => d)
    [mkMeeting "a" "Planning" "2024-01-01" (Some "Budget for Q3");
     mkMeeting "b" "Retro" "2024-01-02" None;
     mkMeeting "a" "Planning (copy)" "2024-01-03" (Some "budget again");
     mkMeeting "c" "BUDGET review" "2024-01-04" (Some "")]
    "budget"
  = ["a"; "c"].
Proof. vm_compute. reflexivity. Qed.

Example search_blank :
  searchMeetings (fun d => d) [mkMeeting "a" "Planning" "2024-01-01" None] "   " = [].
Proof. reflexivity. Qed.

Definition six_standups : list Meeting :=
  (fun n => mkMeeting n "Standup" "2024-01-01" None) <$> ["m1"; "m2"; "m3"; "m4"; "m5"; "m6"].

(** C10, as stated, fails: the sixth of six meetings titled "Standup" has
    the query in its title and is not among the results. *)
Lemma searchMeetings_sixth_match_left_out :
  ¬ all_space "stand"
  ∧ mkMeeting "m6" "Standup" "2024-01-01" None ∈ six_standups
  ∧ title_or_summary_contains "stand" (mkMeeting "m6" "Standup" "2024-01-01" None)
  ∧ meetingId <$> searchMeetings (fun d => d) six_standups "stand"
    = ["m1"; "m2"; "m3"; "m4"; "m5"]
  ∧ ¬ (∀ m, m ∈ six_standups →
         (id m ∈ meetingId <$> searchMeetings (fun d => d) six_standups "stand"
          ↔ title_or_summary_contains "stand" m)).
Proof.
  assert (Hns : ¬ all_space "stand").
  { intros H. apply trim_blank in H. vm_compute in H. discriminate. }
  assert (Hin : mkMeeting "m6" "Standup" "2024-01-01" None ∈ six_standups).
  { unfold six_standups. cbn. repeat (first [by left | right]). }
  assert (Hm : title_or_summary_contains "stand" (mkMeeting "m6" "Standup" "2024-01-01" None)).
  { left. exists "", "up". reflexivity. }
  assert (Hr : meetingId <$> searchMeetings (fun d => d) six_standups "stand"
               = ["m1"; "m2"; "m3"; "m4"; "m5"]) by (vm_compute; reflexivity).
  split_and!; try done.
  intros H. apply H in Hin. apply Hin in Hm. rewrite Hr in Hm. cbn in Hm.
  set_solver.
Qed.

End SearchPillFacts.

(** ** The context string of the meeting chat *)
Module ContextFacts.
Import JS JSFacts MeetingChat.

Lemma append_cons (x : ascii) (a b : string) :
  String x a +:+ b = String x (a +:+ b).
Proof. reflexivity. Qed.

Lemma append_assoc (a b c : string) : (a +:+ b) +:+ c = a +:+ b +:+ c.
Proof.
  induction a as [|x a IH]; [done |].
  rewrite !append_cons. by f_equal.
Qed.

Lemma append_empty_r (a : string) : a +:+ "" = a.
Proof.
  induction a as [|x a IH]; [done |].
  rewrite append_cons. by f_equal.
Qed.

Lemma slice_last_length {A} k (l : list A) :
  length (slice_last k l) = min k (length l).
Proof. unfold slice_last. rewrite length_drop. lia. Qed.

Lemma slice_last_suffix {A} k (l : list A) : slice_last k l `suffix_of` l.
Proof. unfold slice_last. apply suffix_drop. Qed.
(** *** The context string, block by block *)

(** [join] of a list that has a head: the head, then every other element
    after a separator. *)
Fixpoint separated (sep : string) (l : list string) : string :=
  match l with
  | [] => ""
  | x :: r => sep +:+ x +:+ separated sep r
  end.

Lemma join_separated sep x (l : list string) :
  join sep (x :: l) = x +:+ separated sep l.
Proof.
  revert x. induction l as [|y l IH]; intros x.
  - cbn. by rewrite append_empty_r.
  - change (join sep (x :: y :: l)) with (x +:+ sep +:+ join sep (y :: l)).
    by rewrite IH.
Qed.

Lemma separated_app sep (l k : list string) :
  separated sep (l ++ k) = separated sep l +:+ separated sep k.
Proof.
  induction l as [|x l IH]; [done |].
  cbn [app separated]. by rewrite IH, !append_assoc.
Qed.

(** Whether [if (meetingContext.summary)] and [if (xs?.length)] hold. *)
Definition given (s : option string) : bool :=
  match s with
  | Some (String _ _) => true
  | _ => false
  end.

Definition filled {A} (xs : option (list A)) : bool :=
  match xs with
  | Some (_ :: _) => true
  | _ => false
  end.

(** A block of the context string: an empty line, the header line and the
    body; nothing when the field is not there. *)
Definition block (present : bool) (header body : string) : string :=
  if present then nl +:+ nl +:+ header +:+ nl +:+ body else "".

Lemma buildContextString_blocks ctx :
  buildContextString ctx
  = "MEETING: " +:+ title ctx
    +:+ block (given (summary ctx)) "SUMMARY:" (default "" (summary ctx))
    +:+ block (filled (keyPoints ctx)) "KEY POINTS:"
          (join nl ((fun p => "- " +:+ p) <$> default [] (keyPoints ctx)))
    +:+ block (filled (actionItems ctx)) "ACTION ITEMS:"
          (join nl ((fun a => "- " +:+ a) <$> default [] (actionItems ctx)))
    +:+ block (filled (transcript ctx)) "RECENT TRANSCRIPT:"
          (join nl ((fun t => "[" +:+ (if decide (speaker t = "user") then "Me" else "Them")
                                +:+ "]: " +:+ text t)
                      <$> slice_last 20 (default [] (transcript ctx)))).
Proof.
  unfold buildContextString, context_parts. cbn [app].
  rewrite join_separated, !separated_app. unfold title_part.
  rewrite !append_assoc. f_equal. f_equal.
  assert (Hone : ∀ p, separated nl [p] = nl +:+ p).
  { intros p. cbn. by rewrite append_empty_r. }
  assert (H1 : separated nl (summary_part ctx)
               = block (given (summary ctx)) "SUMMARY:" (default "" (summary ctx))).
  { unfold summary_part, block, given. destruct (summary ctx) as [[|c s]|]; try done.
    cbn [truthy default]. rewrite Hone. unfold summary_header.
    by rewrite !append_assoc. }
  assert (Hlist : ∀ header name xs,
            header = nl +:+ name +:+ nl →
            separated nl (list_section header xs)
            = block (filled xs) name (join nl ((fun p => "- " +:+ p) <$> default [] xs))).
  { intros header name xs ->. unfold list_section, block, filled.
    destruct xs as [[|p ps]|]; try done.
    rewrite Hone. cbn [default]. by rewrite !append_assoc. }
  rewrite H1, (Hlist _ "KEY POINTS:"), (Hlist _ "ACTION ITEMS:") by done.
  do 3 f_equal.
  unfold transcript_part, block, filled. destruct (transcript ctx) as [[|u us]|]; try done.
  rewrite Hone. unfold transcript_header, recentTranscript. cbn [default].
  rewrite !append_assoc. do 4 f_equal. apply (f_equal (join nl)).
  apply list_fmap_ext. intros i t _.
  unfold transcript_line, speaker_label. do 2 f_equal.
  destruct (String.eqb_spec (speaker t) "user"); by case_decide.
Qed.

(** *** Where a header can occur in the context string *)

Fixpoint has_char (c : ascii) (s : string) : bool :=
  match s with
  | "" => false
  | String x r => Ascii.eqb c x || has_char c r
  end.

Definition newline : ascii := "010".

(** A string without a newline starts a text with a line break in it
    exactly when it starts the part before the break. *)
Lemma startsWith_before_break (m a c : string) :
  has_char newline m = false →
  startsWith m (a +:+ nl +:+ c) = startsWith m a.
Proof.
  revert a. induction m as [|x m IH]; intros a Hm; [by destruct a |].
  cbn [has_char] in Hm. apply orb_false_iff in Hm as [Hx Hm].
  destruct a as [|y a].
  - change ("" +:+ nl +:+ c) with (String "010" c). cbn [startsWith].
    rewrite Ascii.eqb_sym in Hx. unfold newline in Hx. by rewrite Hx.
  - rewrite append_cons. cbn [startsWith]. destruct (Ascii.eqb x y); [by apply IH | done].
Qed.

(** It occurs in such a text exactly when it occurs before or after the
    break. *)
Lemma includes_line_break (m a c : string) :
  m ≠ "" → has_char newline m = false →
  includes (a +:+ nl +:+ c) m = includes a m || includes c m.
Proof.
  intros Hne Hm. induction a as [|y a IH].
  - destruct m as [|x m]; [done |].
    cbn [has_char] in Hm. apply orb_false_iff in Hm as [Hx _].
    rewrite Ascii.eqb_sym in Hx. unfold newline in Hx.
    change ("" +:+ nl +:+ c) with (String "010" c). cbn [includes startsWith].
    by rewrite Hx.
  - rewrite append_cons. cbn [includes]. rewrite IH.
    rewrite <- append_cons, (startsWith_before_break m (String y a) c Hm).
    by rewrite orb_assoc.
Qed.

Lemma includes_separated (m x : string) (l : list string) :
  m ≠ "" → has_char newline m = false →
  includes (x +:+ separated nl l) m = includes x m || existsb (fun y => includes y m) l.
Proof.
  intros Hne Hm. revert x. induction l as [|y l IH]; intros x.
  - cbn. by rewrite append_empty_r, orb_false_r.
  - cbn [separated existsb]. rewrite includes_line_break by done. by rewrite IH.
Qed.

(** It does not occur across the end of a prefix that does not have its
    first character. *)
Lemma includes_after_prefix (p t : string) x m :
  has_char x p = false →
  includes (p +:+ t) (String x m) = includes t (String x m).
Proof.
  induction p as [|y p IH]; intros Hp; [done |].
  cbn [has_char] in Hp. apply orb_false_iff in Hp as [Hy Hp].
  rewrite append_cons. cbn [includes startsWith]. rewrite Hy. by apply IH.
Qed.

(** The texts that [buildContextString] copies. *)
Definition texts (ctx : MeetingContext) : list string :=
  title ctx :: option_list (summary ctx)
    ++ default [] (keyPoints ctx) ++ default [] (actionItems ctx)
    ++ (text <$> default [] (transcript ctx)).

(** Some text of the context has [m] in it. *)
Definition quotes (ctx : MeetingContext) (m : string) : bool :=
  existsb (fun t => includes t m) (texts ctx).

Lemma existsb_false {A} (f : A -> bool) (l : list A) :
  existsb f l = false ↔ Forall (fun x => f x = false) l.
Proof.
  induction l as [|x l IH]; cbn; [split; [constructor | done] |].
  rewrite orb_false_iff, IH. split; [intros [? ?]; by constructor | by inversion 1].
Qed.

Lemma existsb_fmap {A B} (f : B -> bool) (g : A -> B) (l : list A) :
  existsb f (g <$> l) = existsb (fun x => f (g x)) l.
Proof. induction l as [|x l IH]; [done |]. cbn. by rewrite IH. Qed.

Lemma block_pieces (present : bool) (header : string) (lines : list string) :
  lines ≠ [] →
  block present header (join nl lines)
  = separated nl (if present then "" :: header :: lines else []).
Proof.
  intros Hne. destruct present; [| done]. destruct lines as [|x l]; [done |].
  unfold block. cbn [separated]. by rewrite join_separated.
Qed.

(** Where a header [m] can be found in the context string: in a text that
    has it, or in the header line of a block that is there.  [m] has no
    newline, and its first character is in none of the prefixes that the
    function writes. *)
Lemma includes_context ctx x m :
  has_char newline (String x m) = false →
  has_char x "MEETING: " = false → has_char x "- " = false →
  has_char x "[Me]: " = false → has_char x "[Them]: " = false →
  quotes ctx (String x m) = false →
  includes (buildContextString ctx) (String x m)
  = given (summary ctx) && includes "SUMMARY:" (String x m)
    || filled (keyPoints ctx) && includes "KEY POINTS:" (String x m)
    || filled (actionItems ctx) && includes "ACTION ITEMS:" (String x m)
    || filled (transcript ctx) && includes "RECENT TRANSCRIPT:" (String x m).
Proof.
  intros Hm Ht Hb Hme Hthem Hq.
  unfold quotes, texts in Hq. cbn [existsb] in Hq.
  apply orb_false_iff in Hq as [Htitle Hq].
  rewrite !existsb_app in Hq.
  apply orb_false_iff in Hq as [Hsum Hq]. apply orb_false_iff in Hq as [Hkp Hq].
  apply orb_false_iff in Hq as [Hai Htr].
  rewrite buildContextString_blocks.
  set (q := String x m) in *.
  assert (Hbullets : ∀ ps, existsb (fun t => includes t q) ps = false →
            existsb (fun y => includes y q) ((fun p => "- " +:+ p) <$> ps) = false).
  { intros ps H. rewrite existsb_fmap. rewrite existsb_false in *.
    eapply Forall_impl; [exact H |]. intros p Hp. cbn beta.
    unfold q. by rewrite includes_after_prefix. }
  assert (Hlines : ∀ us, existsb (fun t => includes t q) (text <$> us) = false →
            existsb (fun y => includes y q)
              ((fun t => "[" +:+ (if decide (speaker t = "user") then "Me" else "Them")
                           +:+ "]: " +:+ text t) <$> slice_last 20 us) = false).
  { intros us H. rewrite existsb_fmap in *. rewrite existsb_false in *.
    rewrite Forall_forall in *. intros t Hin. cbn beta.
    assert (Hin' : t ∈ us).
    { destruct (slice_last_suffix 20 us) as [k ->]. apply elem_of_app. by right. }
    specialize (H t Hin'). cbn beta in H. unfold q.
    case_decide.
    - by rewrite (includes_after_prefix "[Me]: " (text t)).
    - by rewrite (includes_after_prefix "[Them]: " (text t)). }
  assert (Hblock : ∀ (present : bool) (header : string) (lines rest : list string),
            existsb (fun y => includes y q) lines = false →
            existsb (fun y => includes y q)
              ((if present then "" :: header :: lines else []) ++ rest)
            = present && includes header q || existsb (fun y => includes y q) rest).
  { intros present header lines rest Hl. rewrite existsb_app.
    destruct present; [| done]. cbn [existsb]. rewrite Hl.
    unfold q at 1. cbn [includes startsWith]. by rewrite !orb_false_r. }
  assert (Hsummary : block (given (summary ctx)) "SUMMARY:" (default "" (summary ctx))
                     = separated nl (if given (summary ctx)
                                     then ["" ; "SUMMARY:"; default "" (summary ctx)]
                                     else [])).
  { destruct (given (summary ctx)); [| done]. unfold block. cbn [separated].
    by rewrite append_empty_r. }
  assert (Hlist : ∀ name xs,
            block (filled xs) name (join nl ((fun p => "- " +:+ p) <$> default [] xs))
            = separated nl (if filled xs
                            then "" :: name :: ((fun p => "- " +:+ p) <$> default [] xs)
                            else [])).
  { intros name xs. destruct xs as [[|p ps]|]; try done. by apply block_pieces. }
  assert (Htrans :
    block (filled (transcript ctx)) "RECENT TRANSCRIPT:"
      (join nl ((fun t => "[" +:+ (if decide (speaker t = "user") then "Me" else "Them")
                            +:+ "]: " +:+ text t)
                  <$> slice_last 20 (default [] (transcript ctx))))
    = separated nl
        (if filled (transcript ctx)
         then "" :: "RECENT TRANSCRIPT:"
                :: ((fun t => "[" +:+ (if decide (speaker t = "user") then "Me" else "Them")
                                +:+ "]: " +:+ text t)
                      <$> slice_last 20 (default [] (transcript ctx)))
         else [])).
  { destruct (transcript ctx) as [[|u us]|] eqn:Hu; try done. apply block_pieces.
    cbn [default]. intros Hnil. apply (f_equal length) in Hnil.
    rewrite length_fmap, slice_last_length in Hnil. cbn in Hnil. lia. }
  rewrite Hsummary, !Hlist, Htrans, <- !separated_app, <- append_assoc.
  rewrite includes_separated by done.
  unfold q at 1. rewrite (includes_after_prefix "MEETING: " (title ctx)) by done.
  fold q. rewrite Htitle. cbn [orb].
  assert (Hs : existsb (fun y => includes y q) [default "" (summary ctx)] = false).
  { cbn [existsb]. rewrite orb_false_r. destruct (summary ctx) as [s|]; cbn [default].
    - change (includes s q || false = false) in Hsum. by rewrite orb_false_r in Hsum.
    - reflexivity. }
  match goal with
  | |- context [existsb _ (_ ++ _ ++ _ ++ ?d)] => rewrite <- (app_nil_r d)
  end.
  rewrite (Hblock _ _ _ _ Hs).
  rewrite (Hblock _ _ _ _ (Hbullets _ Hkp)), (Hblock _ _ _ _ (Hbullets _ Hai)).
  rewrite (Hblock _ _ _ [] (Hlines _ Htr)). cbn [existsb].
  by rewrite orb_false_r, !orb_assoc.
Qed.

Lemma includes_middle (a b c : string) : includes (a +:+ b +:+ c) b = true.
Proof. apply includes_spec. by exists a, c. Qed.

Lemma given_spec (s : option string) : given s = true ↔ ∃ t, s = Some t ∧ t ≠ "".
Proof.
  destruct s as [[|c t]|]; cbn; split; try done.
  - by intros (t & [= <-] & H).
  - intros _. by eexists.
  - by intros (t & ? & _).
Qed.

Lemma filled_spec {A} (xs : option (list A)) : filled xs = true ↔ ∃ l, xs = Some l ∧ l ≠ [].
Proof.
  destruct xs as [[|x l]|]; cbn; split; try done.
  - by intros (l & [= <-] & H).
  - intros _. by eexists.
  - by intros (l & ? & _).
Qed.

(** C3, as amended.  [buildContextString] returns a non-empty string that
    starts with "MEETING: " and the title.  After the title come, in this
    order, the blocks of the fields that are there, each an empty line, a
    header line and a body: "SUMMARY:" with the summary when the summary is
    present and not empty; "KEY POINTS:" and "ACTION ITEMS:" with one
    "- " line per item when the list is present and not empty; and
    "RECENT TRANSCRIPT:" with the last [min 20 n] of the [n] utterances,
    one line each, "[Me]: " and the text when the speaker is 'user' and
    "[Them]: " and the text otherwise, when the transcript is present and
    not empty.  A block that is there occurs in the string.  The texts are
    copied as they are: when no title, summary, key point, action item or
    utterance text has a header in it, that header occurs in the string
    exactly when its field is present and not empty. *)
Theorem buildContextString_contents (ctx : MeetingContext) :
  buildContextString ctx ≠ ""
  ∧ startsWith ("MEETING: " +:+ title ctx) (buildContextString ctx) = true
  ∧ includes (buildContextString ctx) (title ctx) = true
  ∧ buildContextString ctx
    = "MEETING: " +:+ title ctx
      +:+ block (given (summary ctx)) "SUMMARY:" (default "" (summary ctx))
      +:+ block (filled (keyPoints ctx)) "KEY POINTS:"
            (join nl ((fun p => "- " +:+ p) <$> default [] (keyPoints ctx)))
      +:+ block (filled (actionItems ctx)) "ACTION ITEMS:"
            (join nl ((fun a => "- " +:+ a) <$> default [] (actionItems ctx)))
      +:+ block (filled (transcript ctx)) "RECENT TRANSCRIPT:"
            (join nl ((fun t => "[" +:+ (if decide (speaker t = "user") then "Me" else "Them")
                                  +:+ "]: " +:+ text t)
                        <$> slice_last 20 (default [] (transcript ctx))))
  ∧ (∀ s, summary ctx = Some s → s ≠ "" →
       includes (buildContextString ctx) (block true "SUMMARY:" s) = true)
  ∧ (∀ ps, keyPoints ctx = Some ps → ps ≠ [] →
       includes (buildContextString ctx)
         (block true "KEY POINTS:" (join nl ((fun p => "- " +:+ p) <$> ps))) = true)
  ∧ (∀ items, actionItems ctx = Some items → items ≠ [] →
       includes (buildContextString ctx)
         (block true "ACTION ITEMS:" (join nl ((fun a => "- " +:+ a) <$> items))) = true)
  ∧ (∀ us, transcript ctx = Some us → us ≠ [] →
       includes (buildContextString ctx)
         (block true "RECENT TRANSCRIPT:"
            (join nl ((fun t => "[" +:+ (if decide (speaker t = "user") then "Me" else "Them")
                                  +:+ "]: " +:+ text t) <$> slice_last 20 us))) = true)
  ∧ (∀ us : list Utterance,
       slice_last 20 us `suffix_of` us ∧ length (slice_last 20 us) = min 20 (length us))
  ∧ (quotes ctx "SUMMARY:" = false →
     (includes (buildContextString ctx) "SUMMARY:" = true
      ↔ ∃ s, summary ctx = Some s ∧ s ≠ ""))
  ∧ (quotes ctx "KEY POINTS:" = false →
     (includes (buildContextString ctx) "KEY POINTS:" = true
      ↔ ∃ ps, keyPoints ctx = Some ps ∧ ps ≠ []))
  ∧ (quotes ctx "ACTION ITEMS:" = false →
     (includes (buildContextString ctx) "ACTION ITEMS:" = true
      ↔ ∃ items, actionItems ctx = Some items ∧ items ≠ []))
  ∧ (quotes ctx "RECENT TRANSCRIPT:" = false →
     (includes (buildContextString ctx) "RECENT TRANSCRIPT:" = true
      ↔ ∃ us, transcript ctx = Some us ∧ us ≠ [])).
Proof.
  pose proof (buildContextString_blocks ctx) as Hb.
  split_and!.
  - rewrite Hb. done.
  - apply startsWith_spec. eexists. rewrite Hb at 1. by rewrite <- append_assoc.
  - rewrite Hb. apply includes_middle.
  - exact Hb.
  - intros s Hs Hne. rewrite Hb, Hs. destruct s as [|c s]; [done |].
    cbn [given default]. rewrite <- (append_assoc "MEETING: "). apply includes_middle.
  - intros ps Hs Hne. rewrite Hb, Hs. destruct ps as [|p ps]; [done |].
    cbn [filled default].
    rewrite <- (append_assoc "MEETING: "), <- (append_assoc ("MEETING: " +:+ title ctx)).
    apply includes_middle.
  - intros ps Hs Hne. rewrite Hb, Hs. destruct ps as [|p ps]; [done |].
    cbn [filled default].
    rewrite <- (append_assoc "MEETING: "), <- (append_assoc ("MEETING: " +:+ title ctx)).
    rewrite <- (append_assoc (("MEETING: " +:+ title ctx) +:+ _)).
    apply includes_middle.
  - intros us Hs Hne. rewrite Hb, Hs. destruct us as [|u us]; [done |].
    cbn [filled default].
    rewrite <- (append_assoc "MEETING: "), <- (append_assoc ("MEETING: " +:+ title ctx)).
    rewrite <- (append_assoc (("MEETING: " +:+ title ctx) +:+ _)).
    rewrite <- (append_assoc ((("MEETING: " +:+ title ctx) +:+ _) +:+ _)).
    rewrite <- (append_empty_r (block true _ _)). apply includes_middle.
  - intros us. split; [apply slice_last_suffix | apply slice_last_length].
  - intros Hq. rewrite (includes_context ctx "S" "UMMARY:") by done.
    change (includes "SUMMARY:" "SUMMARY:") with true.
    change (includes "KEY POINTS:" "SUMMARY:") with false.
    change (includes "ACTION ITEMS:" "SUMMARY:") with false.
    change (includes "RECENT TRANSCRIPT:" "SUMMARY:") with false.
    rewrite !andb_false_r, !orb_false_r, andb_true_r. apply given_spec.
  - intros Hq. rewrite (includes_context ctx "K" "EY POINTS:") by done.
    change (includes "SUMMARY:" "KEY POINTS:") with false.
    change (includes "KEY POINTS:" "KEY POINTS:") with true.
    change (includes "ACTION ITEMS:" "KEY POINTS:") with false.
    change (includes "RECENT TRANSCRIPT:" "KEY POINTS:") with false.
    rewrite !andb_false_r, !orb_false_r, andb_true_r. cbn [orb]. apply filled_spec.
  - intros Hq. rewrite (includes_context ctx "A" "CTION ITEMS:") by done.
    change (includes "SUMMARY:" "ACTION ITEMS:") with false.
    change (includes "KEY POINTS:" "ACTION ITEMS:") with false.
    change (includes "ACTION ITEMS:" "ACTION ITEMS:") with true.
    change (includes "RECENT TRANSCRIPT:" "ACTION ITEMS:") with false.
    rewrite !andb_false_r, !orb_false_r, andb_true_r. cbn [orb]. apply filled_spec.
  - intros Hq. rewrite (includes_context ctx "R" "ECENT TRANSCRIPT:") by done.
    change (includes "SUMMARY:" "RECENT TRANSCRIPT:") with false.
    change (includes "KEY POINTS:" "RECENT TRANSCRIPT:") with false.
    change (includes "ACTION ITEMS:" "RECENT TRANSCRIPT:") with false.
    change (includes "RECENT TRANSCRIPT:" "RECENT TRANSCRIPT:") with true.
    rewrite !andb_false_r, andb_true_r. cbn [orb]. apply filled_spec.
Qed.

Definition retro_context : MeetingContext :=
  {| id := None;
     title := "Retro";
     summary := Some "Ship on Friday.";
     keyPoints := Some ["Tests are green"];
     actionItems := None;
     transcript := Some [mkUtterance "user" "Shall we ship?" 0;
                         mkUtterance "interviewer" "Yes." 4000] |}.

Lemma buildContextString_contents_witness :
  quotes retro_context "SUMMARY:" = false
  ∧ quotes retro_context "ACTION ITEMS:" = false
  ∧ includes (buildContextString retro_context) "SUMMARY:" = true
  ∧ includes (buildContextString retro_context) "ACTION ITEMS:" ≠ true.
Proof.
  destruct (buildContextString_contents retro_context)
    as (_ & _ & _ & _ & _ & _ & _ & _ & _ & Hs & _ & Ha & _).
  split; [reflexivity |]. split; [reflexivity |]. split.
  - apply Hs; [reflexivity |]. eexists. split; [reflexivity | discriminate].
  - intros H. apply Ha in H; [| reflexivity]. destruct H as (items & Hi & _). discriminate.
Defined.

Example retro_context_string :
  buildContextString retro_context
  = "MEETING: Retro" +:+ nl +:+ nl +:+ "SUMMARY:" +:+ nl +:+ "Ship on Friday."
      +:+ nl +:+ nl +:+ "KEY POINTS:" +:+ nl +:+ "- Tests are green"
      +:+ nl +:+ nl +:+ "RECENT TRANSCRIPT:" +:+ nl
      +:+ "[Me]: Shall we ship?" +:+ nl +:+ "[Them]: Yes.".
Proof. reflexivity. Qed.

(** A title that carries a summary section, and the context with that
    summary. *)
Definition forged_context : MeetingContext :=
  {| id := None;
     title := "Retro" +:+ nl +:+ nl +:+ "SUMMARY:" +:+ nl +:+ "Ship on Friday.";
     summary := None;
     keyPoints := None;
     actionItems := None;
     transcript := None |}.

Definition plain_context : MeetingContext :=
  {| id := None;
     title := "Retro";
     summary := Some "Ship on Friday.";
     keyPoints := None;
     actionItems := None;
     transcript := None |}.

(** C3, as stated, fails: this context has no summary, and the string
    returned for it has the summary section that its title carries; it is
    the string returned for the context with that summary. *)
Lemma title_carries_summary_section :
  summary forged_context = None
  ∧ includes (buildContextString forged_context) (block true "SUMMARY:" "Ship on Friday.")
    = true
  ∧ buildContextString forged_context = buildContextString plain_context.
Proof. split_and!; vm_compute; reflexivity. Qed.

End ContextFacts.

(** ** The meeting chat: which path a question takes *)
Module ChatFacts.
Import JS JSFacts MeetingChat ContextFacts.

(** The id [aid] is new: no suspended [submitQuestion], no listener and no
    message carries it. *)
Definition fresh (aid : MsgId) (c : Chat) : Prop :=
  (aid ∉ (t_aid <$> tasks c))
  ∧ (aid ∉ (target <$> listeners c))
  ∧ (aid ∉ (msg_id <$> messages c)).

Definition reports_fallback (result : option RagResult) : bool :=
  match result with
  | Some r => fallback r
  | None => false
  end.

(** The call of the context-window path. *)
Definition windowed (ctx : MeetingContext) (question : string) : Call :=
  streamGeminiChat question (systemPrompt ctx).

Lemma find_new_task (ts : list Task) aid q a :
  aid ∉ t_aid <$> ts →
  snd <$> list_find (fun t => t_aid t = aid ∧ t_await t = a) (ts ++ [mkTask aid q a])
  = Some (mkTask aid q a).
Proof.
  intros Hfresh. rewrite list_find_app_r.
  - cbn. rewrite decide_True by done. done.
  - apply list_find_None, Forall_forall. intros t Hin [Ht _].
    apply Hfresh. rewrite <- Ht. by apply list_elem_of_fmap_2.
Qed.

Lemma retask_new (ts : list Task) aid q a0 a :
  aid ∉ t_aid <$> ts →
  (fun t' => if decide (t_aid t' = aid) then mkTask aid q a else t')
    <$> (ts ++ [mkTask aid q a0])
  = ts ++ [mkTask aid q a].
Proof.
  intros Hfresh. rewrite fmap_app. f_equal.
  - induction ts as [|t ts IH]; [done |]. rewrite fmap_cons in Hfresh.
    apply not_elem_of_cons in Hfresh as [Hne Hfresh].
    rewrite fmap_cons, IH by done. by rewrite decide_False.
  - cbn. by rewrite decide_True.
Qed.

Lemma waiting_new aid q a c (ts : list Task) :
  aid ∉ t_aid <$> ts →
  tasks c = ts ++ [mkTask aid q a] →
  waiting aid a c = Some (mkTask aid q a).
Proof. intros Hfresh Hts. unfold waiting. rewrite Hts. by apply find_new_task. Qed.

Lemma new_task_id aid c : fresh aid c → aid ∉ (t_aid <$> tasks c).
Proof. by intros [H _]. Qed.

(** The content of the first message with id [aid]. *)
Definition find_content (aid : MsgId) (l : list Message) : option string :=
  content <$> (snd <$> list_find (fun msg => msg_id msg = aid) l).

Lemma find_content_fmap aid (f : Message -> Message) (g : string -> string) l :
  (∀ msg, msg_id (f msg) = msg_id msg) →
  (∀ msg, msg_id msg = aid → content (f msg) = g (content msg)) →
  find_content aid (f <$> l) = g <$> find_content aid l.
Proof.
  intros Hid Hc. unfold find_content.
  induction l as [|x l IH]; [done |]. rewrite fmap_cons. cbn [list_find].
  rewrite Hid. destruct (decide (msg_id x = aid)) as [Hx|Hx].
  - cbn. by rewrite Hc.
  - destruct (list_find _ (f <$> l)) as [[i y]|], (list_find _ l) as [[j z]|];
      cbn in *; congruence.
Qed.

Lemma find_content_new aid (l : list Message) msg :
  aid ∉ msg_id <$> l → msg_id msg = aid →
  find_content aid (l ++ [msg]) = Some (content msg).
Proof.
  intros Hfresh Hid. unfold find_content. rewrite list_find_app_r.
  - cbn. by rewrite decide_True.
  - apply list_find_None, Forall_forall. intros x Hin Hx.
    apply Hfresh. rewrite <- Hx. by apply list_elem_of_fmap_2.
Qed.

Lemma answer_appendContent aid a d c :
  answer aid (setMessages (fmap (appendContent a d)) c)
  = (fun s => if decide (a = aid) then s +:+ d else s) <$> answer aid c.
Proof.
  apply (find_content_fmap aid (appendContent a d)
           (fun s => if decide (a = aid) then s +:+ d else s)).
  - intros msg. unfold appendContent. by case_decide.
  - intros msg Hm. unfold appendContent. subst aid.
    destruct (decide (msg_id msg = a)) as [->|Hne].
    + by rewrite decide_True.
    + by rewrite decide_False.
Qed.

Lemma answer_stopStreaming aid a c :
  answer aid (setMessages (fmap (stopStreaming a)) c) = answer aid c.
Proof.
  etrans; [apply (find_content_fmap aid (stopStreaming a) (fun s => s)) |].
  - intros msg. unfold stopStreaming. by case_decide.
  - intros msg _. unfold stopStreaming. by case_decide.
  - change (answer aid c) with (find_content aid (messages c)).
    by destruct (find_content aid (messages c)).
Qed.

(** One token event, seen from the message [aid]: the listeners stay, and
    the token is appended once for each token listener of [aid]. *)
Definition deliver (ch : Channel) (data : string) (ls : list Listener) (c : Chat) : Chat :=
  foldl (fun c' l => if decide (channel l = ch) then handler ch (target l) data c' else c')
        c ls.

Lemma token_listeners aid d (ls : list Listener) c :
  listeners (deliver GeminiStreamToken d ls c) = listeners c
  ∧ errorMessage (deliver GeminiStreamToken d ls c) = errorMessage c
  ∧ (aid ∉ (target <$> ls) →
     answer aid (deliver GeminiStreamToken d ls c) = answer aid c).
Proof.
  unfold deliver. revert c. induction ls as [|l ls IH]; intros c; [done |].
  cbn [foldl]. destruct (decide (channel l = GeminiStreamToken)) as [Hl|Hl].
  - destruct (IH (handler GeminiStreamToken (target l) d c)) as (H1 & H2 & H3).
    split_and!; [by rewrite H1 | by rewrite H2 |].
    rewrite fmap_cons. intros [Hne Hfresh]%not_elem_of_cons.
    rewrite H3 by done. unfold handler.
    rewrite answer_appendContent.
    destruct (decide (target l = aid)) as [E|_]; [by rewrite E in Hne |].
    unfold answer. by destruct (list_find _ _) as [[? ?]|].
  - destruct (IH c) as (H1 & H2 & H3). split_and!; [done | done |].
    rewrite fmap_cons. intros [Hne Hfresh]%not_elem_of_cons. auto.
Qed.

(** Stream-done events leave every answer as it is and set no error. *)
Lemma done_listeners aid d (ls : list Listener) c :
  answer aid (deliver GeminiStreamDone d ls c) = answer aid c
  ∧ errorMessage (deliver GeminiStreamDone d ls c) = errorMessage c.
Proof.
  unfold deliver. revert c. induction ls as [|l ls IH]; intros c; [done |].
  cbn [foldl]. destruct (decide (channel l = GeminiStreamDone)) as [Hl|Hl]; [| apply IH].
  destruct (IH (handler GeminiStreamDone (target l) d c)) as [H1 H2].
  rewrite H1, H2. split; [| done].
  unfold handler. apply answer_stopStreaming.
Qed.

Definition concat_tokens (tokens : list string) : string :=
  foldr String.append "" tokens.

Lemma deliver_app ch d (l1 l2 : list Listener) c :
  deliver ch d (l1 ++ l2) c = deliver ch d l2 (deliver ch d l1 c).
Proof. unfold deliver. by rewrite foldl_app. Qed.

Lemma deliver_skip ch d l c : channel l ≠ ch → deliver ch d [l] c = c.
Proof. intros H. unfold deliver. cbn. by rewrite decide_False. Qed.

Lemma deliver_hit ch d l c :
  channel l = ch → deliver ch d [l] c = handler ch (target l) d c.
Proof. intros H. unfold deliver. cbn. by rewrite decide_True. Qed.

Lemma run_cons api ctx i inputs c :
  run api ctx (i :: inputs) c = run api ctx inputs (step api ctx i c).
Proof. reflexivity. Qed.

Lemma run_app api ctx inputs1 inputs2 c :
  run api ctx (inputs1 ++ inputs2) c = run api ctx inputs2 (run api ctx inputs1 c).
Proof. unfold run. by rewrite foldl_app. Qed.

(** While the token and done listeners of [aid] are the last two
    registered, every token event appends its token to the answer. *)
Lemma streamed_tokens api ctx aid (old : list Listener) tokens st :
  listeners st = (old ++ [mkListener GeminiStreamToken aid])
                   ++ [mkListener GeminiStreamDone aid] →
  aid ∉ (target <$> old) →
  let st' := run api ctx (Event GeminiStreamToken <$> tokens) st in
  listeners st' = listeners st
  ∧ errorMessage st' = errorMessage st
  ∧ answer aid st' = (fun s => s +:+ concat_tokens tokens) <$> answer aid st.
Proof.
  intros Hls Hold. cbv zeta. revert st Hls.
  induction tokens as [|d tokens IH]; intros st Hls.
  - cbn. split_and!; [done | done |].
    unfold answer. destruct (list_find _ _) as [[? ?]|]; cbn; [| done].
    by rewrite append_empty_r.
  - rewrite fmap_cons, run_cons.
    set (st1 := step api ctx (Event GeminiStreamToken d) st).
    assert (H1 : listeners st1 = listeners st
                 ∧ errorMessage st1 = errorMessage st
                 ∧ answer aid st1 = (fun s => s +:+ d) <$> answer aid st).
    { unfold st1. cbn [step]. unfold emit. fold (deliver GeminiStreamToken d (listeners st) st).
      rewrite Hls, !deliver_app.
      destruct (token_listeners aid d old st) as (Ha & Hb & Hc).
      rewrite deliver_skip by done. rewrite deliver_hit by done.
      cbn [target handler].
      split_and!.
      - cbn. by rewrite Ha, Hls.
      - cbn. by rewrite Hb.
      - rewrite answer_appendContent.
        change (answer aid (setChatState streaming_response ?x)) with (answer aid x).
        rewrite Hc by done. unfold answer.
        destruct (list_find _ _) as [[? ?]|]; cbn; [| done].
        by rewrite decide_True. }
    destruct H1 as (Ha & Hb & Hc).
    destruct (IH st1) as (Ia & Ib & Ic); [by rewrite Ha |].
    split_and!.
    + by rewrite Ia.
    + by rewrite Ib.
    + rewrite Ic, Hc. unfold answer.
      destruct (list_find _ _) as [[? ?]|]; cbn; [| done].
      by rewrite append_assoc.
Qed.

Lemma filter_fresh ch aid (ls : list Listener) :
  aid ∉ (target <$> ls) →
  filter (fun l => l ≠ mkListener ch aid) ls = ls.
Proof.
  induction ls as [|l ls IH]; [done |].
  rewrite fmap_cons. intros [Hne Hfresh]%not_elem_of_cons.
  rewrite filter_cons, IH by done. rewrite decide_True; [done |].
  intros ->. by apply Hne.
Qed.

Lemma filter_off_same (x : Listener) r :
  filter (fun l => l ≠ x) (x :: r) = filter (fun l => l ≠ x) r.
Proof. rewrite filter_cons. rewrite decide_False; [done |]. by intros H. Qed.

Lemma filter_off_other (x y : Listener) r :
  y ≠ x → filter (fun l => l ≠ x) (y :: r) = y :: filter (fun l => l ≠ x) r.
Proof. intros H. rewrite filter_cons. by rewrite decide_True. Qed.

Lemma filter_off_fresh ch aid (ls rest : list Listener) :
  aid ∉ (target <$> ls) →
  filter (fun l => l ≠ mkListener ch aid) (ls ++ rest)
  = ls ++ filter (fun l => l ≠ mkListener ch aid) rest.
Proof. intros H. by rewrite filter_app, filter_fresh. Qed.

(** [ragCleanup] removes the three RAG listeners of a new [aid] again. *)
Lemma ragCleanup_new aid (ls : list Listener) :
  aid ∉ (target <$> ls) →
  filter (fun l => l ≠ mkListener RAGStreamError aid)
    (filter (fun l => l ≠ mkListener RAGStreamComplete aid)
       (filter (fun l => l ≠ mkListener RAGStreamChunk aid)
          (((ls ++ [mkListener RAGStreamChunk aid])
              ++ [mkListener RAGStreamComplete aid])
              ++ [mkListener RAGStreamError aid])))
  = ls.
Proof.
  intros Hfresh. rewrite <- !app_assoc. cbn [app].
  rewrite filter_off_fresh by done.
  rewrite filter_off_same, !filter_off_other by done. rewrite filter_nil.
  rewrite filter_off_fresh by done.
  rewrite filter_off_same, !filter_off_other by done. rewrite filter_nil.
  rewrite filter_off_fresh by done.
  rewrite filter_off_same, filter_nil. by rewrite app_nil_r.
Qed.

Section Query.
Variable ctx : MeetingContext.
Variable question : string.
Variable now : Z.
Variable c : Chat.
Hypothesis asked_something : truthy (trim question) = true.
Hypothesis not_busy : busy (chatState c) = false.
Hypothesis new_id : fresh (AssistantId now) c.

Local Abbreviation aid := (AssistantId now).
Local Abbreviation userMessage := (mkMessage (UserId now) user question None).
Local Abbreviation placeholder := (mkMessage (AssistantId now) assistant "" (Some true)).

Lemma submit_accepted :
  submit question now c
  = {| messages := messages c ++ [userMessage];
       chatState := waiting_for_llm;
       errorMessage := None;
       listeners := listeners c;
       tasks := tasks c ++ [mkTask aid question AtTimer];
       calls := calls c |}.
Proof. unfold submit. by rewrite asked_something, not_busy. Qed.

(** With a meeting id, the question is sent to [ragQueryMeeting]. *)
Lemma asked_with_id m :
  meetingId ctx = Some m →
  run true ctx [Submit question now; Timer aid] c
  = {| messages := (messages c ++ [userMessage]) ++ [placeholder];
       chatState := waiting_for_llm;
       errorMessage := None;
       listeners := ((listeners c ++ [mkListener RAGStreamChunk aid])
                       ++ [mkListener RAGStreamComplete aid])
                       ++ [mkListener RAGStreamError aid];
       tasks := tasks c ++ [mkTask aid question AtRag];
       calls := calls c ++ [ragQueryMeeting m question] |}.
Proof.
  intros Hm. unfold run. cbn [foldl step]. rewrite submit_accepted.
  erewrite waiting_new; [| | reflexivity]; [| exact (new_task_id _ _ new_id)].
  unfold after_timer. rewrite Hm. cbn.
  unfold suspend, setTasks. cbn. f_equal. apply retask_new, (new_task_id _ _ new_id).
Qed.

(** Without a meeting id, the question goes to [streamGeminiChat] with the
    context string. *)
Lemma asked_without_id :
  meetingId ctx = None →
  run true ctx [Submit question now; Timer aid] c
  = {| messages := (messages c ++ [userMessage]) ++ [placeholder];
       chatState := waiting_for_llm;
       errorMessage := None;
       listeners := ((((listeners c ++ [mkListener RAGStreamChunk aid])
                         ++ [mkListener RAGStreamComplete aid])
                         ++ [mkListener RAGStreamError aid])
                         ++ [mkListener GeminiStreamToken aid])
                         ++ [mkListener GeminiStreamDone aid];
       tasks := tasks c ++ [mkTask aid question AtGemini];
       calls := calls c ++ [windowed ctx question] |}.
Proof.
  intros Hm. unfold run. cbn [foldl step]. rewrite submit_accepted.
  erewrite waiting_new; [| | reflexivity]; [| exact (new_task_id _ _ new_id)].
  unfold after_timer. rewrite Hm. unfold contextWindow. cbn.
  unfold suspend, setTasks. cbn. f_equal. apply retask_new, (new_task_id _ _ new_id).
Qed.

(** After [ragQueryMeeting] resolved, the context-window call is made
    exactly when the result reports [fallback]. *)
Lemma resolved_calls m result :
  meetingId ctx = Some m →
  calls (step true ctx (RagResolved aid result)
           (run true ctx [Submit question now; Timer aid] c))
  = (calls c ++ [ragQueryMeeting m question])
      ++ (if reports_fallback result then [windowed ctx question] else []).
Proof.
  intros Hm. rewrite (asked_with_id m Hm). cbn [step].
  erewrite waiting_new; [| | reflexivity]; [| exact (new_task_id _ _ new_id)].
  unfold after_rag. destruct result as [[[|]]|]; cbn; by rewrite ?app_nil_r.
Qed.

(** When the result reports [fallback], the RAG listeners are removed and
    the context-window call is made. *)
Lemma fallback_taken m :
  meetingId ctx = Some m →
  step true ctx (RagResolved aid (Some (mkRagResult true)))
    (run true ctx [Submit question now; Timer aid] c)
  = {| messages := (messages c ++ [userMessage]) ++ [placeholder];
       chatState := waiting_for_llm;
       errorMessage := None;
       listeners := (listeners c ++ [mkListener GeminiStreamToken aid])
                      ++ [mkListener GeminiStreamDone aid];
       tasks := tasks c ++ [mkTask aid question AtGemini];
       calls := (calls c ++ [ragQueryMeeting m question]) ++ [windowed ctx question] |}.
Proof.
  intros Hm. rewrite (asked_with_id m Hm). cbn [step].
  erewrite waiting_new; [| | reflexivity]; [| exact (new_task_id _ _ new_id)].
  unfold after_rag, contextWindow. cbn.
  unfold suspend, setTasks. cbn. f_equal.
  - rewrite ragCleanup_new; [done |]. by destruct new_id as (_ & H & _).
  - apply retask_new, (new_task_id _ _ new_id).
Qed.

Lemma placeholder_answer (ms : list Message) :
  ms = (messages c ++ [userMessage]) ++ [placeholder] →
  find_content aid ms = Some "".
Proof.
  intros ->. apply (find_content_new aid _ placeholder); [| done].
  destruct new_id as (_ & _ & H). rewrite fmap_app. cbn.
  intros [Hin | Hin]%elem_of_app; [done |].
  apply list_elem_of_singleton in Hin. discriminate.
Qed.

(** After the context-window call, the answer shown for the question is
    the concatenation of the tokens that were streamed, and no error is
    shown. *)
Lemma fallback_answer m tokens :
  meetingId ctx = Some m →
  let final :=
    run true ctx ((Event GeminiStreamToken <$> tokens) ++ [Event GeminiStreamDone ""])
      (step true ctx (RagResolved aid (Some (mkRagResult true)))
         (run true ctx [Submit question now; Timer aid] c)) in
  answer aid final = Some (concat_tokens tokens) ∧ errorMessage final = None.
Proof.
  intros Hm. cbv zeta. rewrite (fallback_taken m Hm), run_app.
  match goal with
  | |- context [run true ctx (Event GeminiStreamToken <$> tokens) ?s] => set (st := s)
  end.
  destruct (streamed_tokens true ctx aid (listeners c) tokens st) as (Ha & Hb & Hc);
    [done | by destruct new_id as (_ & H & _) |].
  set (st' := run true ctx (Event GeminiStreamToken <$> tokens) st) in *.
  rewrite run_cons. cbn [run foldl step]. unfold emit.
  fold (deliver GeminiStreamDone "" (listeners st') st').
  destruct (done_listeners aid "" (listeners st') st') as [Hd He].
  rewrite Hd, He, Hc, Hb. split; [| done].
  change (answer aid st) with (find_content aid (messages st)).
  by rewrite (placeholder_answer (messages st)).
Qed.

End Query.

Lemma meetingId_none ctx :
  meetingId ctx = None ↔ id ctx = None ∨ id ctx = Some "".
Proof.
  unfold meetingId. destruct (id ctx) as [[|a s]|]; cbn; split; auto.
  all: intros [H | H]; discriminate.
Qed.

Lemma no_embedded_chunk_falls_back min_chunks last_unavailable m store :
  Rag.embedded_chunks m store = [] →
  fallback (Rag.queryMeeting min_chunks last_unavailable m store) = true.
Proof.
  intros H. unfold Rag.queryMeeting, Rag.select_strategy. cbn [fallback].
  rewrite H. reflexivity.
Qed.

(** C1, as amended.  Take a question that [submitQuestion] accepts (not
    blank, chat neither waiting nor streaming), with [electronAPI] present,
    in a chat where no message, listener or pending [submitQuestion] uses
    the assistant message id of the question, and let its 200 ms timer
    fire.  The meeting id counts as absent exactly when it is absent or
    empty.  Without a meeting id the only call made is [streamGeminiChat]
    with the prompt built from the context string.  With a meeting id the
    only call made is [ragQueryMeeting]; when that resolves next,
    [streamGeminiChat] is called with that prompt exactly when the result
    reports [fallback].  When the store has no embedded chunk for the
    meeting, the result reports [fallback] and the context-window call is
    made; when the Gemini stream then delivers its tokens and its done
    event, with no other input in between, the answer shown is the
    concatenation of the streamed tokens, empty when there is none, and no
    error is shown. *)
Theorem submitQuestion_paths
    (ctx : MeetingContext) (question : string) (now : Z) (c : Chat)
    (min_chunks : nat) (last_unavailable : bool) (store : Store.Tables) :
  truthy (trim question) = true →
  busy (chatState c) = false →
  fresh (AssistantId now) c →
  let aid := AssistantId now in
  let asked := run true ctx [Submit question now; Timer aid] c in
  (meetingId ctx = None ↔ id ctx = None ∨ id ctx = Some "")
  ∧ (meetingId ctx = None →
     calls asked = calls c ++ [streamGeminiChat question (systemPrompt ctx)])
  ∧ (∀ m, meetingId ctx = Some m →
       calls asked = calls c ++ [ragQueryMeeting m question]
       ∧ (∀ result,
            calls (step true ctx (RagResolved aid result) asked)
            = calls asked
                ++ (if reports_fallback result
                    then [streamGeminiChat question (systemPrompt ctx)] else []))
       ∧ (Rag.embedded_chunks m store = [] →
          let result := Rag.queryMeeting min_chunks last_unavailable m store in
          let resolved := step true ctx (RagResolved aid (Some result)) asked in
          reports_fallback (Some result) = true
          ∧ calls resolved
            = calls asked ++ [streamGeminiChat question (systemPrompt ctx)]
          ∧ ∀ tokens,
              let final :=
                run true ctx
                  ((Event GeminiStreamToken <$> tokens) ++ [Event GeminiStreamDone ""])
                  resolved in
              answer aid final = Some (concat_tokens tokens)
              ∧ errorMessage final = None)).
Proof.
  intros Hq Hbusy Hnew. cbv zeta. split_and!.
  - apply meetingId_none.
  - intros Hm. by rewrite (asked_without_id ctx question now c Hq Hbusy Hnew Hm).
  - intros m Hm. split_and!.
    + by rewrite (asked_with_id ctx question now c Hq Hbusy Hnew m Hm).
    + intros result.
      rewrite (resolved_calls ctx question now c Hq Hbusy Hnew m result Hm).
      by rewrite (asked_with_id ctx question now c Hq Hbusy Hnew m Hm).
    + intros Hnone.
      pose proof (no_embedded_chunk_falls_back min_chunks last_unavailable m store Hnone) as Hf.
      destruct (Rag.queryMeeting min_chunks last_unavailable m store) as [f].
      cbn in Hf. subst f. split_and!.
      * done.
      * rewrite (resolved_calls ctx question now c Hq Hbusy Hnew m _ Hm).
        by rewrite (asked_with_id ctx question now c Hq Hbusy Hnew m Hm).
      * intros tokens.
        apply (fallback_answer ctx question now c Hq Hbusy Hnew m tokens Hm).
Qed.

Definition sync_context : MeetingContext :=
  {| id := Some "m1";
     title := "Weekly sync";
     summary := None;
     keyPoints := None;
     actionItems := None;
     transcript := Some [mkUtterance "user" "Shall we ship on Friday?" 0;
                         mkUtterance "interviewer" "Yes, if the tests pass." 4000] |}.

(** A store whose only chunk of meeting m1 has no embedding yet. *)
Definition sync_store : Store.Tables :=
  {| Store.meetings :=
       {[ "m1" := Store.mkMeetingRow "Weekly sync" 0 8000 None "2024-01-01" None
                    (Some "manual") 1 ]};
     Store.transcripts := [];
     Store.ai_interactions := [];
     Store.chunks :=
       [Store.mkChunkRow 1 "m1" 0 None 0 4000
          "Me: Shall we ship on Friday?" 7 None 0];
     Store.chunk_summaries := [];
     Store.embedding_queue := [];
     Store.sequences := Store.mkSequences 0 0 1 0 0 |}.

Lemma fresh_initial aid : fresh aid initial.
Proof. unfold fresh. cbn. split_and!; apply not_elem_of_nil. Qed.

Lemma submitQuestion_paths_witness :
  truthy (trim "What was decided?") = true
  ∧ busy (chatState initial) = false
  ∧ fresh (AssistantId 1000) initial
  ∧ calls (run true sync_context
             [Submit "What was decided?" 1000; Timer (AssistantId 1000);
              RagResolved (AssistantId 1000)
                (Some (Rag.queryMeeting 0 false "m1" sync_store))]
             initial)
    = [ragQueryMeeting "m1" "What was decided?";
       streamGeminiChat "What was decided?" (systemPrompt sync_context)].
Proof.
  split_and!; [reflexivity | reflexivity | apply fresh_initial |].
  destruct (submitQuestion_paths sync_context "What was decided?" 1000 initial
              0 false sync_store) as (_ & _ & H);
    [reflexivity | reflexivity | apply fresh_initial |].
  destruct (H "m1") as (_ & _ & Hzero); [reflexivity |].
  destruct Hzero as (_ & Hcalls & _); [reflexivity |].
  exact Hcalls.
Defined.

(** The prompt of the fallback for the two utterances of the sync. *)
Example sync_context_string :
  buildContextString sync_context
  = "MEETING: Weekly sync" +:+ nl +:+ nl +:+ "RECENT TRANSCRIPT:" +:+ nl
      +:+ "[Me]: Shall we ship on Friday?" +:+ nl
      +:+ "[Them]: Yes, if the tests pass.".
Proof. reflexivity. Qed.

(** C1, as stated, fails: the meeting m1 has no embedded chunk and the
    question goes through the fallback, but the model streams nothing
    before its stream is done, and the answer shown is empty. *)
Lemma fallback_answer_can_be_empty :
  let aid := AssistantId 1000 in
  let final :=
    run true sync_context
      [Submit "What was decided?" 1000; Timer aid;
       RagResolved aid (Some (Rag.queryMeeting 0 false "m1" sync_store));
       GeminiResolved aid; Event GeminiStreamDone ""]
      initial in
  Rag.embedded_chunks "m1" sync_store = []
  ∧ calls final = [ragQueryMeeting "m1" "What was decided?";
                   streamGeminiChat "What was decided?" (systemPrompt sync_context)]
  ∧ chatState final = idle
  ∧ errorMessage final = None
  ∧ answer aid final = Some "".
Proof. cbv zeta. split_and!; vm_compute; reflexivity. Qed.

End ChatFacts.

(** ** The meeting chat: when an error is shown *)
Module ChatErrorFacts.
Import JS JSFacts MeetingChat ContextFacts ChatFacts.

Lemma messages_differ : something_went_wrong ≠ couldnt_get_response.
Proof. discriminate. Qed.

Lemma after_timer_error bridge ctx t c :
  errorMessage (after_timer bridge ctx t c) = errorMessage c.
Proof.
  unfold after_timer, contextWindow, api.
  destruct bridge, (meetingId ctx); reflexivity.
Qed.

Lemma after_rag_error bridge ctx t result c :
  errorMessage (after_rag bridge ctx t result c) = errorMessage c.
Proof.
  unfold after_rag, contextWindow, api.
  destruct result as [[[|]]|], bridge; reflexivity.
Qed.

Lemma handler_error ch aid d c :
  ch ≠ RAGStreamError → errorMessage (handler ch aid d c) = errorMessage c.
Proof. destruct ch; intros H; try reflexivity. done. Qed.

(** An event changes the error only through a listener of the RAG
    stream-error channel. *)
Lemma deliver_error ch d (ls : list Listener) c :
  errorMessage (deliver ch d ls c) = Some couldnt_get_response →
  errorMessage c = Some couldnt_get_response
  ∨ (ch = RAGStreamError ∧ ∃ l, l ∈ ls ∧ channel l = RAGStreamError).
Proof.
  unfold deliver. revert c. induction ls as [|l ls IH]; intros c; cbn [foldl]; [auto |].
  destruct (decide (channel l = ch)) as [Hl|Hl].
  - intros [H | (Hch & l' & Hin & Hl')]%IH.
    + destruct (decide (ch = RAGStreamError)) as [->|Hne].
      * right. split; [done |]. exists l. split; [by left | done].
      * left. by rewrite handler_error in H.
    + right. split; [done |]. exists l'. split; [by right | done].
  - intros [H | (Hch & l' & Hin & Hl')]%IH; [by left |].
    right. split; [done |]. exists l'. split; [by right | done].
Qed.

(** Once the RAG stream-error handler ran, the rest of the event keeps the
    error state. *)
Lemma deliver_keeps_error d (ls : list Listener) c :
  errorMessage c = Some couldnt_get_response → chatState c = error →
  errorMessage (deliver RAGStreamError d ls c) = Some couldnt_get_response
  ∧ chatState (deliver RAGStreamError d ls c) = error.
Proof.
  unfold deliver. revert c. induction ls as [|l ls IH]; intros c He Hs; [done |].
  cbn [foldl]. destruct (decide (channel l = RAGStreamError)); [| by apply IH].
  by apply IH.
Qed.

Lemma deliver_rag_error d (ls : list Listener) c l :
  l ∈ ls → channel l = RAGStreamError →
  errorMessage (deliver RAGStreamError d ls c) = Some couldnt_get_response
  ∧ chatState (deliver RAGStreamError d ls c) = error.
Proof.
  revert c. induction ls as [|x ls IH]; intros c Hin Hl; [by inversion Hin |].
  unfold deliver. cbn [foldl]. fold (deliver RAGStreamError d ls).
  destruct (decide (channel x = RAGStreamError)) as [Hx|Hx].
  - by apply deliver_keeps_error.
  - apply IH; [| done]. apply elem_of_cons in Hin as [-> | Hin]; done.
Qed.

Lemma waiting_aid aid a c t : waiting aid a c = Some t → t_aid t = aid ∧ t ∈ tasks c.
Proof.
  unfold waiting. destruct (list_find _ _) as [[i t']|] eqn:E; [| done].
  intros [= <-]. apply list_find_Some in E as (Hl & [Ht _] & _).
  split; [done |]. by eapply list_elem_of_lookup_2.
Qed.

Lemma off_not_elem ch aid (c : Chat) :
  mkListener ch aid ∉ listeners (off ch aid c).
Proof.
  unfold off, setListeners. cbn. intros [H _]%list_elem_of_filter. by apply H.
Qed.

Lemma off_subset ch aid (c : Chat) l :
  l ∈ listeners (off ch aid c) → l ∈ listeners c.
Proof. unfold off, setListeners. cbn. by intros [_ H]%list_elem_of_filter. Qed.

Lemma deliver_calls ch d (ls : list Listener) c :
  calls (deliver ch d ls c) = calls c.
Proof.
  unfold deliver. revert c. induction ls as [|l ls IH]; intros c; [done |].
  cbn [foldl]. destruct (decide (channel l = ch)); [| apply IH].
  rewrite IH. by destruct ch.
Qed.

Lemma fallback_removes_error_listener ctx aid t c :
  waiting aid AtRag c = Some t →
  mkListener RAGStreamError aid
    ∉ listeners (step true ctx (RagResolved aid (Some (mkRagResult true))) c).
Proof.
  intros Hw. cbn [step]. rewrite Hw.
  apply waiting_aid in Hw as [<- _].
  unfold after_rag, contextWindow, api. cbn.
  rewrite !not_elem_of_app. split_and!.
  - apply (off_not_elem RAGStreamError (t_aid t)
             (off RAGStreamComplete (t_aid t) (off RAGStreamChunk (t_aid t) c))).
  - intros H%list_elem_of_singleton. discriminate.
  - intros H%list_elem_of_singleton. discriminate.
Qed.

(** C2, as amended.  The "Couldn't get a response" state is set by the RAG
    stream-error listener and by nothing else: a step surfaces it only when
    a RAG stream error is delivered while such a listener is registered,
    and then it is surfaced at once, with no call of the raw-context path.
    A RAG result, whatever it reports, changes no error, and a result that
    reports [fallback] removes the error listener of its question before
    the raw-context path starts.  A rejected [ragQueryMeeting] or
    [streamGeminiChat] promise surfaces "Something went wrong" instead. *)
Theorem couldnt_get_response_surfaces (bridge : bool) (ctx : MeetingContext) (c : Chat) :
  (∀ i, errorMessage (step bridge ctx i c) = Some couldnt_get_response →
        errorMessage c = Some couldnt_get_response
        ∨ ∃ data l, i = Event RAGStreamError data
                    ∧ l ∈ listeners c ∧ channel l = RAGStreamError)
  ∧ (∀ data l, l ∈ listeners c → channel l = RAGStreamError →
        errorMessage (step bridge ctx (Event RAGStreamError data) c)
        = Some couldnt_get_response
        ∧ chatState (step bridge ctx (Event RAGStreamError data) c) = error
        ∧ calls (step bridge ctx (Event RAGStreamError data) c) = calls c)
  ∧ (∀ aid result,
        errorMessage (step bridge ctx (RagResolved aid result) c) = errorMessage c)
  ∧ (∀ aid t, waiting aid AtRag c = Some t →
        mkListener RAGStreamError aid
          ∉ listeners (step true ctx (RagResolved aid (Some (mkRagResult true))) c))
  ∧ (∀ aid t, waiting aid AtRag c = Some t →
        errorMessage (step bridge ctx (RagRejected aid) c) = Some something_went_wrong)
  ∧ (∀ aid t, waiting aid AtGemini c = Some t →
        errorMessage (step bridge ctx (GeminiRejected aid) c) = Some something_went_wrong).
Proof.
  split_and!.
  - intros i. destruct i as [q now | aid | aid result | aid | aid | aid | ch d]; cbn [step].
    + unfold submit. destruct (negb _ || _); [by left | discriminate].
    + destruct (waiting aid AtTimer c); [| by left].
      rewrite after_timer_error. by left.
    + destruct (waiting aid AtRag c); [| by left].
      rewrite after_rag_error. by left.
    + destruct (waiting aid AtRag c); [| by left].
      cbn. intros H. exfalso. apply messages_differ. by injection H.
    + destruct (waiting aid AtGemini c); by left.
    + destruct (waiting aid AtGemini c); [| by left].
      cbn. intros H. exfalso. apply messages_differ. by injection H.
    + unfold emit. fold (deliver ch d (listeners c) c).
      intros [H | (-> & l & Hin & Hl)]%deliver_error; [by left |].
      right. by exists d, l.
  - intros d l Hin Hl. cbn [step]. unfold emit.
    fold (deliver RAGStreamError d (listeners c) c).
    destruct (deliver_rag_error d (listeners c) c l Hin Hl) as [He Hs].
    by rewrite He, Hs, deliver_calls.
  - intros aid result. cbn [step].
    destruct (waiting aid AtRag c); [| done]. apply after_rag_error.
  - intros aid t. apply fallback_removes_error_listener.
  - intros aid t Hw. cbn [step]. by rewrite Hw.
  - intros aid t Hw. cbn [step]. by rewrite Hw.
Qed.

(** C2, as stated, fails: the RAG call reported no fallback and its stream
    then fails.  The listener shows "Couldn't get a response" although the
    raw-context path was never tried, and no answer is left. *)
Lemma rag_stream_error_alone_surfaces :
  let aid := AssistantId 1000 in
  let final :=
    run true sync_context
      [Submit "What was decided?" 1000; Timer aid;
       RagResolved aid (Some (mkRagResult false));
       Event RAGStreamError "embedding backend unreachable"]
      initial in
  errorMessage final = Some couldnt_get_response
  ∧ chatState final = error
  ∧ gemini_calls final = []
  ∧ calls final = [ragQueryMeeting "m1" "What was decided?"]
  ∧ answer aid final = None.
Proof. cbv zeta. split_and!; vm_compute; reflexivity. Qed.

End ChatErrorFacts.

(** ** The meeting store: saving a meeting *)
Module SaveFacts.
Import JS Store.

(** The transcript rows [saveMeeting] inserts after the row [first - 1]. *)
Definition transcript_rows (meeting_id : string) (first : nat) (segments : list Segment)
    : list TranscriptRow :=
  imap (fun i segment => mkTranscriptRow (first + i) meeting_id (speaker segment)
                           (text segment) (timestamp segment)) segments.

Definition interaction_rows (meeting_id : string) (first : nat) (us : list Usage)
    : list InteractionRow :=
  imap (fun i u => mkInteractionRow (first + i) meeting_id (u_type u) (u_timestamp u)
                     (or_null (question u)) (answerText u) (metadata_of u)) us.

Definition segments_of (meeting : Meeting) : list Segment := default [] (transcript meeting).
Definition usages_of (meeting : Meeting) : list Usage := default [] (usage meeting).

(** The statements [saveMeeting] runs. *)
Definition statements (meeting : Meeting) : nat :=
  1 + length (segments_of meeting) + length (usages_of meeting).

(** The store after a [saveMeeting] that committed. *)
Definition saved (meeting : Meeting) (startTimeMs durationMs : Z) (db : Tables) : Tables :=
  let base := insert_or_replace_meeting (id meeting)
                (meeting_row meeting startTimeMs durationMs) db in
  let sq := sequences base in
  {| meetings := meetings base;
     transcripts := transcripts base
       ++ transcript_rows (id meeting) (S (seq_transcripts sq)) (segments_of meeting);
     ai_interactions := ai_interactions base
       ++ interaction_rows (id meeting) (S (seq_interactions sq)) (usages_of meeting);
     chunks := chunks base;
     chunk_summaries := chunk_summaries base;
     embedding_queue := embedding_queue base;
     sequences :=
       mkSequences (seq_transcripts sq + length (segments_of meeting))
                   (seq_interactions sq + length (usages_of meeting))
                   (seq_chunks sq) (seq_summaries sq) (seq_queue sq) |}.

Section Faults.
Variable fault : nat -> bool.

Definition fault_free (k n : nat) : Prop := ∀ j, j < n → fault (k + j) = false.
Definition faulty (k n : nat) : Prop := ∃ j, j < n ∧ fault (k + j) = true.

Lemma fault_free_not_faulty k n : fault_free k n → ¬ faulty k n.
Proof. intros Hc (j & Hj & Hf). rewrite Hc in Hf by done. discriminate. Qed.

Lemma fault_free_S k n : fault k = false → fault_free (S k) n → fault_free k (S n).
Proof.
  intros H0 Hc [|j] Hj.
  - by rewrite Nat.add_0_r.
  - rewrite <- Nat.add_succ_comm. apply Hc. lia.
Qed.

Lemma faulty_here k n : fault k = true → faulty k (S n).
Proof. intros H. exists 0. rewrite Nat.add_0_r. split; [lia | done]. Qed.

Lemma faulty_later k n : faulty (S k) n → faulty k (S n).
Proof.
  intros (j & Hj & Hf). exists (S j). rewrite <- Nat.add_succ_comm. split; [lia | done].
Qed.

(** The transcript loop: it ends without exception exactly when none of
    its statements fails, and then it has appended one row per segment. *)
Lemma transcript_loop meeting_id (segments : list Segment) t k r :
  meetings t !! meeting_id = Some r →
  match for_each segments
          (fun segment => run_stmt fault (fun db =>
             pair tt <$> insert_transcript meeting_id (speaker segment)
                           (text segment) (timestamp segment) db))
          (mkExec t k) with
  | (e, Ok _) =>
      fault_free k (length segments)
      ∧ e = mkExec
          {| meetings := meetings t;
             transcripts := transcripts t
               ++ transcript_rows meeting_id (S (seq_transcripts (sequences t))) segments;
             ai_interactions := ai_interactions t;
             chunks := chunks t;
             chunk_summaries := chunk_summaries t;
             embedding_queue := embedding_queue t;
             sequences :=
               mkSequences (seq_transcripts (sequences t) + length segments)
                 (seq_interactions (sequences t)) (seq_chunks (sequences t))
                 (seq_summaries (sequences t)) (seq_queue (sequences t)) |}
          (k + length segments)
  | (_, Throw) => faulty k (length segments)
  end.
Proof.
  revert t k. induction segments as [|s segments IH]; intros t k Hm.
  - cbn. split; [intros j Hj; lia |].
    destruct t as [? ? ? ? ? ? []]. cbn. unfold transcript_rows. cbn.
    by rewrite app_nil_r, !Nat.add_0_r.
  - cbn [for_each]. unfold bind, run_stmt at 1. cbn [tables executed].
    destruct (fault k) eqn:Hk; [by apply faulty_here |].
    unfold insert_transcript at 1. rewrite Hm. cbn [fmap option_fmap option_map].
    match goal with
    | |- context [for_each segments ?body (mkExec ?t' ?k')] =>
        specialize (IH t' k' Hm)
    end.
    cbn [meetings] in IH.
    destruct (for_each segments _ _) as [e [[]|]].
    + destruct IH as [Hc ->]. split; [by apply fault_free_S |].
      cbn. f_equal; [| lia]. f_equal.
      * rewrite <- app_assoc. f_equal. unfold transcript_rows. cbn. f_equal.
        -- f_equal. lia.
        -- apply imap_ext. intros i x _. cbn. f_equal. lia.
      * unfold bump_transcripts. cbn. f_equal. lia.
    + by apply faulty_later.
Qed.

(** The interaction loop, likewise. *)
Lemma interaction_loop meeting_id (us : list Usage) t k r :
  meetings t !! meeting_id = Some r →
  match for_each us
          (fun u =>
             let metadata := metadata_of u in
             let answerText := answerText u in
             let queryText := or_null (question u) in
             run_stmt fault (fun db =>
               pair tt <$> insert_interaction meeting_id (u_type u) (u_timestamp u)
                             queryText answerText metadata db))
          (mkExec t k) with
  | (e, Ok _) =>
      fault_free k (length us)
      ∧ e = mkExec
          {| meetings := meetings t;
             transcripts := transcripts t;
             ai_interactions := ai_interactions t
               ++ interaction_rows meeting_id (S (seq_interactions (sequences t))) us;
             chunks := chunks t;
             chunk_summaries := chunk_summaries t;
             embedding_queue := embedding_queue t;
             sequences :=
               mkSequences (seq_transcripts (sequences t))
                 (seq_interactions (sequences t) + length us) (seq_chunks (sequences t))
                 (seq_summaries (sequences t)) (seq_queue (sequences t)) |}
          (k + length us)
  | (_, Throw) => faulty k (length us)
  end.
Proof.
  revert t k. induction us as [|u us IH]; intros t k Hm.
  - cbn. split; [intros j Hj; lia |].
    destruct t as [? ? ? ? ? ? []]. cbn. unfold interaction_rows. cbn.
    by rewrite app_nil_r, !Nat.add_0_r.
  - cbn [for_each]. cbv zeta. unfold bind, run_stmt at 1. cbn [tables executed].
    destruct (fault k) eqn:Hk; [by apply faulty_here |].
    unfold insert_interaction at 1. rewrite Hm. cbn [fmap option_fmap option_map].
    match goal with
    | |- context [for_each us ?body (mkExec ?t' ?k')] =>
        specialize (IH t' k' Hm)
    end.
    cbn [meetings] in IH. cbv zeta in IH.
    destruct (for_each us _ _) as [e [[]|]].
    + destruct IH as [Hc ->]. split; [by apply fault_free_S |].
      cbn. f_equal; [| lia]. f_equal.
      * rewrite <- app_assoc. f_equal. unfold interaction_rows. cbn. f_equal.
        -- f_equal. lia.
        -- apply imap_ext. intros i x _. cbn. f_equal. lia.
      * unfold bump_interactions. cbn. f_equal. lia.
    + by apply faulty_later.
Qed.

Lemma fault_free_split k n1 n2 :
  fault_free k n1 → fault_free (k + n1) n2 → fault_free k (n1 + n2).
Proof.
  intros H1 H2 j Hj. destruct (decide (j < n1)) as [Hlt|Hge]; [by apply H1 |].
  replace (k + j) with (k + n1 + (j - n1)) by lia. apply H2. lia.
Qed.

Lemma faulty_left k n1 n2 : faulty k n1 → faulty k (n1 + n2).
Proof. intros (j & Hj & Hf). exists j. split; [lia | done]. Qed.

Lemma faulty_right k n1 n2 : faulty (k + n1) n2 → faulty k (n1 + n2).
Proof.
  intros (j & Hj & Hf). exists (n1 + j). split; [lia |].
  by rewrite Nat.add_assoc.
Qed.

(** The body of the transaction: it ends without exception exactly when
    none of its statements fails, and then every row is in. *)
Lemma saveMeeting_body_loops meeting startTimeMs durationMs :
  saveMeeting_body fault meeting startTimeMs durationMs
  = (run_stmt fault (fun db => Some (tt, insert_or_replace_meeting (id meeting)
                                       (meeting_row meeting startTimeMs durationMs) db)) ;;;
     for_each (segments_of meeting) (fun segment =>
       run_stmt fault (fun db => pair tt <$> insert_transcript (id meeting) (speaker segment)
                                          (text segment) (timestamp segment) db)) ;;;
     for_each (usages_of meeting) (fun u =>
       let metadata := metadata_of u in
       let answerText := answerText u in
       let queryText := or_null (question u) in
       run_stmt fault (fun db => pair tt <$> insert_interaction (id meeting) (u_type u)
                                          (u_timestamp u) queryText answerText metadata db))).
Proof.
  unfold saveMeeting_body, segments_of, usages_of.
  by destruct (transcript meeting), (usage meeting).
Qed.

Ltac case_run H :=
  match type of H with
  | match ?x with _ => _ end => destruct x as [? [[]|]]
  end.

(** The body of the transaction: it ends without exception exactly when
    none of its statements fails, and then every row is in. *)
Lemma saveMeeting_body_runs meeting startTimeMs durationMs db :
  match saveMeeting_body fault meeting startTimeMs durationMs (mkExec db 0) with
  | (e, Ok _) =>
      fault_free 0 (statements meeting)
      ∧ tables e = saved meeting startTimeMs durationMs db
  | (_, Throw) => faulty 0 (statements meeting)
  end.
Proof.
  rewrite saveMeeting_body_loops. unfold statements.
  unfold bind at 1, run_stmt at 1. cbn [tables executed].
  destruct (fault 0) eqn:H0; [by apply (faulty_here 0) |].
  set (base := insert_or_replace_meeting (id meeting)
                 (meeting_row meeting startTimeMs durationMs) db).
  assert (Hm : meetings base !! id meeting
               = Some (meeting_row meeting startTimeMs durationMs)).
  { unfold base, insert_or_replace_meeting. cbn. apply lookup_insert_eq. }
  unfold bind at 1.
  pose proof (transcript_loop (id meeting) (segments_of meeting) base 1 _ Hm) as H1.
  case_run H1.
  - destruct H1 as [Hc1 ->].
    match goal with
    | |- context [mkExec ?t' (1 + ?n)] => set (mid := t')
    end.
    assert (Hm' : meetings mid !! id meeting
                  = Some (meeting_row meeting startTimeMs durationMs)) by exact Hm.
    pose proof (interaction_loop (id meeting) (usages_of meeting) mid
                  (1 + length (segments_of meeting)) _ Hm') as H2.
    case_run H2.
    + destruct H2 as [Hc2 ->]. split.
      * apply (fault_free_split 0 (1 + length (segments_of meeting))); [| done].
        apply fault_free_S; [done | exact Hc1].
      * reflexivity.
    + apply (faulty_right 0 (1 + length (segments_of meeting))). exact H2.
  - apply (faulty_left 0 (1 + length (segments_of meeting))).
    by apply faulty_later.
Qed.

End Faults.

Definition two_segment_meeting : Meeting :=
  {| id := "m7"; m_title := "Kickoff"; date := "2024-02-01"; duration := "0:20";
     summary := "Kickoff."; detailedSummary := None;
     transcript := Some [mkSegment "user" "Hello." 0; mkSegment "interviewer" "Hi." 900];
     usage := Some [mkUsage "assist" 1000 (Some "What next?") (Some (AnswerText "Ask.")) None];
     calendarEventId := None; m_source := None; isProcessed := Some true |}.

(** The second transcript insert fails: nothing of the call is kept. *)
Example saveMeeting_rolls_back :
  saveMeeting (fun k => Nat.eqb k 2) two_segment_meeting 0 20000 empty = (empty, Throw).
Proof. vm_compute. reflexivity. Qed.

Example saveMeeting_commits :
  let db := fst (saveMeeting (fun _ => false) two_segment_meeting 0 20000 empty) in
  (t_id <$> transcripts db, i_id <$> ai_interactions db, sequences db)
  = ([1; 2], [1], mkSequences 2 1 0 0 0).
Proof. vm_compute. reflexivity. Qed.

(** C8.  [saveMeeting] is atomic.  The meeting row, every transcript row
    and every interaction row are inserted by the statements of one
    transaction: when none of them fails, all the rows are stored; when one
    of them fails, the store is what it was before the call and the error
    is thrown again. *)
Theorem saveMeeting_atomic
    (fault : nat -> bool) (meeting : Meeting) (startTimeMs durationMs : Z) (db : Tables) :
  ((∀ k, k < statements meeting → fault k = false) →
   saveMeeting fault meeting startTimeMs durationMs db
   = (saved meeting startTimeMs durationMs db, Ok tt))
  ∧ ((∃ k, k < statements meeting ∧ fault k = true) →
     saveMeeting fault meeting startTimeMs durationMs db = (db, Throw))
  ∧ (snd (saveMeeting fault meeting startTimeMs durationMs db) = Throw →
     fst (saveMeeting fault meeting startTimeMs durationMs db) = db).
Proof.
  pose proof (saveMeeting_body_runs fault meeting startTimeMs durationMs db) as H.
  unfold saveMeeting, transaction.
  destruct (saveMeeting_body fault meeting startTimeMs durationMs (mkExec db 0))
    as [e [[]|]].
  - destruct H as [Hc He]. split_and!.
    + intros _. by rewrite He.
    + intros Hf. exfalso. by apply (fault_free_not_faulty fault 0 (statements meeting)).
    + discriminate.
  - split_and!; [| done | done].
    intros Hc. exfalso. by apply (fault_free_not_faulty fault 0 (statements meeting)).
Qed.

End SaveFacts.

(** ** The meeting store: updating a summary *)
Module SummaryFacts.
Import JS Store.

(** What [JSON.stringify] keeps of a property value. *)
Definition kept (v : value) : option value :=
  match to_json v with
  | VUndefined => None
  | y => Some y
  end.

Lemma to_json_obj (m : gmap string value) : to_json (VObj m) = VObj (omap kept m).
Proof. reflexivity. Qed.

(** The cell holds JSON: reading back what [JSON.stringify] writes for the
    value gives the value. *)
Definition is_json (v : value) : Prop := to_json v = v.

Lemma is_json_lookup (m : gmap string value) k v :
  is_json (VObj m) → m !! k = Some v → kept v = Some v.
Proof.
  unfold is_json. rewrite to_json_obj. intros [= H] Hk.
  apply (f_equal (fun m' => m' !! k)) in H. by rewrite lookup_omap, Hk in H.
Qed.

Lemma is_json_field (m : gmap string value) k v :
  is_json (VObj m) → m !! k = Some v → is_json v.
Proof.
  intros Hm Hk. pose proof (is_json_lookup m k v Hm Hk) as H.
  unfold kept in H. unfold is_json. by destruct (to_json v); simplify_eq.
Qed.

(** The row [id] with a new [summary_json], everything else as it is. *)
Definition with_summary_json (id : string) (row : MeetingRow) (json : Text) (db : Tables)
    : Tables :=
  {| meetings := <[id := {| title := title row; start_time := start_time row;
                           duration_ms := duration_ms row;
                           summary_json := Some json;
                           created_at := created_at row;
                           calendar_event_id := calendar_event_id row;
                           source := source row;
                           is_processed := is_processed row |}]> (meetings db);
     transcripts := transcripts db;
     ai_interactions := ai_interactions db;
     chunks := chunks db;
     chunk_summaries := chunk_summaries db;
     embedding_queue := embedding_queue db;
     sequences := sequences db |}.

(** The stored [detailedSummary] object; no object when the key is absent. *)
Definition stored_detailed (existing : gmap string value) : gmap string value :=
  match existing !! "detailedSummary" with
  | Some (VObj d) => d
  | _ => ∅
  end.

Lemma updateMeetingSummary_missing fault id updates db :
  meetings db !! id = None →
  updateMeetingSummary fault id updates db = (db, false).
Proof.
  intros Hm. unfold updateMeetingSummary, bind, run_stmt. cbn.
  destruct (fault 0); [done |]. by rewrite Hm.
Qed.

Lemma updateMeetingSummary_stored fault id updates db row existing :
  fault 0 = false → fault 1 = false →
  meetings db !! id = Some row →
  summary_json row = Some (JsonText (VObj existing)) →
  is_json (VObj existing) →
  (existing !! "detailedSummary" = None
   ∨ ∃ d, existing !! "detailedSummary" = Some (VObj d)) →
  updateMeetingSummary fault id updates db
  = (with_summary_json id row
       (JsonText (VObj (<["detailedSummary" :=
                            VObj (omap kept (updates ∪ stored_detailed existing))]> existing)))
       db, true).
Proof.
  intros H0 H1 Hm Hs Hj Hd.
  unfold updateMeetingSummary, bind, run_stmt. cbn [tables executed].
  rewrite H0, Hm, Hs. cbn [parse_or_empty prop tables executed]. rewrite H1.
  unfold update_summary_json. rewrite Hm. cbn [ret spread].
  assert (Hspread :
    spread (if js_truthy (default VUndefined (existing !! "detailedSummary"))
            then default VUndefined (existing !! "detailedSummary") else VObj ∅)
    = stored_detailed existing).
  { unfold stored_detailed. destruct Hd as [-> | [d ->]]; reflexivity. }
  rewrite Hspread. unfold stringify, with_summary_json.
  rewrite to_json_obj, omap_insert. cbn [kept]. unfold kept at 1.
  rewrite to_json_obj.
  unfold is_json in Hj. rewrite to_json_obj in Hj. injection Hj as Hj. rewrite Hj.
  reflexivity.
Qed.

(** C9.  [updateMeetingSummary] returns [false] and changes nothing when
    no meeting has the id.  For a stored meeting whose [summary_json] is a
    JSON object with a [detailedSummary] object (or none), when its two
    statements run, it returns [true] and rewrites only that cell: every
    top-level key other than [detailedSummary], the legacy summary text
    among them, is as before; inside [detailedSummary] a key that is not in
    [updates] is as before, and a key of [updates] holds what
    [JSON.stringify] keeps of the update. *)
Theorem updateMeetingSummary_frame
    (fault : nat -> bool) (id : string) (updates : gmap string value) (db : Tables) :
  (meetings db !! id = None →
   updateMeetingSummary fault id updates db = (db, false))
  ∧ (∀ row existing,
       fault 0 = false → fault 1 = false →
       meetings db !! id = Some row →
       summary_json row = Some (JsonText (VObj existing)) →
       is_json (VObj existing) →
       (existing !! "detailedSummary" = None
        ∨ ∃ d, existing !! "detailedSummary" = Some (VObj d)) →
       ∃ stored detailed,
         updateMeetingSummary fault id updates db
         = (with_summary_json id row (JsonText (VObj stored)) db, true)
         ∧ stored !! "detailedSummary" = Some (VObj detailed)
         ∧ (∀ k, k ≠ "detailedSummary" → stored !! k = existing !! k)
         ∧ (∀ legacy, existing !! "legacySummary" = Some (VStr legacy) →
                      stored !! "legacySummary" = Some (VStr legacy))
         ∧ (∀ k, updates !! k = None → detailed !! k = stored_detailed existing !! k)
         ∧ (∀ k v, updates !! k = Some v → detailed !! k = kept v)).
Proof.
  split; [apply updateMeetingSummary_missing |].
  intros row existing H0 H1 Hm Hs Hj Hd.
  exists (<["detailedSummary" := VObj (omap kept (updates ∪ stored_detailed existing))]> existing),
         (omap kept (updates ∪ stored_detailed existing)).
  split_and!.
  - by apply updateMeetingSummary_stored.
  - apply lookup_insert_eq.
  - intros k Hk. by rewrite lookup_insert_ne.
  - intros legacy Hl. by rewrite lookup_insert_ne.
  - intros k Hk. rewrite lookup_omap, lookup_union_r by done.
    destruct (stored_detailed existing !! k) as [v|] eqn:Hv; [| done]. cbn.
    unfold stored_detailed in Hv.
    destruct (existing !! "detailedSummary") as [[| | | | | |d]|] eqn:Hds;
      try (by rewrite lookup_empty in Hv).
    apply (is_json_lookup d k v); [| done].
    by apply (is_json_field existing "detailedSummary").
  - intros k v Hk. rewrite lookup_omap.
    by rewrite (lookup_union_Some_l updates _ k v Hk).
Qed.

Definition demo_summary : gmap string value :=
  <["legacySummary" := VStr "Discussion about the roadmap."]>
    (<["detailedSummary" :=
         VObj (<["actionItems" := strings ["Schedule the follow-up demo"]]>
                 (<["keyPoints" := strings ["Latency matters"]]> ∅))]> ∅).

Definition demo_db : Tables :=
  {| meetings :=
       {[ "demo-meeting-002" :=
            mkMeetingRow "Natively Demo" 0 288000 (Some (JsonText (VObj demo_summary)))
              "2024-01-01T09:30:00.000Z" None (Some "manual") 1 ]};
     transcripts := [];
     ai_interactions := [];
     chunks := [];
     chunk_summaries := [];
     embedding_queue := [];
     sequences := mkSequences 0 0 0 0 0 |}.

(** An overview is added: the two lists and the legacy text stay. *)
Example updateMeetingSummary_adds_overview :
  let '(db', ok) := updateMeetingSummary (fun _ => false) "demo-meeting-002"
                      {[ "overview" := VStr "A short demo." ]} demo_db in
  ok = true
  ∧ (summary_json <$> meetings db' !! "demo-meeting-002")
    = Some (Some (JsonText (VObj
        (<["legacySummary" := VStr "Discussion about the roadmap."]>
           (<["detailedSummary" :=
                VObj (<["overview" := VStr "A short demo."]>
                        (<["actionItems" := strings ["Schedule the follow-up demo"]]>
                           (<["keyPoints" := strings ["Latency matters"]]> ∅)))]> ∅))))).
Proof. vm_compute. split; reflexivity. Qed.

(** The frame at the demo meeting: after an overview is added the call
    returns [true], the key points inside [detailedSummary] and the legacy
    text are the stored ones, and the overview is the new one. *)
Lemma updateMeetingSummary_frame_witness :
  ∃ stored detailed,
    updateMeetingSummary (fun _ => false) "demo-meeting-002"
      {[ "overview" := VStr "A short demo." ]} demo_db
    = (with_summary_json "demo-meeting-002"
         (mkMeetingRow "Natively Demo" 0 288000 (Some (JsonText (VObj demo_summary)))
            "2024-01-01T09:30:00.000Z" None (Some "manual") 1)
         (JsonText (VObj stored)) demo_db, true)
    ∧ stored !! "detailedSummary" = Some (VObj detailed)
    ∧ stored !! "legacySummary" = Some (VStr "Discussion about the roadmap.")
    ∧ detailed !! "keyPoints" = Some (strings ["Latency matters"])
    ∧ detailed !! "overview" = Some (VStr "A short demo.").
Proof.
  destruct (updateMeetingSummary_frame (fun _ => false) "demo-meeting-002"
              {[ "overview" := VStr "A short demo." ]} demo_db) as [_ H].
  destruct (H (mkMeetingRow "Natively Demo" 0 288000
                 (Some (JsonText (VObj demo_summary)))
                 "2024-01-01T09:30:00.000Z" None (Some "manual") 1)
              demo_summary)
    as (stored & detailed & Hrun & Hd & _ & Hlegacy & Hkeep & Hnew).
  - reflexivity.
  - reflexivity.
  - vm_compute. reflexivity.
  - reflexivity.
  - vm_compute. reflexivity.
  - right. eexists. vm_compute. reflexivity.
  - exists stored, detailed. split; [exact Hrun |]. split; [exact Hd |].
    split; [apply Hlegacy; vm_compute; reflexivity |].
    split.
    + rewrite Hkeep by (vm_compute; reflexivity). vm_compute. reflexivity.
    + rewrite (Hnew "overview" (VStr "A short demo.")) by (vm_compute; reflexivity).
      vm_compute. reflexivity.
Defined.

End SummaryFacts.

(** ** The chunker *)
Module ChunkerFacts.
Import JS Rag.

Lemma sublist_strongly_sorted {A} (R : relation A) (l1 l2 : list A) :
  l1 `sublist_of` l2 → StronglySorted R l2 → StronglySorted R l1.
Proof.
  induction 1 as [|x l1 l2 Hsub IH|x l1 l2 Hsub IH]; intros Hs.
  - constructor.
  - apply StronglySorted_inv in Hs as [Hs Hall]. constructor; [by apply IH |].
    rewrite Forall_forall in *. intros y Hy. apply Hall.
    by eapply elem_of_sublist.
  - apply StronglySorted_inv in Hs as [Hs _]. by apply IH.
Qed.








Definition words (s : string) : nat := String.length s.

Definition demo_config : ChunkerConfig :=
  {| estimate := words; ceiling := 40; max_span := 60000; min_buffer := 10 |}.

Definition demo_utterances : list Utterance :=
  [mkUtterance self "So, can you tell me more about the latency?" 0;
   mkUtterance other "We are under 200ms." 5000;
   mkUtterance self "Yes, exactly." 20000].



(** The first utterance reaches the ceiling alone, the third changes the
    speaker, and the flush closes the last chunk. *)
Example demo_chunks :
  (fun c => (chunk_index c, start_ts c, end_ts c))
    <$> chunks_of_transcript demo_config "m1" demo_utterances true
  = [(0, 0%Z, 0%Z); (1, 5000%Z, 5000%Z); (2, 20000%Z, 20000%Z)].
Proof. vm_compute. reflexivity. Qed.

End ChunkerFacts.

(** ** The meeting store: what each operation leaves behind *)
Module StoreOpsFacts.
Import JS Store SaveFacts.

Lemma saveMeeting_result fault meeting s d db :
  fst (saveMeeting fault meeting s d db) = db
  ∨ fst (saveMeeting fault meeting s d db) = saved meeting s d db.
Proof.
  pose proof (saveMeeting_body_runs fault meeting s d db) as H.
  unfold saveMeeting, transaction.
  destruct (saveMeeting_body fault meeting s d (mkExec db 0)) as [e [[]|]].
  - right. by destruct H as [_ ->].
  - by left.
Qed.

Lemma updateMeetingTitle_result fault id new_title db :
  fst (updateMeetingTitle fault id new_title db) = db
  ∨ fst (updateMeetingTitle fault id new_title db) = snd (update_title id new_title db).
Proof.
  unfold updateMeetingTitle, run_stmt. cbn.
  destruct (fault 0); [by left |].
  destruct (update_title id new_title db) as [n t]. by right.
Qed.

Lemma updateMeetingSummary_result fault id updates db :
  fst (updateMeetingSummary fault id updates db) = db
  ∨ ∃ json, fst (updateMeetingSummary fault id updates db)
            = snd (update_summary_json id json db).
Proof.
  unfold updateMeetingSummary, bind, run_stmt. cbn [tables executed].
  destruct (fault 0); [by left |].
  destruct (meetings db !! id) as [row|]; [| by left].
  destruct (parse_or_empty (summary_json row)) as [existing|]; [| by left].
  destruct (prop "detailedSummary" existing) as [d|]; [| by left].
  cbn [tables executed]. destruct (fault 1); [by left |].
  right.
  match goal with
  | |- context [update_summary_json id ?j db] =>
      exists j; by destruct (update_summary_json id j db)
  end.
Qed.

Lemma deleteMeeting_result fault id db :
  deleteMeeting fault id db = (db, false)
  ∨ (is_Some (meetings db !! id)
     ∧ deleteMeeting fault id db = (delete_meeting_row id db, true)).
Proof.
  unfold deleteMeeting, run_stmt, delete_from_meetings. cbn.
  destruct (fault 0); [by left |].
  destruct (meetings db !! id) as [row|]; [right | by left].
  split; [by eexists | done].
Qed.

Lemma deleteMeeting_runs fault id db :
  fault 0 = false →
  deleteMeeting fault id db
  = match meetings db !! id with
    | Some _ => (delete_meeting_row id db, true)
    | None => (db, false)
    end.
Proof.
  intros H0. unfold deleteMeeting, run_stmt, delete_from_meetings. cbn.
  rewrite H0. by destruct (meetings db !! id).
Qed.

(** The chunks a replaced or deleted meeting row takes with it. *)
Lemma saved_chunks meeting s d db :
  chunks (saved meeting s d db)
  = match meetings db !! id meeting with
    | Some _ => filter (fun r => c_meeting_id r ≠ id meeting) (chunks db)
    | None => chunks db
    end.
Proof.
  unfold saved, insert_or_replace_meeting, delete_from_meetings. cbn.
  by destruct (meetings db !! id meeting).
Qed.

Lemma saved_chunk_summaries meeting s d db :
  chunk_summaries (saved meeting s d db)
  = match meetings db !! id meeting with
    | Some _ => filter (fun r => s_meeting_id r ≠ id meeting) (chunk_summaries db)
    | None => chunk_summaries db
    end.
Proof.
  unfold saved, insert_or_replace_meeting, delete_from_meetings. cbn.
  by destruct (meetings db !! id meeting).
Qed.

Lemma saved_queue meeting s d db :
  embedding_queue (saved meeting s d db) = embedding_queue db
  ∧ seq_queue (sequences (saved meeting s d db)) = seq_queue (sequences db)
  ∧ seq_summaries (sequences (saved meeting s d db)) = seq_summaries (sequences db).
Proof.
  unfold saved, insert_or_replace_meeting, delete_from_meetings. cbn.
  by destruct (meetings db !! id meeting).
Qed.

Lemma saved_meetings meeting s d db k :
  is_Some (meetings db !! k) → is_Some (meetings (saved meeting s d db) !! k).
Proof.
  unfold saved, insert_or_replace_meeting, delete_from_meetings. cbn.
  intros Hk. destruct (decide (id meeting = k)) as [->|Hne].
  - rewrite lookup_insert_eq. by eexists.
  - rewrite lookup_insert_ne by done.
    destruct (meetings db !! id meeting); cbn; [| done].
    by rewrite lookup_delete_ne.
Qed.

Lemma update_title_tables id new_title db :
  let t := snd (update_title id new_title db) in
  transcripts t = transcripts db ∧ ai_interactions t = ai_interactions db
  ∧ chunks t = chunks db ∧ chunk_summaries t = chunk_summaries db
  ∧ embedding_queue t = embedding_queue db ∧ sequences t = sequences db
  ∧ ∀ k, is_Some (meetings db !! k) → is_Some (meetings t !! k).
Proof.
  unfold update_title. destruct (meetings db !! id) as [row|] eqn:Hm; cbn.
  - split_and!; try done. intros k Hk.
    destruct (decide (id = k)) as [->|Hne].
    + rewrite lookup_insert_eq. by eexists.
    + by rewrite lookup_insert_ne.
  - split_and!; done.
Qed.

Lemma update_summary_json_tables id json db :
  let t := snd (update_summary_json id json db) in
  transcripts t = transcripts db ∧ ai_interactions t = ai_interactions db
  ∧ chunks t = chunks db ∧ chunk_summaries t = chunk_summaries db
  ∧ embedding_queue t = embedding_queue db ∧ sequences t = sequences db
  ∧ ∀ k, is_Some (meetings db !! k) → is_Some (meetings t !! k).
Proof.
  unfold update_summary_json. destruct (meetings db !! id) as [row|] eqn:Hm; cbn.
  - split_and!; try done. intros k Hk.
    destruct (decide (id = k)) as [->|Hne].
    + rewrite lookup_insert_eq. by eexists.
    + by rewrite lookup_insert_ne.
  - split_and!; done.
Qed.

End StoreOpsFacts.

(** ** The embedding queue *)
Module QueueFacts.
Import JS Rag.

(** The retry count is within the maximum, and below it while the job is
    not failed for good. *)
Definition bounded (cfg : QueueConfig) (j : Store.JobRow) : Prop :=
  Store.retry_count j ≤ max_retries cfg
  ∧ (Store.status j ≠ Store.failed → Store.retry_count j < max_retries cfg).

Definition issued (st : State) : nat := Store.seq_queue (Store.sequences (db st)).

Record queue_ok (cfg : QueueConfig) (st : State) : Prop := mk_queue_ok {
  ids_unique : NoDup (Store.j_id <$> jobs st);
  ids_issued : Forall (fun j => Store.j_id j ≤ issued st) (jobs st);
  jobs_bounded : Forall (bounded cfg) (jobs st)
}.

Lemma queue_ok_ext cfg st st' :
  jobs st' = jobs st → issued st' = issued st → queue_ok cfg st → queue_ok cfg st'.
Proof.
  intros Hj Hi [H1 H2 H3]. split; rewrite ?Hj, ?Hi; done.
Qed.

Lemma submseteq_NoDup {A} (l1 l2 : list A) : l1 ⊆+ l2 → NoDup l2 → NoDup l1.
Proof.
  intros [k Hk]%submseteq_Permutation Hn. rewrite Hk in Hn.
  by apply NoDup_app in Hn as [? _].
Qed.

Lemma same_id_same_row (l : list Store.JobRow) a b :
  NoDup (Store.j_id <$> l) → a ∈ l → b ∈ l → Store.j_id a = Store.j_id b → a = b.
Proof.
  induction l as [|x l IH]; [by inversion 2 |].
  rewrite fmap_cons. intros [Hx Hn]%NoDup_cons Ha Hb Hid.
  apply elem_of_cons in Ha as [-> | Ha]; apply elem_of_cons in Hb as [-> | Hb].
  - done.
  - destruct Hx. rewrite Hid. by apply list_elem_of_fmap_2.
  - destruct Hx. rewrite <- Hid. by apply list_elem_of_fmap_2.
  - by apply IH.
Qed.

(** *** Selection *)

Lemma select_submseteq batch now st : select batch now st ⊆+ jobs st.
Proof.
  unfold select. etrans; [apply submseteq_take |].
  etrans; [apply Permutation_submseteq, merge_sort_Permutation |].
  apply sublist_submseteq, sublist_filter.
Qed.

Lemma select_eligible batch now st j :
  j ∈ select batch now st → j ∈ jobs st ∧ eligible now st j.
Proof.
  unfold select. intros Hin.
  pose proof (elem_of_submseteq _ _ _ Hin (submseteq_take _ _)) as Hin'.
  rewrite merge_sort_Permutation in Hin'.
  apply list_elem_of_filter in Hin' as [He Hj]. done.
Qed.

Lemma select_pending batch now st :
  Forall (fun j => Store.status j = Store.pending) (select batch now st).
Proof.
  apply Forall_forall. intros j Hj. by apply select_eligible in Hj as [_ [Hp _]].
Qed.

(** *** Rows of the queue after each step *)

Definition on_id (id : nat) (f : Store.JobRow -> Store.JobRow) (j : Store.JobRow)
    : Store.JobRow :=
  if decide (Store.j_id j = id) then f j else j.

Lemma update_job_jobs id f st : jobs (update_job id f st) = on_id id f <$> jobs st.
Proof. reflexivity. Qed.

Lemma update_job_issued id f st : issued (update_job id f st) = issued st.
Proof. reflexivity. Qed.

Definition keeps_id (f : Store.JobRow -> Store.JobRow) : Prop :=
  ∀ j, Store.j_id (f j) = Store.j_id j.

Lemma on_id_keeps_id id f : keeps_id f → keeps_id (on_id id f).
Proof. intros Hf j. unfold on_id. by case_decide. Qed.

Lemma fmap_keeps_ids f (l : list Store.JobRow) :
  keeps_id f → Store.j_id <$> (f <$> l) = Store.j_id <$> l.
Proof.
  intros Hf. rewrite <- list_fmap_compose. apply list_fmap_ext.
  intros i x _. apply Hf.
Qed.

(** Rewriting the rows of one id keeps the queue in order when the new rows
    are within bounds. *)
Lemma update_job_ok cfg id f st :
  keeps_id f →
  (∀ j, j ∈ jobs st → Store.j_id j = id → bounded cfg (f j)) →
  queue_ok cfg st → queue_ok cfg (update_job id f st).
Proof.
  intros Hf Hb [H1 H2 H3]. split.
  - rewrite update_job_jobs, fmap_keeps_ids; [done | by apply on_id_keeps_id].
  - rewrite update_job_jobs, update_job_issued. apply Forall_fmap.
    eapply Forall_impl; [exact H2 |]. intros j Hj. cbn.
    by rewrite (on_id_keeps_id id f Hf).
  - rewrite update_job_jobs. apply Forall_fmap, Forall_forall. intros j Hj. cbn.
    unfold on_id. case_decide; [by apply Hb |].
    by apply (proj1 (Forall_forall _ _) H3).
Qed.

Lemma set_status_keeps_id s : keeps_id (set_status s).
Proof. by intros j. Qed.

Lemma complete_keeps_id now : keeps_id (complete now).
Proof. by intros j. Qed.

Lemma fail_keeps_id cfg retryable msg : keeps_id (fail cfg retryable msg).
Proof. intros j. unfold fail. by destruct (_ && _). Qed.

Lemma set_status_bounded cfg s j :
  Store.status j ≠ Store.failed → bounded cfg j → bounded cfg (set_status s j).
Proof. intros Hs [H1 H2]. split; cbn; [done |]. intros _. by apply H2. Qed.

Lemma complete_bounded cfg now j :
  Store.status j ≠ Store.failed → bounded cfg j → bounded cfg (complete now j).
Proof. intros Hs [H1 H2]. split; cbn; [done |]. intros _. by apply H2. Qed.

(** A failure of a job that was not failed keeps the count within the
    maximum, and leaves it pending only below the maximum. *)
Lemma fail_bounded cfg retryable msg j :
  Store.status j ≠ Store.failed → bounded cfg j → bounded cfg (fail cfg retryable msg j).
Proof.
  intros Hs [H1 H2]. specialize (H2 Hs). unfold fail.
  destruct (retryable && (S (Store.retry_count j) <? max_retries cfg)) eqn:E.
  - apply andb_true_iff in E as [_ E%Nat.ltb_lt]. split; cbn; [lia | done].
  - split; cbn; [lia | done].
Qed.

(** *** What the queue leaves alone *)

Definition chunk_keys (t : Store.Tables) : list (nat * string) :=
  (fun r => (Store.c_id r, Store.c_meeting_id r)) <$> Store.chunks t.

Definition summary_keys (t : Store.Tables) : list string :=
  Store.s_meeting_id <$> Store.chunk_summaries t.

(** The meetings, the chunks with their meetings, the meetings that have a
    summary and the issued job ids are the same in both states. *)
Definition frame (st st' : State) : Prop :=
  Store.meetings (db st') = Store.meetings (db st)
  ∧ chunk_keys (db st') = chunk_keys (db st)
  ∧ summary_keys (db st') = summary_keys (db st)
  ∧ issued st' = issued st.

Lemma frame_refl st : frame st st.
Proof. by split_and!. Qed.

Lemma frame_trans st1 st2 st3 : frame st1 st2 → frame st2 st3 → frame st1 st3.
Proof. intros (?&?&?&?) (?&?&?&?). split_and!; congruence. Qed.

Lemma update_job_frame id f st : frame st (update_job id f st).
Proof. by split_and!. Qed.

Lemma write_embedding_frame j v st : frame st (set_db (write_embedding j v (db st)) st).
Proof.
  unfold write_embedding, frame, chunk_keys, summary_keys.
  destruct (Store.chunk_id j) as [c|]; cbn; split_and!; try done.
  - rewrite <- list_fmap_compose. apply list_fmap_ext. intros i r _. cbn.
    unfold set_chunk_embedding. by case_decide.
  - rewrite <- list_fmap_compose. apply list_fmap_ext. intros i r _. cbn.
    unfold set_summary_embedding. by case_decide.
Qed.

(** *** Claiming *)

(** None of the jobs with these ids is failed. *)
Definition live (st : State) (ids : list nat) : Prop :=
  ∀ row, row ∈ jobs st → Store.j_id row ∈ ids → Store.status row ≠ Store.failed.

Definition claimed (sel : list Store.JobRow) (row : Store.JobRow) : Store.JobRow :=
  if decide (Store.j_id row ∈ Store.j_id <$> sel)
  then set_status Store.in_progress row else row.

Lemma claim_cons now j sel st :
  claim now (j :: sel) st
  = {| db := db (update_job (Store.j_id j) (set_status Store.in_progress) (claim now sel st));
       not_before := not_before (claim now sel st);
       claimed_at := <[Store.j_id j := now]> (claimed_at (claim now sel st)) |}.
Proof. reflexivity. Qed.

Lemma claim_jobs now sel st : jobs (claim now sel st) = claimed sel <$> jobs st.
Proof.
  induction sel as [|j sel IH].
  - cbn. unfold claimed. symmetry. etrans; [| apply list_fmap_id].
    apply list_fmap_ext. intros i x _. cbn. rewrite decide_False; [done |].
    apply not_elem_of_nil.
  - rewrite claim_cons.
    change (jobs {| db := db ?s; not_before := _; claimed_at := _ |}) with (jobs s).
    rewrite update_job_jobs, IH, <- list_fmap_compose.
    apply list_fmap_ext. intros i row _. cbn. unfold on_id, claimed.
    rewrite fmap_cons.
    destruct (decide (Store.j_id row ∈ Store.j_id j :: (Store.j_id <$> sel)))
      as [Hin'|Hnot'];
      destruct (decide (Store.j_id row ∈ Store.j_id <$> sel)) as [Hin|Hnot].
    + by case_decide.
    + apply elem_of_cons in Hin' as [Heq | ?]; [| done]. by rewrite decide_True.
    + destruct Hnot'. apply elem_of_cons. by right.
    + rewrite decide_False; [done |]. intros Heq. apply Hnot', elem_of_cons. by left.
Qed.

Lemma claim_frame now sel st : frame st (claim now sel st).
Proof.
  induction sel as [|j sel IH]; [apply frame_refl |].
  rewrite claim_cons. eapply frame_trans; [exact IH |].
  apply (update_job_frame (Store.j_id j) (set_status Store.in_progress) (claim now sel st)).
Qed.

Lemma claimed_keeps_id sel : keeps_id (claimed sel).
Proof. intros j. unfold claimed. by case_decide. Qed.

Lemma claim_ok cfg now sel st :
  queue_ok cfg st → live st (Store.j_id <$> sel) →
  queue_ok cfg (claim now sel st) ∧ live (claim now sel st) (Store.j_id <$> sel).
Proof.
  intros [H1 H2 H3] Hlive. split; [split |].
  - rewrite claim_jobs, fmap_keeps_ids; [done | apply claimed_keeps_id].
  - rewrite claim_jobs. destruct (claim_frame now sel st) as (_ & _ & _ & ->).
    apply Forall_fmap. eapply Forall_impl; [exact H2 |]. intros j Hj. cbn.
    by rewrite claimed_keeps_id.
  - rewrite claim_jobs. apply Forall_fmap, Forall_forall. intros j Hj. cbn.
    pose proof (proj1 (Forall_forall _ _) H3 j Hj) as Hb.
    unfold claimed. case_decide; [| done].
    apply set_status_bounded; [| done]. by apply Hlive.
  - intros row. rewrite claim_jobs. intros (j & -> & Hj)%list_elem_of_fmap.
    rewrite claimed_keeps_id. intros Hin. unfold claimed.
    rewrite decide_True by done. done.
Qed.

(** Rows whose id was not selected are what they were. *)
Lemma claim_others now sel st row :
  row ∈ jobs st → Store.j_id row ∉ (Store.j_id <$> sel) → row ∈ jobs (claim now sel st).
Proof.
  intros Hin Hnot. rewrite claim_jobs. apply list_elem_of_fmap.
  exists row. split; [| done]. unfold claimed. by rewrite decide_False.
Qed.

(** *** Settling and draining *)

Lemma settle_jobs cfg now j reply st :
  ∃ g, keeps_id g
       ∧ (∀ row, Store.status row ≠ Store.failed → bounded cfg row → bounded cfg (g row))
       ∧ jobs (settle cfg now j reply st) = on_id (Store.j_id j) g <$> jobs st.
Proof.
  unfold settle. destruct reply as [v|msg].
  - destruct (decide (length v = dimension cfg)).
    + exists (complete now). split_and!; [apply complete_keeps_id | |].
      * intros row. apply complete_bounded.
      * rewrite update_job_jobs. unfold jobs, write_embedding. cbn.
        by destruct (Store.chunk_id j).
    + exists (fail cfg false "dimension"). split_and!; [apply fail_keeps_id | | done].
      intros row. apply fail_bounded.
  - exists (fail cfg true msg). split_and!; [apply fail_keeps_id | | done].
    intros row. apply fail_bounded.
Qed.

Lemma settle_frame cfg now j reply st : frame st (settle cfg now j reply st).
Proof.
  unfold settle. destruct reply as [v|msg].
  - destruct (decide (length v = dimension cfg)).
    + eapply frame_trans; [apply (write_embedding_frame j v st) |].
      apply update_job_frame.
    + apply update_job_frame.
  - apply (update_job_frame (Store.j_id j) (fail cfg true msg) st).
Qed.

Lemma settle_ok cfg now j reply st :
  queue_ok cfg st →
  (∀ row, row ∈ jobs st → Store.j_id row = Store.j_id j →
          Store.status row ≠ Store.failed) →
  queue_ok cfg (settle cfg now j reply st).
Proof.
  intros [H1 H2 H3] Hlive.
  destruct (settle_jobs cfg now j reply st) as (g & Hg & Hb & Hj).
  destruct (settle_frame cfg now j reply st) as (_ & _ & _ & Hi).
  split; rewrite Hj.
  - rewrite fmap_keeps_ids; [done | by apply on_id_keeps_id].
  - rewrite Hi. apply Forall_fmap. eapply Forall_impl; [exact H2 |]. intros row Hr. cbn.
    by rewrite (on_id_keeps_id _ g Hg).
  - apply Forall_fmap, Forall_forall. intros row Hr. cbn.
    pose proof (proj1 (Forall_forall _ _) H3 row Hr) as Hrow.
    unfold on_id. case_decide; [| done]. apply Hb; [| done]. by apply Hlive.
Qed.

Lemma settle_others cfg now j reply st row :
  Store.j_id row ≠ Store.j_id j →
  row ∈ jobs st ↔ row ∈ jobs (settle cfg now j reply st).
Proof.
  intros Hne. destruct (settle_jobs cfg now j reply st) as (g & Hg & _ & ->).
  rewrite list_elem_of_fmap. split.
  - intros Hin. exists row. split; [| done]. unfold on_id. by rewrite decide_False.
  - intros (row0 & Hrow & Hin). unfold on_id in Hrow.
    destruct (decide (Store.j_id row0 = Store.j_id j)) as [Heq|Hneq]; [| by subst].
    destruct Hne. by rewrite Hrow, Hg.
Qed.

Lemma drain_loop_ok cfg now client sel st processed :
  NoDup (Store.j_id <$> sel) → queue_ok cfg st → live st (Store.j_id <$> sel) →
  queue_ok cfg (fst (drain_loop cfg now client sel st processed))
  ∧ frame st (fst (drain_loop cfg now client sel st processed))
  ∧ (∀ row, row ∈ jobs st → Store.j_id row ∉ (Store.j_id <$> sel) →
            row ∈ jobs (fst (drain_loop cfg now client sel st processed))).
Proof.
  revert st processed. induction sel as [|j sel IH]; intros st processed Hn Hok Hlive.
  - cbn. split_and!; [done | apply frame_refl | done].
  - cbn [drain_loop]. destruct (client j) as [reply|].
    + rewrite fmap_cons in Hn, Hlive. apply NoDup_cons in Hn as [Hj Hn].
      assert (Hok1 : queue_ok cfg (settle cfg now j reply st)).
      { apply settle_ok; [done |]. intros row Hr Hid. apply Hlive; [done |].
        apply elem_of_cons. by left. }
      assert (Hlive1 : live (settle cfg now j reply st) (Store.j_id <$> sel)).
      { intros row Hr Hin.
        assert (Hne : Store.j_id row ≠ Store.j_id j) by (intros E; by rewrite E in Hin).
        apply (settle_others cfg now j reply st row Hne) in Hr.
        apply Hlive; [done |]. apply elem_of_cons. by right. }
      destruct (IH (settle cfg now j reply st) (S processed) Hn Hok1 Hlive1)
        as (Ha & Hb & Hc).
      split_and!; [done | |].
      * eapply frame_trans; [apply settle_frame | exact Hb].
      * intros row Hr Hnot. rewrite fmap_cons in Hnot.
        apply not_elem_of_cons in Hnot as [Hne Hnot].
        apply Hc; [| done]. by apply settle_others.
    + cbn. split_and!; [done | apply frame_refl | done].
Qed.

Lemma drain_loop_frame cfg now client sel st processed :
  frame st (fst (drain_loop cfg now client sel st processed)).
Proof.
  revert st processed. induction sel as [|j sel IH]; intros st processed.
  - apply frame_refl.
  - cbn [drain_loop]. destruct (client j) as [reply|]; [| apply frame_refl].
    eapply frame_trans; [apply settle_frame | apply IH].
Qed.

(** A drain leaves the meetings, the chunks' ids and meetings, and the
    meetings with a summary as they are. *)
Lemma drain_frame cfg batch now client st :
  frame st (fst (drain cfg batch now client st)).
Proof.
  unfold drain. eapply frame_trans; [apply claim_frame | apply drain_loop_frame].
Qed.

Lemma recover_frame cfg now st : frame st (recover cfg now st).
Proof. by split_and!. Qed.

Lemma select_live cfg batch now st :
  queue_ok cfg st →
  NoDup (Store.j_id <$> select batch now st)
  ∧ live st (Store.j_id <$> select batch now st)
  ∧ (∀ row, row ∈ jobs st → Store.status row = Store.failed →
            Store.j_id row ∉ (Store.j_id <$> select batch now st)).
Proof.
  intros [H1 _ _].
  assert (Hsame : ∀ row, row ∈ jobs st →
            Store.j_id row ∈ (Store.j_id <$> select batch now st) →
            Store.status row = Store.pending).
  { intros row Hr (j & Hid & Hj)%list_elem_of_fmap.
    apply select_eligible in Hj as [Hj [Hp _]].
    by rewrite (same_id_same_row (jobs st) row j H1 Hr Hj Hid). }
  split_and!.
  - eapply submseteq_NoDup; [| exact H1].
    apply fmap_submseteq, select_submseteq.
  - intros row Hr Hin. by rewrite (Hsame row Hr Hin).
  - intros row Hr Hf Hin. rewrite (Hsame row Hr Hin) in Hf. discriminate.
Qed.

Lemma drain_ok cfg batch now client st :
  queue_ok cfg st →
  queue_ok cfg (fst (drain cfg batch now client st))
  ∧ frame st (fst (drain cfg batch now client st))
  ∧ (∀ row, row ∈ jobs st → Store.status row = Store.failed →
            row ∈ jobs (fst (drain cfg batch now client st))).
Proof.
  intros Hok. unfold drain.
  destruct (select_live cfg batch now st Hok) as (Hn & Hlive & Hfailed).
  destruct (claim_ok cfg now (select batch now st) st Hok Hlive) as [Hok1 Hlive1].
  destruct (drain_loop_ok cfg now client (select batch now st)
              (claim now (select batch now st) st) 0 Hn Hok1 Hlive1) as (Ha & Hb & Hc).
  split_and!; [done | |].
  - eapply frame_trans; [apply claim_frame | exact Hb].
  - intros row Hr Hf. apply Hc; [| by apply Hfailed].
    apply claim_others; [done | by apply Hfailed].
Qed.

Definition recovered (cfg : QueueConfig) (now : Z) (st : State) (j : Store.JobRow)
    : Store.JobRow :=
  if stale cfg now st j then set_status Store.pending j else j.

Lemma recover_ok cfg now st :
  queue_ok cfg st →
  queue_ok cfg (recover cfg now st)
  ∧ frame st (recover cfg now st)
  ∧ (∀ row, row ∈ jobs st → Store.status row = Store.failed →
            row ∈ jobs (recover cfg now st)).
Proof.
  intros [H1 H2 H3].
  assert (Hj : jobs (recover cfg now st) = recovered cfg now st <$> jobs st) by done.
  assert (Hk : keeps_id (recovered cfg now st)).
  { intros j. unfold recovered. by destruct (stale cfg now st j). }
  split_and!; [split | by split_and! |].
  - rewrite Hj, fmap_keeps_ids; done.
  - rewrite Hj. apply Forall_fmap. eapply Forall_impl; [exact H2 |]. intros j Hle. cbn.
    by rewrite Hk.
  - rewrite Hj. apply Forall_fmap, Forall_forall. intros j Hin. cbn.
    pose proof (proj1 (Forall_forall _ _) H3 j Hin) as Hb.
    unfold recovered. destruct (stale cfg now st j) eqn:Hs; [| done].
    apply set_status_bounded; [| done].
    unfold stale in Hs. apply andb_true_iff in Hs as [Hs%bool_decide_eq_true _].
    by rewrite Hs.
  - intros row Hr Hf. rewrite Hj. apply list_elem_of_fmap. exists row. split; [| done].
    unfold recovered, stale. rewrite Hf. done.
Qed.

Lemma enqueue_ok cfg meeting chunk now st :
  0 < max_retries cfg →
  queue_ok cfg st →
  queue_ok cfg (enqueue meeting chunk now st)
  ∧ Store.meetings (db (enqueue meeting chunk now st)) = Store.meetings (db st)
  ∧ Store.chunks (db (enqueue meeting chunk now st)) = Store.chunks (db st)
  ∧ Store.chunk_summaries (db (enqueue meeting chunk now st)) = Store.chunk_summaries (db st)
  ∧ (∀ row, row ∈ jobs st → row ∈ jobs (enqueue meeting chunk now st)).
Proof.
  intros Hmax [H1 H2 H3]. split_and!; try done; [split |].
  - cbn. rewrite fmap_app. apply NoDup_app. split_and!; [done | | by apply NoDup_singleton].
    intros x (j & -> & Hj)%list_elem_of_fmap Hx. cbn in Hx.
    apply list_elem_of_singleton in Hx.
    pose proof (proj1 (Forall_forall _ _) H2 j Hj) as Hle. unfold issued in Hle. lia.
  - cbn. apply Forall_app. split.
    + eapply Forall_impl; [exact H2 |]. intros j Hj. unfold issued in *. cbn. lia.
    + apply Forall_singleton. unfold issued. cbn. lia.
  - cbn. apply Forall_app. split; [done |]. apply Forall_singleton.
    split; cbn; [lia | done].
  - intros row Hr. cbn. apply elem_of_app. by left.
Qed.

(** *** The statements of the RAG engine *)

Lemma insert_chunk_tables c now t n t' :
  insert_chunk c now t = Some (n, t') →
  Store.embedding_queue t' = Store.embedding_queue t
  ∧ Store.seq_queue (Store.sequences t') = Store.seq_queue (Store.sequences t)
  ∧ Store.meetings t' = Store.meetings t
  ∧ Store.chunk_summaries t' = Store.chunk_summaries t
  ∧ ∃ row, Store.chunks t' = Store.chunks t ++ [row].
Proof.
  unfold insert_chunk. destruct (Store.meetings t !! meeting_id c); [| done].
  intros [= <- <-]. cbn. split_and!; try done. by eexists.
Qed.

Lemma insert_summary_tables meeting text now t t' :
  insert_summary meeting text now t = Some t' →
  Store.embedding_queue t' = Store.embedding_queue t
  ∧ Store.seq_queue (Store.sequences t') = Store.seq_queue (Store.sequences t)
  ∧ Store.meetings t' = Store.meetings t
  ∧ Store.chunks t' = Store.chunks t
  ∧ is_Some (Store.meetings t !! meeting)
  ∧ (meeting ∉ summary_keys t)
  ∧ Store.chunk_summaries t'
    = Store.chunk_summaries t
        ++ [Store.mkSummaryRow (S (Store.seq_summaries (Store.sequences t)))
              meeting text None now].
Proof.
  unfold insert_summary. destruct (Store.meetings t !! meeting) eqn:Hm; [| done].
  case_bool_decide as Hin; [done |].
  intros [= <-]. cbn. do 4 (split; [done |]). split; [by eexists | done].
Qed.

Lemma upsert_summary_tables meeting text now t t' :
  upsert_summary meeting text now t = Some t' →
  Store.embedding_queue t' = Store.embedding_queue t
  ∧ Store.seq_queue (Store.sequences t') = Store.seq_queue (Store.sequences t)
  ∧ Store.meetings t' = Store.meetings t
  ∧ Store.chunks t' = Store.chunks t
  ∧ is_Some (Store.meetings t !! meeting)
  ∧ (((meeting ∈ summary_keys t)
      ∧ Store.chunk_summaries t' = overwrite meeting text <$> Store.chunk_summaries t)
     ∨ ((meeting ∉ summary_keys t)
        ∧ Store.chunk_summaries t'
          = Store.chunk_summaries t
              ++ [Store.mkSummaryRow (S (Store.seq_summaries (Store.sequences t)))
                    meeting text None now])).
Proof.
  unfold upsert_summary. destruct (Store.meetings t !! meeting) eqn:Hm; [| done].
  case_bool_decide as Hin.
  - intros [= <-]. cbn. do 4 (split; [done |]). split; [by eexists | by left].
  - intros H. apply insert_summary_tables in H as (?&?&?&?&?&?&?).
    do 5 (split; [done |]). by right.
Qed.

Lemma set_db_ok cfg t st :
  Store.embedding_queue t = Store.embedding_queue (db st) →
  Store.seq_queue (Store.sequences t) = Store.seq_queue (Store.sequences (db st)) →
  queue_ok cfg st → queue_ok cfg (set_db t st).
Proof. intros Hq Hs. by apply queue_ok_ext. Qed.

(** Every operation keeps the queue in order and leaves the failed jobs
    where they are. *)
Lemma apply_ok cfg op st :
  0 < max_retries cfg →
  queue_ok cfg st →
  queue_ok cfg (apply cfg op st)
  ∧ (∀ row, row ∈ jobs st → Store.status row = Store.failed →
            row ∈ jobs (apply cfg op st)).
Proof.
  intros Hmax Hok.
  assert (Hdb : ∀ t, Store.embedding_queue t = Store.embedding_queue (db st) →
                  Store.seq_queue (Store.sequences t)
                  = Store.seq_queue (Store.sequences (db st)) →
                  queue_ok cfg (set_db t st)
                  ∧ (∀ row, row ∈ jobs st → Store.status row = Store.failed →
                            row ∈ jobs (set_db t st))).
  { intros t Hq Hs. split; [by apply set_db_ok |].
    intros row Hr _. unfold jobs in *. cbn. by rewrite Hq. }
  destruct op as [fault meeting s d | fault id title | fault id updates | fault id
                  | c now | meeting text now | meeting composed now
                  | meeting chunk now | batch now client | now]; cbn [apply].
  - destruct (StoreOpsFacts.saveMeeting_result fault meeting s d (db st)) as [-> | ->].
    + by apply Hdb.
    + destruct (StoreOpsFacts.saved_queue meeting s d (db st)) as (? & ? & _).
      by apply Hdb.
  - destruct (StoreOpsFacts.updateMeetingTitle_result fault id title (db st)) as [-> | ->].
    + by apply Hdb.
    + destruct (StoreOpsFacts.update_title_tables id title (db st))
        as (_ & _ & _ & _ & Hq & Hs & _).
      apply Hdb; [done | by rewrite Hs].
  - destruct (StoreOpsFacts.updateMeetingSummary_result fault id updates (db st))
      as [-> | [json ->]].
    + by apply Hdb.
    + destruct (StoreOpsFacts.update_summary_json_tables id json (db st))
        as (_ & _ & _ & _ & Hq & Hs & _).
      apply Hdb; [done | by rewrite Hs].
  - destruct (StoreOpsFacts.deleteMeeting_result fault id (db st)) as [-> | [_ ->]].
    + by apply Hdb.
    + by apply Hdb.
  - unfold store_chunk. destruct (insert_chunk c now (db st)) as [[n t]|] eqn:E; [| done].
    apply insert_chunk_tables in E as (Hq & Hs & _).
    destruct (Hdb t Hq Hs) as [Hok1 Hf1].
    destruct (enqueue_ok cfg (meeting_id c) (Some n) now (set_db t st) Hmax Hok1)
      as (Hok2 & _ & _ & _ & Hf2).
    split; [done |]. intros row Hr Hf. by apply Hf2, Hf1.
  - destruct (insert_summary meeting text now (db st)) as [t|] eqn:E; [| done].
    apply insert_summary_tables in E as (Hq & Hs & _). by apply Hdb.
  - unfold recompute. destruct composed as [text|]; [| done].
    destruct (upsert_summary meeting text now (db st)) as [t|] eqn:E; [| done].
    apply upsert_summary_tables in E as (Hq & Hs & _).
    destruct (Hdb t Hq Hs) as [Hok1 Hf1].
    destruct (enqueue_ok cfg meeting None now (set_db t st) Hmax Hok1)
      as (Hok2 & _ & _ & _ & Hf2).
    split; [done |]. intros row Hr Hf. by apply Hf2, Hf1.
  - destruct (enqueue_ok cfg meeting chunk now st Hmax Hok) as (Hok2 & _ & _ & _ & Hf2).
    split; [done |]. intros row Hr _. by apply Hf2.
  - destruct (drain_ok cfg batch now client st Hok) as (? & _ & ?). done.
  - destruct (recover_ok cfg now st Hok) as (? & _ & ?). done.
Qed.

Lemma booted_ok cfg : queue_ok cfg booted.
Proof. split; cbn; constructor. Qed.

Lemma reachable_ok cfg st : 0 < max_retries cfg → reachable cfg st → queue_ok cfg st.
Proof.
  intros Hmax. induction 1 as [|st op Hr IH]; [apply booted_ok |].
  by apply apply_ok.
Qed.

(** *** Scenario B: five failures in a row *)

(** One more failed attempt of a job: it is claimed, then the call fails. *)
Definition failed_attempt (cfg : QueueConfig) (msg : string) (j : Store.JobRow)
    : Store.JobRow :=
  fail cfg true msg (set_status Store.in_progress j).

Lemma failed_attempt_below cfg msg j :
  S (Store.retry_count j) < max_retries cfg →
  Store.status (failed_attempt cfg msg j) = Store.pending
  ∧ Store.retry_count (failed_attempt cfg msg j) = S (Store.retry_count j).
Proof.
  intros H. unfold failed_attempt, fail. cbn [Store.retry_count set_status andb].
  by rewrite (proj2 (Nat.ltb_lt _ _) H).
Qed.

Lemma failed_attempt_last cfg msg j :
  S (Store.retry_count j) = max_retries cfg →
  Store.status (failed_attempt cfg msg j) = Store.failed
  ∧ Store.retry_count (failed_attempt cfg msg j) = max_retries cfg.
Proof.
  intros H. unfold failed_attempt, fail. cbn [Store.retry_count set_status andb].
  rewrite (proj2 (Nat.ltb_ge _ _)) by lia. done.
Qed.

Definition scenario_config : QueueConfig :=
  {| max_retries := 5; base_delay := 1000; max_delay := 60000;
     dimension := 3; stale_timeout := 300000 |}.

Definition offline (j : Store.JobRow) : option Reply := Some (Error "backend offline").

(** One job, and a drain every ten minutes with the backend offline. *)
Definition scenario_start : State := enqueue "m1" (Some 1) 0 booted.

Definition scenario_drain (k : nat) (st : State) : State * nat :=
  drain scenario_config 10 (600000 * Z.of_nat k) offline st.

Fixpoint scenario_after (k : nat) : State :=
  match k with
  | 0 => scenario_start
  | S k' => fst (scenario_drain k (scenario_after k'))
  end.

(** C4.  In every reachable state of the embedding queue, with a maximum
    retry count of at least one, the retry count of every job is within the
    maximum, and below it unless the job is failed for good.  A drain
    selects pending jobs only, so a failed job is never retried, and every
    operation leaves a failed job as it is.  With a maximum of 5, a job
    fails for good at its fifth failure in a row, with a retry count of 5:
    so the job of the scenario after five drains with the backend offline,
    which a sixth drain does not touch. *)
Theorem retry_count_within_maximum (cfg : QueueConfig) (st : State) :
  0 < max_retries cfg →
  reachable cfg st →
  (∀ j, j ∈ jobs st →
        Store.retry_count j ≤ max_retries cfg
        ∧ (Store.status j ≠ Store.failed → Store.retry_count j < max_retries cfg))
  ∧ (∀ batch now j, j ∈ select batch now st → Store.status j = Store.pending)
  ∧ (∀ op j, j ∈ jobs st → Store.status j = Store.failed → j ∈ jobs (apply cfg op st))
  ∧ (max_retries cfg = 5 →
     ∀ msg j, Store.retry_count j = 0 →
       let attempt := failed_attempt cfg msg in
       Store.status (attempt j) = Store.pending
       ∧ Store.status (attempt (attempt j)) = Store.pending
       ∧ Store.status (attempt (attempt (attempt j))) = Store.pending
       ∧ Store.status (attempt (attempt (attempt (attempt j)))) = Store.pending
       ∧ Store.status (attempt (attempt (attempt (attempt (attempt j))))) = Store.failed
       ∧ Store.retry_count (attempt (attempt (attempt (attempt (attempt j))))) = 5)
  ∧ ((fun j => (Store.status j, Store.retry_count j)) <$> jobs (scenario_after 4)
     = [(Store.pending, 4)]
     ∧ (fun j => (Store.status j, Store.retry_count j, Store.error_message j))
         <$> jobs (scenario_after 5)
       = [(Store.failed, 5, Some "backend offline")]
     ∧ scenario_drain 6 (scenario_after 5) = (scenario_after 5, 0)).
Proof.
  intros Hmax Hreach. pose proof (reachable_ok cfg st Hmax Hreach) as Hok.
  split_and!.
  - intros j Hj. destruct Hok as [_ _ Hb].
    apply (proj1 (Forall_forall _ _) Hb j Hj).
  - intros batch now j Hj. by apply select_eligible in Hj as [_ [Hp _]].
  - intros op j Hj Hf. by apply (apply_ok cfg op st Hmax Hok).
  - intros H5 msg j H0. cbv zeta.
    destruct (failed_attempt_below cfg msg j) as [Hs1 Hr1]; [lia |].
    destruct (failed_attempt_below cfg msg (failed_attempt cfg msg j)) as [Hs2 Hr2]; [lia |].
    destruct (failed_attempt_below cfg msg
                (failed_attempt cfg msg (failed_attempt cfg msg j))) as [Hs3 Hr3]; [lia |].
    destruct (failed_attempt_below cfg msg
                (failed_attempt cfg msg (failed_attempt cfg msg (failed_attempt cfg msg j))))
      as [Hs4 Hr4]; [lia |].
    destruct (failed_attempt_last cfg msg
                (failed_attempt cfg msg
                   (failed_attempt cfg msg (failed_attempt cfg msg (failed_attempt cfg msg j)))))
      as [Hs5 Hr5]; [lia |].
    split_and!; try done. by rewrite Hr5.
  - vm_compute. reflexivity.
  - vm_compute. reflexivity.
  - vm_compute. reflexivity.
Qed.

Lemma scenario_start_reachable : reachable scenario_config scenario_start.
Proof.
  apply (reach_step scenario_config booted (Enqueue "m1" (Some 1) 0)).
  apply reach_booted.
Qed.

Lemma retry_count_within_maximum_witness :
  0 < max_retries scenario_config
  ∧ reachable scenario_config scenario_start
  ∧ (∀ j, j ∈ jobs scenario_start →
          Store.retry_count j ≤ max_retries scenario_config
          ∧ (Store.status j ≠ Store.failed
             → Store.retry_count j < max_retries scenario_config)).
Proof.
  split_and!; [cbn; lia | apply scenario_start_reachable |].
  apply (retry_count_within_maximum scenario_config scenario_start);
    [cbn; lia | apply scenario_start_reachable].
Defined.

End QueueFacts.

(** ** Meeting summaries *)
Module SummaryRowFacts.
Import JS Rag QueueFacts.

(** Every meeting has at most one summary row, and a summary row belongs to
    a stored meeting. *)
Record summaries_ok (st : State) : Prop := mk_summaries_ok {
  one_per_meeting : NoDup (summary_keys (db st));
  meeting_stored : ∀ m, m ∈ summary_keys (db st) → is_Some (Store.meetings (db st) !! m)
}.

Lemma summaries_ok_frame st st' : frame st st' → summaries_ok st → summaries_ok st'.
Proof.
  intros (Hm & _ & Hk & _) [H1 H2]. split; rewrite Hk; [done |].
  intros m Hin. rewrite Hm. by apply H2.
Qed.

Lemma summaries_ok_same t st :
  Store.chunk_summaries t = Store.chunk_summaries (db st) →
  (∀ m, is_Some (Store.meetings (db st) !! m) → is_Some (Store.meetings t !! m)) →
  summaries_ok st → summaries_ok (set_db t st).
Proof.
  intros Hs Hm [H1 H2]. split; unfold summary_keys in *; cbn; rewrite Hs; [done |].
  intros m Hin. by apply Hm, H2.
Qed.

Lemma filter_keys_sublist id (l : list Store.SummaryRow) :
  (Store.s_meeting_id <$> filter (fun r => Store.s_meeting_id r ≠ id) l)
    `sublist_of` (Store.s_meeting_id <$> l).
Proof. apply fmap_sublist, sublist_filter. Qed.

Lemma filter_keys_other id (l : list Store.SummaryRow) m :
  m ∈ (Store.s_meeting_id <$> filter (fun r => Store.s_meeting_id r ≠ id) l) →
  m ≠ id ∧ m ∈ (Store.s_meeting_id <$> l).
Proof.
  intros (r & -> & [Hne Hin]%list_elem_of_filter)%list_elem_of_fmap.
  split; [done |]. by apply list_elem_of_fmap_2.
Qed.

Lemma overwrite_keys meeting text (l : list Store.SummaryRow) :
  Store.s_meeting_id <$> (overwrite meeting text <$> l) = Store.s_meeting_id <$> l.
Proof.
  rewrite <- list_fmap_compose. apply list_fmap_ext. intros i r _. cbn.
  unfold overwrite. by case_decide.
Qed.

Lemma enqueue_summaries meeting chunk now st :
  summaries_ok st → summaries_ok (enqueue meeting chunk now st).
Proof. intros [H1 H2]. by split. Qed.

Lemma apply_summaries cfg op st : summaries_ok st → summaries_ok (apply cfg op st).
Proof.
  intros Hok. pose proof Hok as [H1 H2].
  destruct op as [fault meeting s d | fault id title | fault id updates | fault id
                  | c now | meeting text now | meeting composed now
                  | meeting chunk now | batch now client | now]; cbn [apply].
  - destruct (StoreOpsFacts.saveMeeting_result fault meeting s d (db st)) as [-> | ->].
    + by destruct st.
    + split; unfold summary_keys; cbn [db set_db];
        rewrite StoreOpsFacts.saved_chunk_summaries.
      * destruct (Store.meetings (db st) !! Store.id meeting); [| done].
        eapply sublist_NoDup; [exact H1 | apply filter_keys_sublist].
      * intros m Hin. apply StoreOpsFacts.saved_meetings, H2.
        destruct (Store.meetings (db st) !! Store.id meeting); [| done].
        by apply filter_keys_other in Hin as [_ ?].
  - destruct (StoreOpsFacts.updateMeetingTitle_result fault id title (db st)) as [-> | ->].
    + by destruct st.
    + destruct (StoreOpsFacts.update_title_tables id title (db st))
        as (_ & _ & _ & Hs & _ & _ & Hm).
      by apply summaries_ok_same.
  - destruct (StoreOpsFacts.updateMeetingSummary_result fault id updates (db st))
      as [-> | [json ->]].
    + by destruct st.
    + destruct (StoreOpsFacts.update_summary_json_tables id json (db st))
        as (_ & _ & _ & Hs & _ & _ & Hm).
      by apply summaries_ok_same.
  - destruct (StoreOpsFacts.deleteMeeting_result fault id (db st)) as [-> | [_ ->]].
    + by destruct st.
    + split; unfold summary_keys; cbn.
      * eapply sublist_NoDup; [exact H1 | apply filter_keys_sublist].
      * intros m [Hne Hin]%filter_keys_other.
        rewrite lookup_delete_ne by done. by apply H2.
  - unfold store_chunk. destruct (insert_chunk c now (db st)) as [[n t]|] eqn:E; [| done].
    apply insert_chunk_tables in E as (_ & _ & Hm & Hs & _).
    apply enqueue_summaries, summaries_ok_same; [done | | done].
    intros m. by rewrite Hm.
  - destruct (insert_summary meeting text now (db st)) as [t|] eqn:E; [| done].
    apply insert_summary_tables in E as (_ & _ & Hm & _ & Hsome & Hnew & Hs).
    split; unfold summary_keys in *; cbn [db set_db]; rewrite Hs, fmap_app.
    + apply NoDup_app. split_and!; [done | | apply NoDup_singleton].
      intros x Hx Hx'. apply list_elem_of_singleton in Hx'. by subst.
    + intros m [Hin | Hin%list_elem_of_singleton]%elem_of_app; rewrite Hm.
      * by apply H2.
      * by subst.
  - unfold recompute. destruct composed as [text|]; [| done].
    destruct (upsert_summary meeting text now (db st)) as [t|] eqn:E; [| done].
    apply upsert_summary_tables in E as (_ & _ & Hm & _ & Hsome & Hcase).
    apply enqueue_summaries.
    destruct Hcase as [[Hin Hs] | [Hnew Hs]];
      split; unfold summary_keys in *; cbn [db set_db]; rewrite Hs.
    + by rewrite overwrite_keys.
    + rewrite overwrite_keys. intros m Hk. rewrite Hm. by apply H2.
    + rewrite fmap_app. apply NoDup_app. split_and!; [done | | apply NoDup_singleton].
      intros x Hx Hx'. apply list_elem_of_singleton in Hx'. by subst.
    + rewrite fmap_app.
      intros m [Hk | Hk%list_elem_of_singleton]%elem_of_app; rewrite Hm.
      * by apply H2.
      * by subst.
  - by apply enqueue_summaries.
  - eapply summaries_ok_frame; [apply drain_frame | done].
  - eapply summaries_ok_frame; [apply recover_frame | done].
Qed.

Lemma reachable_summaries cfg st : reachable cfg st → summaries_ok st.
Proof.
  induction 1 as [|st op Hr IH].
  - split; cbn; [constructor |]. intros m Hin. by apply elem_of_nil in Hin.
  - by apply apply_summaries.
Qed.

Definition rows_of (meeting : string) (st : State) : list Store.SummaryRow :=
  filter (fun r => Store.s_meeting_id r = meeting) (Store.chunk_summaries (db st)).

Lemma at_most_one_row meeting (l : list Store.SummaryRow) :
  NoDup (Store.s_meeting_id <$> l) →
  length (filter (fun r => Store.s_meeting_id r = meeting) l) ≤ 1.
Proof.
  induction l as [|r l IH]; [cbn; lia |].
  rewrite fmap_cons. intros [Hr Hn]%NoDup_cons. rewrite filter_cons.
  destruct (decide (Store.s_meeting_id r = meeting)) as [Heq|Hne]; [| by apply IH].
  assert (Hnone : filter (fun r0 => Store.s_meeting_id r0 = meeting) l = []).
  { destruct (filter (fun r0 => Store.s_meeting_id r0 = meeting) l) as [|x r'] eqn:E;
      [done |]. exfalso.
    assert (Hx : x ∈ filter (fun r0 => Store.s_meeting_id r0 = meeting) l)
      by (rewrite E; apply elem_of_cons; by left).
    apply list_elem_of_filter in Hx as [Hxm Hx]. apply Hr.
    rewrite Heq, <- Hxm. by apply list_elem_of_fmap_2. }
  rewrite Hnone. cbn. lia.
Qed.

Lemma overwrite_other_rows meeting text other (l : list Store.SummaryRow) :
  other ≠ meeting →
  filter (fun r => Store.s_meeting_id r = other) (overwrite meeting text <$> l)
  = filter (fun r => Store.s_meeting_id r = other) l.
Proof.
  intros Hne. induction l as [|r l IH]; [done |].
  rewrite fmap_cons, !filter_cons, IH.
  destruct (decide (Store.s_meeting_id r = meeting)) as [Heq|Hneq].
  - assert (Hkey : Store.s_meeting_id (overwrite meeting text r) = meeting).
    { unfold overwrite. by rewrite decide_True. }
    rewrite (decide_False (P := Store.s_meeting_id (overwrite meeting text r) = other))
      by congruence.
    rewrite (decide_False (P := Store.s_meeting_id r = other)) by congruence.
    done.
  - assert (Hsame : overwrite meeting text r = r).
    { unfold overwrite. by rewrite decide_False. }
    by rewrite Hsame.
Qed.

(** C6.  In every reachable state of the store at most one summary row
    exists for every meeting: [meeting_id] is unique in [chunk_summaries],
    and an INSERT of a second row for a meeting fails.  A recomputation for
    a meeting that has its row overwrites the text of that row: the number
    of rows is the same, the row of the meeting holds the new text, and the
    rows of the other meetings are as before. *)
Theorem one_summary_row_per_meeting (cfg : QueueConfig) (st : State) :
  reachable cfg st →
  NoDup (Store.s_meeting_id <$> Store.chunk_summaries (db st))
  ∧ (∀ meeting, length (rows_of meeting st) ≤ 1)
  ∧ (∀ meeting text now,
       meeting ∈ (Store.s_meeting_id <$> Store.chunk_summaries (db st)) →
       insert_summary meeting text now (db st) = None)
  ∧ (∀ meeting text now,
       meeting ∈ (Store.s_meeting_id <$> Store.chunk_summaries (db st)) →
       let st' := recompute meeting (Some text) now st in
       Store.chunk_summaries (db st')
       = overwrite meeting text <$> Store.chunk_summaries (db st)
       ∧ length (Store.chunk_summaries (db st')) = length (Store.chunk_summaries (db st))
       ∧ (∀ r, r ∈ rows_of meeting st' → Store.summary_text r = text)
       ∧ (∀ other, other ≠ meeting → rows_of other st' = rows_of other st)).
Proof.
  intros Hreach. destruct (reachable_summaries cfg st Hreach) as [H1 H2].
  split_and!.
  - exact H1.
  - intros meeting. by apply at_most_one_row.
  - intros meeting text now Hin. unfold insert_summary.
    destruct (Store.meetings (db st) !! meeting); [| done].
    by rewrite bool_decide_eq_true_2.
  - intros meeting text now Hin. cbv zeta.
    assert (Hrows : Store.chunk_summaries (db (recompute meeting (Some text) now st))
                    = overwrite meeting text <$> Store.chunk_summaries (db st)).
    { unfold recompute, upsert_summary.
      destruct (H2 meeting Hin) as [row ->].
      by rewrite bool_decide_eq_true_2. }
    split_and!.
    + exact Hrows.
    + by rewrite Hrows, length_fmap.
    + intros r. unfold rows_of. rewrite Hrows.
      intros [Hm (r0 & -> & Hr0)%list_elem_of_fmap]%list_elem_of_filter.
      unfold overwrite in *. by destruct (decide (Store.s_meeting_id r0 = meeting)).
    + intros other Hne. unfold rows_of. rewrite Hrows.
      by apply overwrite_other_rows.
Qed.

Definition demo_meeting : Store.Meeting :=
  {| Store.id := "m1"; Store.m_title := "Weekly sync"; Store.date := "2024-01-01";
     Store.duration := "4:48"; Store.summary := "Roadmap.";
     Store.detailedSummary := None; Store.transcript := None; Store.usage := None;
     Store.calendarEventId := None; Store.m_source := None;
     Store.isProcessed := Some true |}.

Definition summarized : State :=
  apply scenario_config (Recompute "m1" (Some "They agreed to ship on Friday.") 20)
    (apply scenario_config (Recompute "m1" (Some "They talked about shipping.") 10)
       (apply scenario_config (SaveMeeting (fun _ => false) demo_meeting 0 288000)
          booted)).

Lemma summarized_reachable : reachable scenario_config summarized.
Proof. unfold summarized. repeat apply reach_step. apply reach_booted. Qed.

Lemma one_summary_row_per_meeting_witness :
  reachable scenario_config summarized
  ∧ NoDup (Store.s_meeting_id <$> Store.chunk_summaries (db summarized)).
Proof.
  split; [apply summarized_reachable |].
  apply (one_summary_row_per_meeting scenario_config summarized summarized_reachable).
Defined.

(** Two recomputations leave one row, with the second text. *)
Example summarized_rows :
  (fun r => (Store.s_meeting_id r, Store.summary_text r))
    <$> Store.chunk_summaries (db summarized)
  = [("m1", "They agreed to ship on Friday.")].
Proof. vm_compute. reflexivity. Qed.

End SummaryRowFacts.

(** ** Deleting a meeting *)
Module CascadeFacts.
Import JS Store.

Section Keyed.
Context {A : Type} (key : A -> string).

Lemma without_key id (l : list A) :
  Forall (fun r => key r ≠ id) (filter (fun r => key r ≠ id) l).
Proof. apply Forall_forall. by intros r [? _]%list_elem_of_filter. Qed.

Lemma other_keys_stay id other (l : list A) :
  other ≠ id →
  filter (fun r => key r = other) (filter (fun r => key r ≠ id) l)
  = filter (fun r => key r = other) l.
Proof.
  intros Hne. induction l as [|r l IH]; [done |].
  rewrite !filter_cons. destruct (decide (key r ≠ id)) as [Hr|Hr].
  - by rewrite filter_cons, IH.
  - rewrite IH. rewrite decide_False; [done |].
    intros Heq. apply Hr. congruence.
Qed.

End Keyed.

Lemma chunk_key_kept id (l : list ChunkRow) k :
  k ∈ ((fun r => (c_id r, c_meeting_id r)) <$> l) → k.2 ≠ id →
  k ∈ ((fun r => (c_id r, c_meeting_id r)) <$> filter (fun r => c_meeting_id r ≠ id) l).
Proof.
  intros (r & -> & Hr)%list_elem_of_fmap Hne. cbn in Hne.
  apply list_elem_of_fmap. exists r. split; [done |]. by apply list_elem_of_filter.
Qed.

(** A chunk goes only with the [meetings] row of its meeting: when the
    meeting is deleted, or when [saveMeeting] replaces it. *)
Lemma chunk_removed_by_cascade cfg op st (k : nat * string) :
  k ∈ QueueFacts.chunk_keys (Rag.db st) →
  k ∈ QueueFacts.chunk_keys (Rag.db (Rag.apply cfg op st))
  ∨ (∃ fault, op = Rag.DeleteMeeting fault k.2)
  ∨ (∃ fault meeting s d, op = Rag.SaveMeeting fault meeting s d ∧ id meeting = k.2).
Proof.
  intros Hk. unfold QueueFacts.chunk_keys in *.
  destruct op as [fault meeting s d | fault id0 title0 | fault id0 updates | fault id0
                  | c now | meeting text0 now | meeting composed now
                  | meeting chunk now | batch now client | now]; cbn [Rag.apply].
  - destruct (StoreOpsFacts.saveMeeting_result fault meeting s d (Rag.db st)) as [-> | ->];
      [by left |].
    cbn [Rag.db Rag.set_db]. rewrite StoreOpsFacts.saved_chunks.
    destruct (meetings (Rag.db st) !! id meeting); [| by left].
    destruct (decide (k.2 = id meeting)) as [Heq|Hne].
    + right; right. by exists fault, meeting, s, d.
    + left. by apply chunk_key_kept.
  - left. destruct (StoreOpsFacts.updateMeetingTitle_result fault id0 title0 (Rag.db st))
      as [-> | ->]; [done |].
    destruct (StoreOpsFacts.update_title_tables id0 title0 (Rag.db st))
      as (_ & _ & Hc & _). cbn [Rag.db Rag.set_db]. by rewrite Hc.
  - left. destruct (StoreOpsFacts.updateMeetingSummary_result fault id0 updates (Rag.db st))
      as [-> | [json ->]]; [done |].
    destruct (StoreOpsFacts.update_summary_json_tables id0 json (Rag.db st))
      as (_ & _ & Hc & _). cbn [Rag.db Rag.set_db]. by rewrite Hc.
  - destruct (StoreOpsFacts.deleteMeeting_result fault id0 (Rag.db st)) as [-> | [_ ->]];
      [by left |].
    destruct (decide (k.2 = id0)) as [Heq|Hne].
    + right; left. exists fault. by rewrite Heq.
    + left. cbn. by apply chunk_key_kept.
  - left. unfold Rag.store_chunk.
    destruct (Rag.insert_chunk c now (Rag.db st)) as [[n t]|] eqn:E; [| done].
    apply QueueFacts.insert_chunk_tables in E as (_ & _ & _ & _ & row & Hc).
    cbn. rewrite Hc, fmap_app. apply elem_of_app. by left.
  - left. destruct (Rag.insert_summary meeting text0 now (Rag.db st)) as [t|] eqn:E; [| done].
    apply QueueFacts.insert_summary_tables in E as (_ & _ & _ & Hc & _).
    cbn. by rewrite Hc.
  - left. unfold Rag.recompute. destruct composed as [text1|]; [| done].
    destruct (Rag.upsert_summary meeting text1 now (Rag.db st)) as [t|] eqn:E; [| done].
    apply QueueFacts.upsert_summary_tables in E as (_ & _ & _ & Hc & _).
    cbn. by rewrite Hc.
  - by left.
  - left. destruct (QueueFacts.drain_frame cfg batch now client st) as (_ & Hc & _).
    unfold QueueFacts.chunk_keys in Hc. by rewrite Hc.
  - by left.
Qed.

(** C5, as amended.  [deleteMeeting] of a stored meeting, when its DELETE
    statement runs, returns [true] and removes the meeting row and with it
    every transcript row, interaction row, chunk and summary of that
    meeting; the rows of every other meeting and the embedding queue are
    as before.  When the statement throws, [deleteMeeting] catches the
    error, returns [false] and changes nothing, whether the meeting is
    stored or not.  For an id that is not stored it returns [false] and
    changes nothing.  A chunk leaves the store only with the [meetings]
    row of its meeting, through the ON DELETE CASCADE: in [deleteMeeting],
    and in a [saveMeeting] that replaces the stored meeting of the same
    id; no other operation removes a chunk. *)
Theorem deleteMeeting_cascade (fault : nat -> bool) (id : string) (db : Tables) :
  (fault 0 = false → is_Some (meetings db !! id) →
   ∃ db',
     deleteMeeting fault id db = (db', true)
     ∧ meetings db' !! id = None
     ∧ Forall (fun r => t_meeting_id r ≠ id) (transcripts db')
     ∧ Forall (fun r => i_meeting_id r ≠ id) (ai_interactions db')
     ∧ Forall (fun r => c_meeting_id r ≠ id) (chunks db')
     ∧ Forall (fun r => s_meeting_id r ≠ id) (chunk_summaries db')
     ∧ embedding_queue db' = embedding_queue db
     ∧ ∀ other, other ≠ id →
         meetings db' !! other = meetings db !! other
         ∧ filter (fun r => t_meeting_id r = other) (transcripts db')
           = filter (fun r => t_meeting_id r = other) (transcripts db)
         ∧ filter (fun r => i_meeting_id r = other) (ai_interactions db')
           = filter (fun r => i_meeting_id r = other) (ai_interactions db)
         ∧ filter (fun r => c_meeting_id r = other) (chunks db')
           = filter (fun r => c_meeting_id r = other) (chunks db)
         ∧ filter (fun r => s_meeting_id r = other) (chunk_summaries db')
           = filter (fun r => s_meeting_id r = other) (chunk_summaries db))
  ∧ (fault 0 = true → deleteMeeting fault id db = (db, false))
  ∧ (meetings db !! id = None → deleteMeeting fault id db = (db, false))
  ∧ (∀ cfg op st (k : nat * string),
       k ∈ QueueFacts.chunk_keys (Rag.db st) →
       k ∈ QueueFacts.chunk_keys (Rag.db (Rag.apply cfg op st))
       ∨ (∃ fault', op = Rag.DeleteMeeting fault' k.2)
       ∨ (∃ fault' meeting s d,
            op = Rag.SaveMeeting fault' meeting s d ∧ Store.id meeting = k.2))
  ∧ (∀ fault' meeting s d,
       chunks (fst (saveMeeting fault' meeting s d db)) = chunks db
       ∨ (is_Some (meetings db !! Store.id meeting)
          ∧ chunks (fst (saveMeeting fault' meeting s d db))
            = filter (fun r => c_meeting_id r ≠ Store.id meeting) (chunks db))).
Proof.
  split_and!.
  - intros H0 [row Hrow]. exists (delete_meeting_row id db).
    rewrite (StoreOpsFacts.deleteMeeting_runs fault id db H0), Hrow.
    split_and!; try done.
    + cbn. apply lookup_delete_eq.
    + apply (without_key t_meeting_id).
    + apply (without_key i_meeting_id).
    + apply (without_key c_meeting_id).
    + apply (without_key s_meeting_id).
    + intros other Hne. cbn. split_and!.
      * by apply lookup_delete_ne.
      * by apply (other_keys_stay t_meeting_id).
      * by apply (other_keys_stay i_meeting_id).
      * by apply (other_keys_stay c_meeting_id).
      * by apply (other_keys_stay s_meeting_id).
  - intros H0. unfold deleteMeeting, run_stmt. cbn [tables executed]. by rewrite H0.
  - intros Hnone.
    destruct (StoreOpsFacts.deleteMeeting_result fault id db) as [H | [[row Hrow] _]];
      [done | congruence].
  - apply chunk_removed_by_cascade.
  - intros fault' meeting s d.
    destruct (StoreOpsFacts.saveMeeting_result fault' meeting s d db) as [-> | ->];
      [by left |].
    rewrite StoreOpsFacts.saved_chunks.
    destruct (meetings db !! Store.id meeting) as [row|] eqn:Hrow; [| by left].
    right. split; [by eexists | done].
Qed.

Lemma deleteMeeting_cascade_witness :
  is_Some (meetings ChatFacts.sync_store !! "m1")
  ∧ ∃ db', deleteMeeting (fun _ => false) "m1" ChatFacts.sync_store = (db', true)
           ∧ meetings db' !! "m1" = None
           ∧ Forall (fun r => c_meeting_id r ≠ "m1") (chunks db').
Proof.
  assert (Hm : is_Some (meetings ChatFacts.sync_store !! "m1")).
  { vm_compute. by eexists. }
  split; [exact Hm |].
  destruct (deleteMeeting_cascade (fun _ => false) "m1" ChatFacts.sync_store) as (H & _).
  destruct (H eq_refl Hm) as (db' & Hd & Hgone & _ & _ & Hc & _).
  by exists db'.
Defined.

(** C5, as stated, fails: saving the meeting m1 again replaces its row, and
    the chunk of m1 is gone although [deleteMeeting] never ran. *)
Lemma saveMeeting_again_removes_chunks :
  let db' := fst (saveMeeting (fun _ => false) SummaryRowFacts.demo_meeting 0 288000
                    ChatFacts.sync_store) in
  (c_id <$> chunks ChatFacts.sync_store) = [1]
  ∧ snd (saveMeeting (fun _ => false) SummaryRowFacts.demo_meeting 0 288000
           ChatFacts.sync_store) = Ok tt
  ∧ is_Some (meetings db' !! "m1")
  ∧ chunks db' = [].
Proof.
  cbv zeta. split_and!; try (vm_compute; reflexivity).
  vm_compute. by eexists.
Qed.

End CascadeFacts.

(** ** JSON values *)
Module JsonFacts.
Import JS Store SummaryFacts.

Fixpoint value_size (v : value) : nat :=
  match v with
  | VArr l => S (foldr (fun x n => value_size x + n) 0 l)
  | VObj m => S (map_fold (fun _ x n => value_size x + n) 0 m)
  | _ => 1
  end.

Lemma value_size_elem (l : list value) x :
  x ∈ l → value_size x ≤ foldr (fun x n => value_size x + n) 0 l.
Proof.
  induction l as [|y l IH]; intros Hx; [by apply elem_of_nil in Hx |].
  apply elem_of_cons in Hx as [-> | Hx]; cbn; [lia |].
  specialize (IH Hx). lia.
Qed.

Lemma value_size_lookup (m : gmap string value) k x :
  m !! k = Some x → value_size x ≤ map_fold (fun _ x n => value_size x + n) 0 m.
Proof.
  induction m as [|i y m Hi Hfold IH] using map_first_key_ind.
  - by rewrite lookup_empty.
  - rewrite map_fold_insert_first_key by done.
    destruct (decide (i = k)) as [->|Hne].
    + rewrite lookup_insert_eq. intros [= ->]. lia.
    + rewrite lookup_insert_ne by done. intros Hk. specialize (IH Hk). lia.
Qed.

(** Induction on a value, through its elements and its properties. *)
Lemma value_nested_ind (P : value → Prop) :
  P VUndefined → P VNull → (∀ b, P (VBool b)) → (∀ z, P (VNum z)) → (∀ s, P (VStr s)) →
  (∀ l, Forall P l → P (VArr l)) →
  (∀ m, map_Forall (fun _ => P) m → P (VObj m)) →
  ∀ v, P v.
Proof.
  intros Hu Hn Hb Hz Hs Ha Ho v.
  remember (value_size v) as n eqn:Hn'. revert v Hn'.
  induction (lt_wf n) as [n _ IH]. intros v ->.
  destruct v as [| | | | |l|m]; auto.
  - apply Ha. apply Forall_forall. intros x Hx.
    apply (IH (value_size x)); [| done]. cbn.
    pose proof (value_size_elem l x Hx). lia.
  - apply Ho. intros k x Hk.
    apply (IH (value_size x)); [| done]. cbn.
    pose proof (value_size_lookup m k x Hk). lia.
Qed.

(** What [JSON.stringify] writes for an array element. *)
Definition element (x : value) : value :=
  match to_json x with VUndefined => VNull | y => y end.

Lemma to_json_arr (l : list value) : to_json (VArr l) = VArr (element <$> l).
Proof. reflexivity. Qed.

(** Writing what was read back writes the same text. *)
Lemma to_json_idemp (v : value) : to_json (to_json v) = to_json v.
Proof.
  induction v as [| | | | |l IH|m IH] using value_nested_ind; try reflexivity.
  - rewrite !to_json_arr. f_equal. rewrite <- list_fmap_compose.
    apply Forall_fmap_ext_1. eapply Forall_impl; [exact IH |].
    intros x Hx. cbn beta in Hx. unfold compose, element.
    destruct (to_json x) eqn:Hj; rewrite ?Hj in Hx; try reflexivity; by rewrite Hx.
  - rewrite !to_json_obj. f_equal. apply map_eq. intros k.
    rewrite !lookup_omap.
    destruct (m !! k) as [x|] eqn:Hk; [| done]. cbn [mbind option_bind].
    specialize (IH k x Hk). cbn beta in IH. unfold kept at 2 3.
    destruct (to_json x) eqn:Hj; rewrite ?Hj in IH; cbn [mbind option_bind];
      try reflexivity; unfold kept; by rewrite IH.
Qed.

Lemma is_json_to_json (v : value) : is_json (to_json v).
Proof. apply to_json_idemp. Qed.


Lemma to_json_strings (l : list string) : to_json (strings l) = strings l.
Proof.
  unfold strings. rewrite to_json_arr. f_equal. rewrite <- list_fmap_compose.
  by apply list_fmap_ext.
Qed.

End JsonFacts.

(** ** ORDER BY *)
Module OrderFacts.
Import JS Store Queries.

Lemma ascii_compare_lt_trans (a b c : ascii) :
  Ascii.compare a b = Lt → Ascii.compare b c = Lt → Ascii.compare a c = Lt.
Proof.
  unfold Ascii.compare. rewrite !N.compare_lt_iff. lia.
Qed.

Lemma string_compare_trans (a b c : string) :
  String.compare a b ≠ Gt → String.compare b c ≠ Gt → String.compare a c ≠ Gt.
Proof.
  revert b c. induction a as [|x a IH]; intros [|y b] [|z c]; cbn; try done.
  destruct (Ascii.compare x y) eqn:Hxy; [| | done].
  - apply Ascii.compare_eq_iff in Hxy as ->.
    destruct (Ascii.compare y z) eqn:Hyz; [apply IH | done | done].
  - destruct (Ascii.compare y z) eqn:Hyz; [| | done].
    + apply Ascii.compare_eq_iff in Hyz as <-. by rewrite Hxy.
    + by rewrite (ascii_compare_lt_trans x y z).
Qed.

Lemma string_leb_trans (a b c : string) :
  String.leb a b = true → String.leb b c = true → String.leb a c = true.
Proof.
  unfold String.leb. intros Hab Hbc.
  pose proof (string_compare_trans a b c) as H.
  destruct (String.compare a b), (String.compare b c), (String.compare a c);
    try done; exfalso; by apply H.
Qed.

Lemma created_desc_total a b : created_desc a b = true ∨ created_desc b a = true.
Proof. apply String.leb_total. Qed.

Lemma created_desc_trans a b c :
  created_desc a b = true → created_desc b c = true → created_desc a c = true.
Proof. unfold created_desc. intros H1 H2. by eapply string_leb_trans. Qed.

Lemma transcript_asc_total a b : transcript_asc a b = true ∨ transcript_asc b a = true.
Proof. unfold transcript_asc. rewrite !Z.leb_le. lia. Qed.

Lemma transcript_asc_trans a b c :
  transcript_asc a b = true → transcript_asc b c = true → transcript_asc a c = true.
Proof. unfold transcript_asc. rewrite !Z.leb_le. lia. Qed.

Lemma interaction_asc_total a b : interaction_asc a b = true ∨ interaction_asc b a = true.
Proof. unfold interaction_asc. rewrite !Z.leb_le. lia. Qed.

Lemma interaction_asc_trans a b c :
  interaction_asc a b = true → interaction_asc b c = true → interaction_asc a c = true.
Proof. unfold interaction_asc. rewrite !Z.leb_le. lia. Qed.

Definition before {A} (le : A -> A -> bool) : relation A := fun x y => le x y = true.

#[local] Instance before_dec {A} (le : A -> A -> bool) : RelDecision (before le).
Proof. intros x y. unfold before. apply _. Defined.

Lemma merge_sort_sorted {A} (le : A -> A -> bool) (l : list A) :
  (∀ x y, le x y = true ∨ le y x = true) →
  (∀ x y z, le x y = true → le y z = true → le x z = true) →
  StronglySorted (fun x y => le x y = true) (merge_sort (before le) l).
Proof.
  intros Htotal Htrans.
  assert (Transitive (before le)) by (intros x y z; apply Htrans).
  assert (Total (before le)) by (intros x y; apply Htotal).
  by apply (StronglySorted_merge_sort (before le)).
Qed.

(** An engine: merge sort. *)
Definition merge_engine : Engine :=
  {| order_by := fun A le l => merge_sort (before le) l;
     order_by_permutation := fun A le l => merge_sort_Permutation (before le) l;
     order_by_sorted := fun A le l => merge_sort_sorted le l |}.

(** Rows that come in strictly increasing key order are returned as they
    are, by every engine. *)
Lemma order_by_increasing (E : Engine) {A} (le : A -> A -> bool) (l : list A) :
  (∀ x y, le x y = true ∨ le y x = true) →
  (∀ x y z, le x y = true → le y z = true → le x z = true) →
  StronglySorted (fun x y => le x y = true ∧ le y x = false) l →
  order_by E A le l = l.
Proof.
  intros Htotal Htrans Hs.
  apply (StronglySorted_unique_strong (fun x y => le x y = true)).
  - intros x y Hx Hy Hxy Hyx.
    rewrite (order_by_permutation E) in Hx.
    clear -Hs Hx Hy Hxy Hyx.
    induction Hs as [|z l Hs IH Hall]; [by apply elem_of_nil in Hx |].
    rewrite Forall_forall in Hall.
    apply elem_of_cons in Hx as [-> | Hx], Hy as [-> | Hy].
    + done.
    + destruct (Hall y Hy) as [_ H]. congruence.
    + destruct (Hall x Hx) as [_ H]. congruence.
    + by apply IH.
  - by apply order_by_sorted.
  - clear -Hs. induction Hs as [|z l Hs IH Hall]; constructor; [done |].
    eapply Forall_impl; [exact Hall |]. by intros y [H _].
  - apply order_by_permutation.
Qed.

End OrderFacts.

(** ** The meeting store: what every call keeps *)
Module BuiltFacts.
Import JS Store Queries SaveFacts SummaryFacts StoreOpsFacts JsonFacts.

(** Every transcript row and every interaction row belongs to a stored
    meeting. *)
Definition no_orphans (db : Tables) : Prop :=
  Forall (fun r => is_Some (meetings db !! t_meeting_id r)) (transcripts db)
  ∧ Forall (fun r => is_Some (meetings db !! i_meeting_id r)) (ai_interactions db).

(** The row ids of a table grow along the table, and none is above the
    AUTOINCREMENT counter of the table. *)
Definition ids_issued (db : Tables) : Prop :=
  StronglySorted lt (t_id <$> transcripts db)
  ∧ Forall (fun n => n ≤ seq_transcripts (sequences db)) (t_id <$> transcripts db)
  ∧ StronglySorted lt (i_id <$> ai_interactions db)
  ∧ Forall (fun n => n ≤ seq_interactions (sequences db)) (i_id <$> ai_interactions db).

(** Every [summary_json] cell holds a JSON object, whose [detailedSummary]
    is an object when it is there. *)
Definition summary_object (row : MeetingRow) : Prop :=
  ∃ m, summary_json row = Some (JsonText (VObj m))
       ∧ is_json (VObj m)
       ∧ (m !! "detailedSummary" = None ∨ ∃ d, m !! "detailedSummary" = Some (VObj d)).

Definition readable (db : Tables) : Prop :=
  ∀ k row, meetings db !! k = Some row → summary_object row.

(** *** What [saveMeeting] stores *)

Lemma saved_meetings_insert meeting s d db :
  meetings (saved meeting s d db) = <[id meeting := meeting_row meeting s d]> (meetings db).
Proof.
  unfold saved, insert_or_replace_meeting, delete_from_meetings. cbn.
  destruct (meetings db !! id meeting); cbn; [| done].
  apply insert_delete_eq.
Qed.

Lemma saved_sequences meeting s d db :
  sequences (saved meeting s d db)
  = mkSequences (seq_transcripts (sequences db) + length (segments_of meeting))
      (seq_interactions (sequences db) + length (usages_of meeting))
      (seq_chunks (sequences db)) (seq_summaries (sequences db))
      (seq_queue (sequences db)).
Proof.
  unfold saved, insert_or_replace_meeting, delete_from_meetings. cbn.
  by destruct (meetings db !! id meeting).
Qed.

Lemma filter_others {A} (key : A -> string) (k : string) (l : list A) :
  Forall (fun r => key r ≠ k) l → filter (fun r => key r ≠ k) l = l.
Proof.
  induction 1 as [|x l Hx Hl IH]; [done |].
  rewrite filter_cons_True by done. by rewrite IH.
Qed.

Lemma saved_transcripts meeting s d db :
  no_orphans db →
  transcripts (saved meeting s d db)
  = filter (fun r => t_meeting_id r ≠ id meeting) (transcripts db)
    ++ transcript_rows (id meeting) (S (seq_transcripts (sequences db)))
         (segments_of meeting).
Proof.
  intros [Ht _]. unfold saved, insert_or_replace_meeting, delete_from_meetings. cbn.
  destruct (meetings db !! id meeting) eqn:Hm; cbn; [done |].
  f_equal. symmetry. apply filter_others.
  eapply Forall_impl; [exact Ht |]. intros r [x Hr] Heq. cbn in Hr. congruence.
Qed.

Lemma saved_interactions meeting s d db :
  no_orphans db →
  ai_interactions (saved meeting s d db)
  = filter (fun r => i_meeting_id r ≠ id meeting) (ai_interactions db)
    ++ interaction_rows (id meeting) (S (seq_interactions (sequences db)))
         (usages_of meeting).
Proof.
  intros [_ Hi]. unfold saved, insert_or_replace_meeting, delete_from_meetings. cbn.
  destruct (meetings db !! id meeting) eqn:Hm; cbn; [done |].
  f_equal. symmetry. apply filter_others.
  eapply Forall_impl; [exact Hi |]. intros r [x Hr] Heq. cbn in Hr. congruence.
Qed.

Lemma saveMeeting_fault_free fault meeting s d db :
  (∀ k, k < statements meeting → fault k = false) →
  saveMeeting fault meeting s d db = (saved meeting s d db, Ok tt).
Proof.
  intros Hf.
  pose proof (saveMeeting_body_runs fault meeting s d db) as H.
  unfold saveMeeting, transaction.
  destruct (saveMeeting_body fault meeting s d (mkExec db 0)) as [e [[]|]].
  - by destruct H as [_ ->].
  - exfalso. by apply (fault_free_not_faulty fault 0 (statements meeting)).
Qed.

Lemma saveMeeting_cases fault meeting s d db :
  saveMeeting fault meeting s d db = (db, Throw)
  ∨ saveMeeting fault meeting s d db = (saved meeting s d db, Ok tt).
Proof.
  pose proof (saveMeeting_body_runs fault meeting s d db) as H.
  unfold saveMeeting, transaction.
  destruct (saveMeeting_body fault meeting s d (mkExec db 0)) as [e [[]|]].
  - right. by destruct H as [_ ->].
  - by left.
Qed.

Lemma transcript_rows_ids k first segments :
  t_id <$> transcript_rows k first segments = seq first (length segments).
Proof.
  unfold transcript_rows. revert first.
  induction segments as [|x l IH]; intros first; [done |].
  cbn. rewrite Nat.add_0_r. f_equal.
  rewrite <- IH. f_equal. apply imap_ext. intros i y _. cbn. f_equal. lia.
Qed.

Lemma interaction_rows_ids k first us :
  i_id <$> interaction_rows k first us = seq first (length us).
Proof.
  unfold interaction_rows. revert first.
  induction us as [|x l IH]; intros first; [done |].
  cbn. rewrite Nat.add_0_r. f_equal.
  rewrite <- IH. f_equal. apply imap_ext. intros i y _. cbn. f_equal. lia.
Qed.

Lemma transcript_rows_owner k first segments :
  Forall (fun r => t_meeting_id r = k) (transcript_rows k first segments).
Proof.
  unfold transcript_rows. apply Forall_forall. intros r Hr.
  apply elem_of_lookup_imap in Hr as (i & x & -> & _). done.
Qed.

Lemma interaction_rows_owner k first us :
  Forall (fun r => i_meeting_id r = k) (interaction_rows k first us).
Proof.
  unfold interaction_rows. apply Forall_forall. intros r Hr.
  apply elem_of_lookup_imap in Hr as (i & x & -> & _). done.
Qed.

(** Ids that grow stay growing when rows are deleted and when rows with
    the next ids are appended. *)
Lemma ids_grow {A} (key : A -> nat) (P : A -> Prop) `{∀ x, Decision (P x)}
    (l : list A) (counter n : nat) (new : list A) :
  StronglySorted lt (key <$> l) →
  Forall (fun i => i ≤ counter) (key <$> l) →
  key <$> new = seq (S counter) n →
  StronglySorted lt (key <$> (filter P l ++ new))
  ∧ Forall (fun i => i ≤ counter + n) (key <$> (filter P l ++ new)).
Proof.
  intros Hs Hb Hnew. rewrite fmap_app, Hnew. split.
  - induction l as [|x l IH].
    + cbn. clear. generalize (S counter).
      induction n as [|n IH]; intros a; cbn; constructor.
      * apply IH.
      * apply Forall_forall. intros i Hi. apply elem_of_seq in Hi. lia.
    + rewrite fmap_cons in Hs, Hb. apply StronglySorted_inv in Hs as [Hs Hall].
      apply Forall_cons in Hb as [Hx Hb]. specialize (IH Hs Hb).
      rewrite filter_cons. destruct (decide (P x)); [| done].
      rewrite fmap_cons. cbn [app].
      constructor; [done |]. apply Forall_app. split.
      * rewrite Forall_forall in *. intros i Hi. apply Hall.
        apply list_elem_of_fmap in Hi as (y & -> & Hy).
        apply list_elem_of_fmap. exists y. split; [done |].
        by apply list_elem_of_filter in Hy as [_ Hy].
      * apply Forall_forall. intros i Hi. apply elem_of_seq in Hi. lia.
  - apply Forall_app. split.
    + rewrite Forall_forall in *. intros i Hi.
      apply list_elem_of_fmap in Hi as (y & -> & Hy).
      apply list_elem_of_filter in Hy as [_ Hy].
      assert (key y ≤ counter); [| lia].
      apply Hb. apply list_elem_of_fmap. by exists y.
    + apply Forall_forall. intros i Hi. apply elem_of_seq in Hi. lia.
Qed.

(** *** What the other calls store *)

Lemma updateMeetingSummary_cases fault id updates db :
  updateMeetingSummary fault id updates db = (db, false)
  ∨ ∃ row existing cur,
      meetings db !! id = Some row
      ∧ parse_or_empty (summary_json row) = Some existing
      ∧ prop "detailedSummary" existing = Some cur
      ∧ updateMeetingSummary fault id updates db
        = (with_summary_json id row
             (stringify (VObj (<["detailedSummary" :=
                VObj (updates ∪ spread (if js_truthy cur then cur else VObj ∅))]>
                (spread existing)))) db, true).
Proof.
  unfold updateMeetingSummary, bind, run_stmt. cbn [tables executed].
  destruct (fault 0); [by left |].
  destruct (meetings db !! id) as [row|] eqn:Hm; [| by left].
  destruct (parse_or_empty (summary_json row)) as [existing|] eqn:Hp; [| by left].
  destruct (prop "detailedSummary" existing) as [cur|] eqn:Hc; [| by left].
  cbn [tables executed]. destruct (fault 1); [by left |].
  right. exists row, existing, cur. split_and!; try done.
  unfold update_summary_json. rewrite Hm. reflexivity.
Qed.

Lemma updateMeetingTitle_cases fault id new_title db :
  updateMeetingTitle fault id new_title db = (db, false)
  ∨ ∃ row, meetings db !! id = Some row
           ∧ updateMeetingTitle fault id new_title db
             = (snd (update_title id new_title db), true).
Proof.
  unfold updateMeetingTitle, run_stmt. cbn [tables executed].
  destruct (fault 0); [by left |].
  unfold update_title. destruct (meetings db !! id) as [row|] eqn:Hm; [| by left].
  right. by exists row.
Qed.

Lemma seedDemoMeeting_cases fault today todayMs db :
  seedDemoMeeting fault today todayMs db = (db, Throw)
  ∨ (is_Some (meetings db !! demoId)
     ∧ seedDemoMeeting fault today todayMs db = (db, Ok tt))
  ∨ (meetings db !! demoId = None
     ∧ seedDemoMeeting fault today todayMs db
       = (saved (demoMeeting today) todayMs 288000 db, Ok tt)).
Proof.
  unfold seedDemoMeeting, query, run_stmt. cbn [tables executed].
  destruct (fault 0); [by left |].
  destruct (meetings db !! demoId) as [row|] eqn:Hm.
  - right. left. split; [by eexists | done].
  - destruct (saveMeeting_cases (fun k => fault (S k)) (demoMeeting today)
                todayMs 288000 db) as [-> | ->]; [by left | right; by right].
Qed.

(** *** The cells that are written are JSON objects *)

Lemma stringify_summary_object (m : gmap string value) (row : MeetingRow) :
  summary_json row = Some (stringify (VObj m)) →
  (m !! "detailedSummary" = None ∨ m !! "detailedSummary" = Some VUndefined
   ∨ ∃ d, m !! "detailedSummary" = Some (VObj d)) →
  summary_object row.
Proof.
  intros Hs Hd. exists (omap kept m). split_and!.
  - by rewrite Hs.
  - rewrite <- to_json_obj. apply is_json_to_json.
  - rewrite lookup_omap. destruct Hd as [-> | [-> | [d ->]]]; [by left | by left |].
    right. by eexists.
Qed.

Lemma meeting_row_summary_object meeting s d : summary_object (meeting_row meeting s d).
Proof.
  eapply stringify_summary_object; [reflexivity |].
  rewrite lookup_insert_ne by done. rewrite lookup_insert_eq.
  destruct (detailedSummary meeting) as [dd|]; [right; right; by eexists | right; by left].
Qed.

(** *** The invariants *)

Definition invariants (db : Tables) : Prop :=
  no_orphans db ∧ ids_issued db ∧ readable db.

Lemma invariants_empty : invariants empty.
Proof.
  split_and!.
  - split; constructor.
  - unfold ids_issued. cbn. split_and!; constructor.
  - intros k row Hk. cbn in Hk. by rewrite lookup_empty in Hk.
Qed.

Lemma invariants_saved meeting s d db :
  invariants db → invariants (saved meeting s d db).
Proof.
  intros (Ho & Hi & Hr). split_and!.
  - split.
    + rewrite saved_transcripts by done. rewrite saved_meetings_insert.
      apply Forall_app. split.
      * destruct Ho as [Ht _]. rewrite Forall_forall in *. intros r Hin.
        apply list_elem_of_filter in Hin as [Hne Hin].
        rewrite lookup_insert_ne by done. by apply Ht.
      * eapply Forall_impl; [apply transcript_rows_owner |].
        intros r ->. rewrite lookup_insert_eq. by eexists.
    + rewrite saved_interactions by done. rewrite saved_meetings_insert.
      apply Forall_app. split.
      * destruct Ho as [_ Ht]. rewrite Forall_forall in *. intros r Hin.
        apply list_elem_of_filter in Hin as [Hne Hin].
        rewrite lookup_insert_ne by done. by apply Ht.
      * eapply Forall_impl; [apply interaction_rows_owner |].
        intros r ->. rewrite lookup_insert_eq. by eexists.
  - destruct Hi as (Ht & Htb & Hu & Hub). unfold ids_issued.
    rewrite saved_transcripts, saved_interactions, saved_sequences by done.
    cbn [seq_transcripts seq_interactions].
    pose proof (ids_grow t_id (fun r => t_meeting_id r ≠ id meeting) (transcripts db)
                  (seq_transcripts (sequences db)) (length (segments_of meeting))
                  (transcript_rows (id meeting) (S (seq_transcripts (sequences db)))
                     (segments_of meeting)) Ht Htb (transcript_rows_ids _ _ _)) as [H1 H2].
    pose proof (ids_grow i_id (fun r => i_meeting_id r ≠ id meeting) (ai_interactions db)
                  (seq_interactions (sequences db)) (length (usages_of meeting))
                  (interaction_rows (id meeting) (S (seq_interactions (sequences db)))
                     (usages_of meeting)) Hu Hub (interaction_rows_ids _ _ _)) as [H3 H4].
    by split_and!.
  - intros k row. rewrite saved_meetings_insert.
    destruct (decide (id meeting = k)) as [<-|Hne].
    + rewrite lookup_insert_eq. intros [= <-]. apply meeting_row_summary_object.
    + rewrite lookup_insert_ne by done. apply Hr.
Qed.

Lemma invariants_update_title id new_title db :
  invariants db → invariants (snd (update_title id new_title db)).
Proof.
  intros (Ho & Hi & Hr).
  pose proof (update_title_tables id new_title db) as (Ht & Hu & _ & _ & _ & Hs & Hm).
  split_and!.
  - destruct Ho as [H1 H2]. split.
    + rewrite Ht. eapply Forall_impl; [exact H1 |]. intros r. apply Hm.
    + rewrite Hu. eapply Forall_impl; [exact H2 |]. intros r. apply Hm.
  - unfold ids_issued. by rewrite Ht, Hu, Hs.
  - intros k row. unfold update_title.
    destruct (meetings db !! id) as [old|] eqn:Hold; cbn; [| apply Hr].
    destruct (decide (id = k)) as [<-|Hne].
    + rewrite lookup_insert_eq. intros [= <-].
      destruct (Hr id old Hold) as (m & H1 & H2 & H3). by exists m.
    + rewrite lookup_insert_ne by done. apply Hr.
Qed.

Lemma invariants_with_summary_json id row m db :
  meetings db !! id = Some row →
  invariants db →
  invariants (with_summary_json id row
                (stringify (VObj (<["detailedSummary" := VObj m]> (spread
                   (default (VObj ∅) (parse_or_empty (summary_json row))))))) db).
Proof.
  intros Hrow (Ho & Hi & Hr). split_and!.
  - destruct Ho as [H1 H2]. split; cbn.
    + eapply Forall_impl; [exact H1 |]. intros r [x Hx].
      destruct (decide (id = t_meeting_id r)) as [<-|Hne].
      * rewrite lookup_insert_eq. by eexists.
      * rewrite lookup_insert_ne by done. by eexists.
    + eapply Forall_impl; [exact H2 |]. intros r [x Hx].
      destruct (decide (id = i_meeting_id r)) as [<-|Hne].
      * rewrite lookup_insert_eq. by eexists.
      * rewrite lookup_insert_ne by done. by eexists.
  - exact Hi.
  - intros k r. cbn.
    destruct (decide (id = k)) as [<-|Hne].
    + rewrite lookup_insert_eq. intros [= <-].
      eapply stringify_summary_object; [reflexivity |].
      rewrite lookup_insert_eq. right. right. by eexists.
    + rewrite lookup_insert_ne by done. apply Hr.
Qed.

Lemma invariants_delete id db :
  invariants db → invariants (delete_meeting_row id db).
Proof.
  intros (Ho & Hi & Hr). split_and!.
  - destruct Ho as [H1 H2]. split; cbn.
    + rewrite Forall_forall in *. intros r Hin.
      apply list_elem_of_filter in Hin as [Hne Hin].
      rewrite lookup_delete_ne by done. by apply H1.
    + rewrite Forall_forall in *. intros r Hin.
      apply list_elem_of_filter in Hin as [Hne Hin].
      rewrite lookup_delete_ne by done. by apply H2.
  - destruct Hi as (Ht & Htb & Hu & Hub). unfold ids_issued. cbn.
    pose proof (ids_grow t_id (fun r => t_meeting_id r ≠ id) (transcripts db)
                  (seq_transcripts (sequences db)) 0 [] Ht Htb eq_refl) as [H1 H2].
    pose proof (ids_grow i_id (fun r => i_meeting_id r ≠ id) (ai_interactions db)
                  (seq_interactions (sequences db)) 0 [] Hu Hub eq_refl) as [H3 H4].
    rewrite app_nil_r in H1, H2, H3, H4. rewrite Nat.add_0_r in H2, H4.
    by split_and!.
  - intros k row. cbn. intros Hk.
    apply lookup_delete_Some in Hk as [_ Hk]. by eapply Hr.
Qed.

Lemma invariants_after fault c db : invariants db → invariants (after fault c db).
Proof.
  intros Hinv. destruct c as [meeting s d | id t | id updates | id | today todayMs];
    cbn [after].
  - destruct (saveMeeting_cases fault meeting s d db) as [-> | ->]; cbn [fst];
      [done | by apply invariants_saved].
  - destruct (updateMeetingTitle_cases fault id t db) as [-> | (row & _ & ->)];
      cbn [fst]; [done | by apply invariants_update_title].
  - destruct (updateMeetingSummary_cases fault id updates db)
      as [-> | (row & existing & cur & Hrow & Hp & _ & ->)]; cbn [fst]; [done |].
    pose proof (invariants_with_summary_json id row
                  (updates ∪ spread (if js_truthy cur then cur else VObj ∅)) db
                  Hrow Hinv) as H.
    by rewrite Hp in H.
  - destruct (deleteMeeting_result fault id db) as [-> | (_ & ->)]; cbn [fst];
      [done | by apply invariants_delete].
  - destruct (seedDemoMeeting_cases fault today todayMs db)
      as [-> | [(_ & ->) | (_ & ->)]]; cbn [fst];
      [done | done | by apply invariants_saved].
Qed.

Lemma built_invariants db : built db → invariants db.
Proof.
  induction 1 as [|fault c db _ IH]; [apply invariants_empty | by apply invariants_after].
Qed.

End BuiltFacts.

(** ** The meeting store: reading meetings back *)
Module ReadFacts.
Import JS Store Queries SaveFacts SummaryFacts StoreOpsFacts JsonFacts OrderFacts BuiltFacts.

(** *** Running the read methods *)

Lemma getMeetingDetails_missing fault E id db :
  fault 0 = false → meetings db !! id = None →
  getMeetingDetails fault E id db = Ok None.
Proof.
  intros H0 Hm. unfold getMeetingDetails, returned, bind, query, run_stmt.
  cbn [tables executed]. by rewrite H0, Hm.
Qed.

Lemma getMeetingDetails_stored fault E id db row fields :
  (∀ k, k < 3 → fault k = false) →
  meetings db !! id = Some row →
  summary_fields row = Some fields →
  getMeetingDetails fault E id db
  = Ok (Some {| l_id := id;
                l_title := title row;
                l_date := created_at row;
                l_duration := durationStr (duration_ms row);
                l_summary := fields.1;
                l_detailedSummary := fields.2;
                l_calendarEventId := calendar_event_id row;
                l_source := source row;
                l_isProcessed := None;
                l_transcript := segment_view <$> order_by E _ transcript_asc
                  (filter (fun r => t_meeting_id r = id) (transcripts db));
                l_usage := usage_view <$> order_by E _ interaction_asc
                  (filter (fun r => i_meeting_id r = id) (ai_interactions db)) |}).
Proof.
  intros Hf Hm Hs. unfold getMeetingDetails, returned, bind, query, run_stmt.
  cbn [tables executed]. rewrite (Hf 0), Hm by lia. cbn [tables executed].
  rewrite (Hf 1) by lia. cbn [tables executed]. rewrite (Hf 2) by lia.
  cbn [tables executed]. rewrite Hs. reflexivity.
Qed.

(** [getMeetingDetails] reads the row of the meeting and the transcript
    and interaction rows that name it, nothing else. *)
Lemma getMeetingDetails_ext fault E id db db' :
  meetings db' !! id = meetings db !! id →
  filter (fun r => t_meeting_id r = id) (transcripts db')
  = filter (fun r => t_meeting_id r = id) (transcripts db) →
  filter (fun r => i_meeting_id r = id) (ai_interactions db')
  = filter (fun r => i_meeting_id r = id) (ai_interactions db) →
  getMeetingDetails fault E id db' = getMeetingDetails fault E id db.
Proof.
  intros Hm Ht Hi. unfold getMeetingDetails, returned, bind, query, run_stmt.
  cbn [tables executed]. rewrite Hm.
  destruct (fault 0); [done |]. destruct (meetings db !! id) as [row|]; [| done].
  cbn [tables executed]. rewrite Ht. destruct (fault 1); [done |].
  cbn [tables executed]. rewrite Hi. destruct (fault 2); [done |].
  unfold of_option, ret, throw. by destruct (summary_fields row).
Qed.

(** The fields of a cell that holds a JSON object. *)
Lemma summary_fields_object row m :
  summary_json row = Some (JsonText (VObj m)) →
  summary_fields row
  = Some (js_or (default VUndefined (m !! "legacySummary")) (VStr ""),
          default VUndefined (m !! "detailedSummary")).
Proof. intros Hs. unfold summary_fields. rewrite Hs. reflexivity. Qed.

Lemma readable_fields db k row :
  readable db → meetings db !! k = Some row → is_Some (summary_fields row).
Proof.
  intros Hr Hk. destruct (Hr k row Hk) as (m & Hs & _ & _).
  rewrite (summary_fields_object row m Hs). by eexists.
Qed.

(** *** Reading back what [saveMeeting] stored *)

Lemma own_rows {A} (key : A -> string) (k : string) (old new : list A) :
  Forall (fun r => key r = k) new →
  filter (fun r => key r = k) (filter (fun r => key r ≠ k) old ++ new) = new.
Proof.
  intros Hnew. rewrite filter_app.
  assert (H1 : filter (fun r => key r = k) (filter (fun r => key r ≠ k) old) = []).
  { induction old as [|x old IH]; [done |].
    rewrite (filter_cons (fun r => key r ≠ k)).
    destruct (decide (key x ≠ k)) as [Hne|]; [| done].
    by rewrite filter_cons_False. }
  rewrite H1. cbn [app].
  induction Hnew as [|x new Hx Hnew IH]; [done |].
  rewrite filter_cons_True by done. by rewrite IH.
Qed.

Lemma other_rows {A} (key : A -> string) (k k' : string) (old new : list A) :
  k ≠ k' →
  Forall (fun r => key r = k) new →
  filter (fun r => key r = k') (filter (fun r => key r ≠ k) old ++ new)
  = filter (fun r => key r = k') old
  ∧ filter (fun r => key r = k') (old ++ new) = filter (fun r => key r = k') old.
Proof.
  intros Hne Hnew.
  assert (H2 : filter (fun r => key r = k') new = []).
  { induction Hnew as [|x new Hx Hnew IH]; [done |].
    rewrite filter_cons_False by congruence. done. }
  rewrite !filter_app, H2, !app_nil_r. split; [| done].
  induction old as [|x old IH]; [done |].
  rewrite (filter_cons (fun r => key r ≠ k)), (filter_cons (fun r => key r = k')).
  destruct (decide (key x ≠ k)) as [Hx|Hx].
  - rewrite filter_cons. by rewrite IH.
  - destruct (decide (key x = k')) as [Hx'|Hx']; [| done].
    exfalso. apply Hx. congruence.
Qed.

Lemma segment_view_rows k first (segments : list Segment) :
  segment_view <$> transcript_rows k first segments = segments.
Proof.
  unfold transcript_rows. revert first.
  induction segments as [|[sp tx ts] l IH]; intros first; [done |].
  cbn. f_equal. rewrite <- (IH (S first)) at 2. f_equal.
  apply imap_ext. intros i y _. cbn. f_equal. lia.
Qed.

(** What a usage entry is read back as: an empty question or answer comes
    back as none, and the questions that a [followup_questions] entry
    carries as its answer come back as its items. *)
Definition read_back (u : Usage) : UsageOut :=
  {| o_type := u_type u;
     o_timestamp := u_timestamp u;
     o_question := match question u with
                   | Some q => if truthy q then Some q else None
                   | None => None
                   end;
     o_answer := match answer u with
                 | Some (AnswerText a) => if truthy a then Some a else None
                 | _ => None
                 end;
     o_items := match items u, answer u with
                | Some its, _ => Some (VStr <$> its)
                | None, Some (AnswerList l) =>
                    if String.eqb (u_type u) "followup_questions"
                    then Some (VStr <$> l) else None
                | None, _ => None
                end |}.

Lemma items_of_strings (l : list string) :
  items_of (Some (stringify (strings l))) = Some (VStr <$> l).
Proof. unfold stringify. by rewrite to_json_strings. Qed.

Lemma usage_view_row n k (u : Usage) :
  usage_view (mkInteractionRow n k (u_type u) (u_timestamp u) (or_null (question u))
                (answerText u) (metadata_of u))
  = read_back u.
Proof.
  unfold usage_view, read_back. cbn [i_type i_timestamp user_query ai_response metadata_json].
  f_equal.
  unfold metadata_of. destruct (items u) as [its|]; [apply items_of_strings |].
  destruct (String.eqb (u_type u) "followup_questions").
  - destruct (answer u) as [[a|l]|]; [done | apply items_of_strings | done].
  - by destruct (answer u) as [[a|l]|].
Qed.

Lemma usage_view_rows k first (us : list Usage) :
  usage_view <$> interaction_rows k first us = read_back <$> us.
Proof.
  unfold interaction_rows. revert first.
  induction us as [|u l IH]; intros first; [done |].
  cbn [imap fmap list_fmap]. f_equal; [apply usage_view_row |].
  rewrite <- (IH (S first)). f_equal.
  apply imap_ext. intros i y _. cbn. f_equal. lia.
Qed.

Lemma meeting_row_fields meeting s d :
  summary_fields (meeting_row meeting s d)
  = Some (VStr (summary meeting),
          match detailedSummary meeting with
          | Some dd => to_json (VObj dd)
          | None => VUndefined
          end).
Proof.
  rewrite (summary_fields_object _
             (omap kept (<["legacySummary" := VStr (summary meeting)]>
                           (<["detailedSummary" :=
                                match detailedSummary meeting with
                                | Some dd => VObj dd
                                | None => VUndefined
                                end]> ∅)))) by reflexivity.
  rewrite !lookup_omap, lookup_insert_eq, lookup_insert_ne, lookup_insert_eq by done.
  f_equal. f_equal.
  - cbn. unfold js_or. cbn. by destruct (summary meeting).
  - by destruct (detailedSummary meeting).
Qed.

Lemma sorted_views {A B} (le : A -> A -> bool) (f : A -> B) (key : A -> Z) (key' : B -> Z)
    (l : list A) :
  (∀ x y, le x y = true → (key x ≤ key y)%Z) →
  (∀ x, key' (f x) = key x) →
  StronglySorted (fun x y => le x y = true) l →
  StronglySorted (fun a b => (key' a ≤ key' b)%Z) (f <$> l).
Proof.
  intros Hle Hkey. apply StronglySorted_fmap. intros x y Hxy.
  rewrite !Hkey. by apply Hle.
Qed.

Lemma transcript_rows_increasing k first (segments : list Segment) :
  StronglySorted Z.lt (timestamp <$> segments) →
  StronglySorted (fun x y => transcript_asc x y = true ∧ transcript_asc y x = false)
    (transcript_rows k first segments).
Proof.
  unfold transcript_rows. revert first.
  induction segments as [|x l IH]; intros first Hs; [constructor |].
  rewrite fmap_cons in Hs. apply StronglySorted_inv in Hs as [Hs Hall].
  cbn [imap]. constructor.
  - specialize (IH (S first) Hs).
    erewrite imap_ext; [exact IH |]. intros i y _. cbn. f_equal. lia.
  - apply Forall_forall. intros r Hr.
    apply elem_of_lookup_imap in Hr as (i & y & -> & Hy).
    unfold transcript_asc, compose. cbn.
    rewrite Forall_forall in Hall.
    assert (timestamp x < timestamp y)%Z.
    { apply Hall. apply list_elem_of_fmap. exists y. split; [done |].
      by eapply list_elem_of_lookup_2. }
    rewrite Z.leb_le, Z.leb_gt. lia.
Qed.

(** X1.  A meeting that [saveMeeting] stored is read back by
    [getMeetingDetails]: the id, the title, the date, the summary text, the
    calendar event and the source (["manual"] when none was given) are the
    saved ones, the duration is the "M:SS" string of the saved
    milliseconds, the detailed summary is the saved one as JSON keeps it,
    and the transcript and the usage entries are the saved ones in
    timestamp order; a transcript saved in strictly increasing timestamp
    order comes back as it was saved. *)
Theorem getMeetingDetails_after_saveMeeting
    (fault_w fault_r : nat -> bool) (E : Engine) (meeting : Meeting) (s d : Z)
    (db : Tables) :
  built db →
  (∀ k, k < statements meeting → fault_w k = false) →
  (∀ k, k < 3 → fault_r k = false) →
  ∃ got,
    getMeetingDetails fault_r E (id meeting) (fst (saveMeeting fault_w meeting s d db))
    = Ok (Some got)
    ∧ l_id got = id meeting
    ∧ l_title got = m_title meeting
    ∧ l_date got = date meeting
    ∧ l_duration got = durationStr d
    ∧ l_summary got = VStr (summary meeting)
    ∧ l_detailedSummary got = match detailedSummary meeting with
                              | Some dd => to_json (VObj dd)
                              | None => VUndefined
                              end
    ∧ l_calendarEventId got = or_null (calendarEventId meeting)
    ∧ l_source got = Some (default "manual" (or_null (m_source meeting)))
    ∧ l_transcript got ≡ₚ default [] (transcript meeting)
    ∧ StronglySorted (fun a b => (timestamp a ≤ timestamp b)%Z) (l_transcript got)
    ∧ l_usage got ≡ₚ read_back <$> default [] (usage meeting)
    ∧ StronglySorted (fun a b => (o_timestamp a ≤ o_timestamp b)%Z) (l_usage got)
    ∧ (StronglySorted Z.lt (timestamp <$> default [] (transcript meeting)) →
       l_transcript got = default [] (transcript meeting)).
Proof.
  intros Hb Hw Hr. destruct (built_invariants db Hb) as (Ho & _ & _).
  rewrite saveMeeting_fault_free by done. cbn [fst].
  assert (Hm : meetings (saved meeting s d db) !! id meeting
               = Some (meeting_row meeting s d)).
  { rewrite saved_meetings_insert. apply lookup_insert_eq. }
  rewrite (getMeetingDetails_stored fault_r E _ _ _ _ Hr Hm (meeting_row_fields meeting s d)).
  eexists. split; [reflexivity |].
  cbn [l_id l_title l_date l_duration l_summary l_detailedSummary l_calendarEventId
       l_source l_transcript l_usage fst snd].
  rewrite saved_transcripts, saved_interactions by done.
  rewrite (own_rows t_meeting_id) by apply transcript_rows_owner.
  rewrite (own_rows i_meeting_id) by apply interaction_rows_owner.
  split_and!; try reflexivity.
  - rewrite (order_by_permutation E). by rewrite segment_view_rows.
  - apply (sorted_views transcript_asc segment_view t_timestamp_ms timestamp).
    + intros x y. unfold transcript_asc. by rewrite Z.leb_le.
    + done.
    + apply order_by_sorted; [apply transcript_asc_total | apply transcript_asc_trans].
  - rewrite (order_by_permutation E). by rewrite usage_view_rows.
  - apply (sorted_views interaction_asc usage_view i_timestamp o_timestamp).
    + intros x y. unfold interaction_asc. by rewrite Z.leb_le.
    + done.
    + apply order_by_sorted; [apply interaction_asc_total | apply interaction_asc_trans].
  - intros Hs. rewrite order_by_increasing.
    + apply segment_view_rows.
    + apply transcript_asc_total.
    + apply transcript_asc_trans.
    + by apply transcript_rows_increasing.
Qed.

(** No statement fails. *)
Definition quiet : nat -> bool := fun _ => false.

Lemma getMeetingDetails_after_saveMeeting_witness :
  ∃ got,
    getMeetingDetails quiet merge_engine "m7"
      (fst (saveMeeting quiet two_segment_meeting 0 20000 empty)) = Ok (Some got)
    ∧ l_title got = "Kickoff"
    ∧ l_duration got = "0:20"
    ∧ l_transcript got = [mkSegment "user" "Hello." 0; mkSegment "interviewer" "Hi." 900].
Proof.
  destruct (getMeetingDetails_after_saveMeeting quiet quiet merge_engine
              two_segment_meeting 0 20000 empty built_empty
              (fun _ _ => eq_refl) (fun _ _ => eq_refl))
    as (got & Hg & _ & Ht & _ & Hd & _ & _ & _ & _ & _ & _ & _ & _ & Heq).
  exists got. split; [exact Hg |]. split; [exact Ht |]. split.
  - rewrite Hd. vm_compute. reflexivity.
  - apply Heq. cbn. repeat constructor; lia.
Defined.

(** *** A call about one meeting and the other meetings *)

(** The meeting that a call is about. *)
Definition target (c : Call) : string :=
  match c with
  | DoSave meeting _ _ => id meeting
  | DoTitle id _ => id
  | DoSummary id _ => id
  | DoDelete id => id
  | DoSeed _ _ => demoId
  end.

Lemma saved_other_meeting fault E k meeting s d db :
  id meeting ≠ k →
  getMeetingDetails fault E k (saved meeting s d db) = getMeetingDetails fault E k db.
Proof.
  intros Hne. apply getMeetingDetails_ext.
  - rewrite saved_meetings_insert. by apply lookup_insert_ne.
  - pose proof (other_rows t_meeting_id (id meeting) k (transcripts db)
                  (transcript_rows (id meeting) (S (seq_transcripts (sequences db)))
                     (segments_of meeting)) Hne (transcript_rows_owner _ _ _)) as [H1 H2].
    unfold saved, insert_or_replace_meeting, delete_from_meetings. cbn.
    by destruct (meetings db !! id meeting).
  - pose proof (other_rows i_meeting_id (id meeting) k (ai_interactions db)
                  (interaction_rows (id meeting) (S (seq_interactions (sequences db)))
                     (usages_of meeting)) Hne (interaction_rows_owner _ _ _)) as [H1 H2].
    unfold saved, insert_or_replace_meeting, delete_from_meetings. cbn.
    by destruct (meetings db !! id meeting).
Qed.

(** X2.  A call about one meeting leaves what [getMeetingDetails] returns
    for every other meeting as it is, whether the call commits or fails:
    saving, renaming, summarising, deleting a meeting and seeding the demo
    meeting touch no row of another meeting. *)
Theorem getMeetingDetails_of_other_meeting
    (fault_c fault : nat -> bool) (E : Engine) (c : Call) (k : string) (db : Tables) :
  target c ≠ k →
  getMeetingDetails fault E k (after fault_c c db) = getMeetingDetails fault E k db.
Proof.
  intros Hne. destruct c as [meeting s d | id t | id updates | id | today todayMs];
    cbn [after target] in *.
  - destruct (saveMeeting_cases fault_c meeting s d db) as [-> | ->]; cbn [fst];
      [done | by apply saved_other_meeting].
  - destruct (updateMeetingTitle_cases fault_c id t db) as [-> | (row & Hrow & ->)];
      cbn [fst snd]; [done |].
    pose proof (update_title_tables id t db) as (Ht & Hu & _).
    apply getMeetingDetails_ext; [| by rewrite Ht | by rewrite Hu].
    unfold update_title. rewrite Hrow. cbn. by apply lookup_insert_ne.
  - destruct (updateMeetingSummary_cases fault_c id updates db)
      as [-> | (row & existing & cur & Hrow & _ & _ & ->)]; cbn [fst]; [done |].
    apply getMeetingDetails_ext; [| done | done].
    cbn. by apply lookup_insert_ne.
  - destruct (deleteMeeting_result fault_c id db) as [-> | (_ & ->)]; cbn [fst]; [done |].
    pose proof (other_rows t_meeting_id id k (transcripts db) [] Hne (Forall_nil_2 _))
      as [H1 _].
    pose proof (other_rows i_meeting_id id k (ai_interactions db) [] Hne (Forall_nil_2 _))
      as [H2 _].
    rewrite app_nil_r in H1, H2.
    apply getMeetingDetails_ext; [| done | done].
    cbn. by apply lookup_delete_ne.
  - destruct (seedDemoMeeting_cases fault_c today todayMs db)
      as [-> | [(_ & ->) | (_ & ->)]]; cbn [fst];
      [done | done | by apply saved_other_meeting].
Qed.

Lemma getMeetingDetails_of_other_meeting_witness :
  "m8" ≠ "m7"
  ∧ getMeetingDetails quiet merge_engine "m7"
      (after quiet (DoDelete "m8")
         (fst (saveMeeting quiet two_segment_meeting 0 20000 empty)))
    = getMeetingDetails quiet merge_engine "m7"
        (fst (saveMeeting quiet two_segment_meeting 0 20000 empty)).
Proof.
  split; [discriminate |].
  apply (getMeetingDetails_of_other_meeting quiet quiet merge_engine (DoDelete "m8") "m7").
  cbn. discriminate.
Defined.

End ReadFacts.

(** ** The meeting store: the lists of meetings *)
Module ListFacts.
Import JS Store Queries SaveFacts SummaryFacts StoreOpsFacts JsonFacts OrderFacts BuiltFacts
  ReadFacts.

(** The entry of a list for a row of [meetings]. *)
Definition listed (p : option bool) (r : string * MeetingRow) (x : Loaded) : Prop :=
  l_id x = r.1 ∧ l_title x = title r.2 ∧ l_date x = created_at r.2
  ∧ l_duration x = durationStr (duration_ms r.2)
  ∧ l_isProcessed x = p ∧ l_transcript x = [] ∧ l_usage x = [].

Lemma list_views p db rows :
  readable db →
  Forall (fun r => meetings db !! r.1 = Some r.2) rows →
  ∃ l, mapM (list_view p) rows = Some l ∧ Forall2 (listed p) rows l.
Proof.
  intros Hr Hrows.
  assert (Hsome : is_Some (mapM (list_view p) rows)).
  { apply mapM_is_Some_2. eapply Forall_impl; [exact Hrows |].
    intros r Hk. unfold compose, list_view.
    destruct (readable_fields db r.1 r.2 Hr Hk) as [f ->]. by eexists. }
  destruct Hsome as [l Hl]. exists l. split; [done |].
  apply mapM_Some_1 in Hl. eapply Forall2_impl; [exact Hl |].
  intros r x. unfold list_view.
  destruct (summary_fields r.2) as [f|]; [| done]. cbn. intros [= <-]. by split_and!.
Qed.

Lemma listed_ids p rows l : Forall2 (listed p) rows l → l_id <$> l = fst <$> rows.
Proof.
  induction 1 as [|r x rows l Hx _ IH]; [done |].
  cbn. rewrite IH. f_equal. by destruct Hx as [-> _].
Qed.

Lemma listed_sorted p rows l :
  Forall2 (listed p) rows l →
  StronglySorted (fun a b => created_desc a b = true) rows →
  StronglySorted (fun a b => String.leb (l_date b) (l_date a) = true) l.
Proof.
  induction 1 as [|r x rows l Hx Hl IH]; intros Hs; [constructor |].
  apply StronglySorted_inv in Hs as [Hs Hall]. constructor; [by apply IH |].
  destruct Hx as (_ & _ & Hd & _).
  eapply Forall2_Forall_r; [exact Hl |].
  eapply Forall_impl; [exact Hall |]. intros r' Hr' y (_ & _ & Hd' & _).
  rewrite Hd, Hd'. exact Hr'.
Qed.

Lemma all_rows_stored (E : Engine) db (P : string * MeetingRow → Prop)
    `{∀ r, Decision (P r)} rows :
  rows `sublist_of` order_by E _ created_desc (filter P (map_to_list (meetings db))) →
  Forall (fun r => meetings db !! r.1 = Some r.2) rows
  ∧ NoDup (fst <$> rows)
  ∧ StronglySorted (fun a b => created_desc a b = true) rows.
Proof.
  intros Hsub. split_and!.
  - apply Forall_forall. intros r Hr.
    eapply elem_of_sublist in Hr; [| exact Hsub].
    rewrite (order_by_permutation E) in Hr.
    apply list_elem_of_filter in Hr as [_ Hr].
    by apply elem_of_map_to_list' in Hr.
  - eapply sublist_NoDup; [| apply fmap_sublist; exact Hsub].
    rewrite (order_by_permutation E).
    eapply sublist_NoDup; [apply (NoDup_fst_map_to_list (meetings db)) |].
    apply fmap_sublist. apply sublist_filter.
  - eapply ChunkerFacts.sublist_strongly_sorted; [exact Hsub |].
    apply order_by_sorted; [apply created_desc_total | apply created_desc_trans].
Qed.

Lemma filter_all {A} (l : list A) : filter (fun _ => True) l = l.
Proof.
  induction l as [|x l IH]; [done |]. rewrite filter_cons_True by done. by rewrite IH.
Qed.

Lemma getRecentMeetings_runs fault E limit db l :
  fault 0 = false →
  mapM (list_view None)
    (limit_rows (default 50%Z limit)
       (order_by E _ created_desc (map_to_list (meetings db)))) = Some l →
  getRecentMeetings fault E limit db = Ok l.
Proof.
  intros H0 Hl. unfold getRecentMeetings, returned, bind, query, run_stmt.
  cbn [tables executed]. rewrite H0. cbn [tables executed]. by rewrite Hl.
Qed.

Lemma getUnprocessedMeetings_runs fault E db l :
  fault 0 = false →
  mapM (list_view (Some false))
    (order_by E _ created_desc
       (filter (fun r => is_processed r.2 = 0%Z) (map_to_list (meetings db)))) = Some l →
  getUnprocessedMeetings fault E db = Ok l.
Proof.
  intros H0 Hl. unfold getUnprocessedMeetings, returned, bind, query, run_stmt.
  cbn [tables executed]. rewrite H0. cbn [tables executed]. by rewrite Hl.
Qed.

Lemma limit_rows_sublist {A} (limit : Z) (l : list A) : limit_rows limit l `sublist_of` l.
Proof. unfold limit_rows. destruct (limit <? 0)%Z; [done | apply sublist_take]. Qed.

(** X3.  On a store that the API built, [getRecentMeetings] returns when
    its statement runs: at most [limit] meetings (50 when no limit is
    given, all of them for a negative limit), each one a stored meeting
    listed once with its title, date and duration and without transcript
    and usage, newest date first; a stored meeting that is left out is no
    newer than any meeting of the list. *)
Theorem getRecentMeetings_newest_first
    (fault : nat -> bool) (E : Engine) (limit : option Z) (db : Tables) :
  built db →
  fault 0 = false →
  ∃ l,
    getRecentMeetings fault E limit db = Ok l
    ∧ length l = (if (default 50%Z limit <? 0)%Z then size (meetings db)
                  else Z.to_nat (default 50%Z limit) `min` size (meetings db))
    ∧ NoDup (l_id <$> l)
    ∧ Forall (fun x => ∃ row, meetings db !! l_id x = Some row
                              ∧ l_title x = title row
                              ∧ l_date x = created_at row
                              ∧ l_duration x = durationStr (duration_ms row)
                              ∧ l_transcript x = [] ∧ l_usage x = []) l
    ∧ StronglySorted (fun a b => String.leb (l_date b) (l_date a) = true) l
    ∧ (∀ k row, meetings db !! k = Some row → k ∉ l_id <$> l →
         Forall (fun x => String.leb (created_at row) (l_date x) = true) l).
Proof.
  intros Hb H0. destruct (built_invariants db Hb) as (_ & _ & Hread).
  set (all := order_by E _ created_desc (map_to_list (meetings db))).
  set (rows := limit_rows (default 50%Z limit) all).
  assert (Hall : all = order_by E _ created_desc
                         (filter (fun _ => True) (map_to_list (meetings db)))).
  { by rewrite filter_all. }
  assert (Hsub : rows `sublist_of` all) by apply limit_rows_sublist.
  destruct (all_rows_stored E db (fun _ => True) rows) as (Hst & Hnd & Hso).
  { by rewrite <- Hall. }
  destruct (list_views None db rows Hread Hst) as (l & Hl & H2).
  exists l. split_and!.
  - by apply getRecentMeetings_runs.
  - rewrite <- (Forall2_length _ _ _ H2). unfold rows, limit_rows.
    assert (Hlen : length all = size (meetings db)).
    { unfold all. rewrite (order_by_permutation E). apply length_map_to_list. }
    destruct (default 50%Z limit <? 0)%Z; [done |]. by rewrite length_take, Hlen.
  - by rewrite (listed_ids None rows l).
  - eapply Forall2_Forall_r; [exact H2 |].
    eapply Forall_impl; [exact Hst |].
    intros r Hr x (Hid & Ht & Hd & Hdu & _ & Htr & Hu).
    exists r.2. rewrite Hid. by split_and!.
  - by eapply listed_sorted.
  - intros k row Hk Hnot. rewrite (listed_ids None rows l H2) in Hnot.
    assert (Hin : (k, row) ∈ all).
    { unfold all. rewrite (order_by_permutation E). by apply elem_of_map_to_list. }
    assert (Hsorted : StronglySorted (fun a b => created_desc a b = true) all).
    { apply order_by_sorted; [apply created_desc_total | apply created_desc_trans]. }
    unfold rows, limit_rows in *.
    destruct (default 50%Z limit <? 0)%Z.
    + exfalso. apply Hnot. apply list_elem_of_fmap. by exists (k, row).
    + set (n := Z.to_nat (default 50%Z limit)) in *.
      rewrite <- (take_drop n all) in Hin, Hsorted.
      apply elem_of_app in Hin as [Hin | Hin].
      { exfalso. apply Hnot. apply list_elem_of_fmap. by exists (k, row). }
      eapply Forall2_Forall_r; [exact H2 |].
      apply Forall_forall. intros r Hr x (_ & _ & Hd & _).
      rewrite Hd.
      exact (StronglySorted_app_1_elem_of _ _ _ r (k, row) Hsorted Hr Hin).
Qed.

Lemma unprocessed_listing fault E db :
  readable db →
  fault 0 = false →
  ∃ l,
    getUnprocessedMeetings fault E db = Ok l
    ∧ NoDup (l_id <$> l)
    ∧ (∀ k, k ∈ l_id <$> l
            ↔ ∃ row, meetings db !! k = Some row ∧ is_processed row = 0%Z)
    ∧ Forall (fun x => l_isProcessed x = Some false
                       ∧ l_transcript x = [] ∧ l_usage x = []) l
    ∧ StronglySorted (fun a b => String.leb (l_date b) (l_date a) = true) l.
Proof.
  intros Hread H0.
  set (rows := order_by E _ created_desc
                 (filter (fun r => is_processed r.2 = 0%Z) (map_to_list (meetings db)))).
  destruct (all_rows_stored E db (fun r => is_processed r.2 = 0%Z) rows)
    as (Hst & Hnd & Hso); [done |].
  destruct (list_views (Some false) db rows Hread Hst) as (l & Hl & H2).
  exists l. split_and!.
  - by apply getUnprocessedMeetings_runs.
  - by rewrite (listed_ids (Some false) rows l).
  - intros k. rewrite (listed_ids _ rows l H2). unfold rows. split.
    + intros Hk. apply list_elem_of_fmap in Hk as ([k' row] & -> & Hin).
      rewrite (order_by_permutation E) in Hin.
      apply list_elem_of_filter in Hin as [Hp Hin].
      apply elem_of_map_to_list in Hin. by exists row.
    + intros (row & Hk & Hp). apply list_elem_of_fmap. exists (k, row).
      split; [done |]. rewrite (order_by_permutation E).
      apply list_elem_of_filter. split; [done | by apply elem_of_map_to_list].
  - eapply Forall2_Forall_r; [exact H2 |].
    apply Forall_forall. intros r _ x (_ & _ & _ & _ & Hp & Htr & Hu). by split_and!.
  - by eapply listed_sorted.
Qed.

(** X4.  On a store that the API built, [getUnprocessedMeetings] returns
    when its statement runs: exactly the stored meetings whose
    [is_processed] is 0, each listed once, marked as not processed, without
    transcript and usage, newest date first. *)
Theorem getUnprocessedMeetings_unprocessed_only
    (fault : nat -> bool) (E : Engine) (db : Tables) :
  built db →
  fault 0 = false →
  ∃ l,
    getUnprocessedMeetings fault E db = Ok l
    ∧ NoDup (l_id <$> l)
    ∧ (∀ k, k ∈ l_id <$> l
            ↔ ∃ row, meetings db !! k = Some row ∧ is_processed row = 0%Z)
    ∧ Forall (fun x => l_isProcessed x = Some false
                       ∧ l_transcript x = [] ∧ l_usage x = []) l
    ∧ StronglySorted (fun a b => String.leb (l_date b) (l_date a) = true) l.
Proof.
  intros Hb H0. destruct (built_invariants db Hb) as (_ & _ & Hread).
  by apply unprocessed_listing.
Qed.

(** X5.  After a [saveMeeting] that committed, [getUnprocessedMeetings]
    lists the saved meeting exactly when it was not saved with
    [isProcessed] true, and lists another meeting exactly when that one is
    stored with [is_processed] 0, as before the call. *)
Theorem saveMeeting_then_unprocessed
    (fault_w fault : nat -> bool) (E : Engine) (meeting : Meeting) (s d : Z)
    (db : Tables) :
  built db →
  (∀ k, k < statements meeting → fault_w k = false) →
  fault 0 = false →
  ∃ l,
    getUnprocessedMeetings fault E (fst (saveMeeting fault_w meeting s d db)) = Ok l
    ∧ (id meeting ∈ l_id <$> l ↔ isProcessed meeting ≠ Some true)
    ∧ (∀ k, k ≠ id meeting →
         (k ∈ l_id <$> l
          ↔ ∃ row, meetings db !! k = Some row ∧ is_processed row = 0%Z)).
Proof.
  intros Hb Hw H0.
  assert (Hb' : built (after fault_w (DoSave meeting s d) db)) by by constructor.
  destruct (built_invariants _ Hb') as (_ & _ & Hread). cbn [after] in Hread.
  destruct (unprocessed_listing fault E _ Hread H0) as (l & Hl & _ & Hiff & _).
  exists l. split; [done |].
  rewrite saveMeeting_fault_free in Hiff by done. cbn [fst] in Hiff.
  split.
  - rewrite Hiff, saved_meetings_insert, lookup_insert_eq. split.
    + intros (row & [= <-] & Hp). cbn in Hp. intros Ht. by rewrite Ht in Hp.
    + intros Hne. eexists. split; [done |]. cbn.
      by destruct (isProcessed meeting) as [[]|].
  - intros k Hk. rewrite Hiff, saved_meetings_insert.
    by rewrite lookup_insert_ne.
Qed.

(** The store after the demo meeting was seeded into the empty tables. *)
Definition seeded : Tables :=
  after quiet (DoSeed "2024-01-01T09:30:00.000Z" 1704101400000) empty.

Lemma built_seeded : built seeded.
Proof. apply built_call. apply built_empty. Defined.

Lemma seeded_details :
  ∃ x, getMeetingDetails quiet merge_engine "demo-meeting-002" seeded = Ok (Some x).
Proof.
  eexists.
  eapply (getMeetingDetails_stored quiet merge_engine "demo-meeting-002" seeded
            (meeting_row (demoMeeting "2024-01-01T09:30:00.000Z") 1704101400000 288000)).
  - intros k Hk. reflexivity.
  - vm_compute. reflexivity.
  - apply meeting_row_fields.
Qed.

Lemma getRecentMeetings_newest_first_witness :
  ∃ l, getRecentMeetings quiet merge_engine None seeded = Ok l
       ∧ length l = 1
       ∧ NoDup (l_id <$> l).
Proof.
  destruct (getRecentMeetings_newest_first quiet merge_engine None seeded
              built_seeded eq_refl) as (l & Hl & Hlen & Hnd & _).
  exists l. split; [exact Hl |]. split; [| exact Hnd].
  rewrite Hlen. vm_compute. reflexivity.
Defined.

Lemma getUnprocessedMeetings_unprocessed_only_witness :
  ∃ l, getUnprocessedMeetings quiet merge_engine seeded = Ok l
       ∧ "demo-meeting-002" ∈ l_id <$> l.
Proof.
  destruct (getUnprocessedMeetings_unprocessed_only quiet merge_engine seeded
              built_seeded eq_refl) as (l & Hl & _ & Hiff & _).
  exists l. split; [exact Hl |]. apply Hiff.
  exists (meeting_row (demoMeeting "2024-01-01T09:30:00.000Z") 1704101400000 288000).
  split; [vm_compute; reflexivity | reflexivity].
Defined.

Lemma saveMeeting_then_unprocessed_witness :
  ∃ l, getUnprocessedMeetings quiet merge_engine
         (fst (saveMeeting quiet two_segment_meeting 0 20000 seeded)) = Ok l
       ∧ "m7" ∉ l_id <$> l.
Proof.
  destruct (saveMeeting_then_unprocessed quiet quiet merge_engine two_segment_meeting
              0 20000 seeded built_seeded (fun _ _ => eq_refl) eq_refl)
    as (l & Hl & Hiff & _).
  exists l. split; [exact Hl |]. intros Hin.
  apply (proj1 Hiff) in Hin. apply Hin. reflexivity.
Defined.

End ListFacts.

(** ** The meeting store: updates *)
Module UpdateFacts.
Import JS Store Queries SaveFacts SummaryFacts StoreOpsFacts JsonFacts OrderFacts BuiltFacts
  ReadFacts.

(** An entry with another title. *)
Definition retitled (new_title : string) (x : Loaded) : Loaded :=
  {| l_id := l_id x;
     l_title := new_title;
     l_date := l_date x;
     l_duration := l_duration x;
     l_summary := l_summary x;
     l_detailedSummary := l_detailedSummary x;
     l_calendarEventId := l_calendarEventId x;
     l_source := l_source x;
     l_isProcessed := l_isProcessed x;
     l_transcript := l_transcript x;
     l_usage := l_usage x |}.

(** X6.  [updateMeetingTitle] returns [true] exactly when its statement
    runs and the meeting is stored.  When it returns [false] the store is
    as before; when it returns [true], [getMeetingDetails] returns for the
    meeting what it returned before the call with the new title.  No
    other row and no other table changes in either case. *)
Theorem updateMeetingTitle_renames_only
    (fault_w fault : nat -> bool) (E : Engine) (id new_title : string) (db : Tables) :
  (snd (updateMeetingTitle fault_w id new_title db) = true
   ↔ fault_w 0 = false ∧ is_Some (meetings db !! id))
  ∧ (snd (updateMeetingTitle fault_w id new_title db) = false →
     fst (updateMeetingTitle fault_w id new_title db) = db)
  ∧ (snd (updateMeetingTitle fault_w id new_title db) = true →
     getMeetingDetails fault E id (fst (updateMeetingTitle fault_w id new_title db))
     = match getMeetingDetails fault E id db with
       | Ok (Some x) => Ok (Some (retitled new_title x))
       | r => r
       end)
  ∧ (let db' := fst (updateMeetingTitle fault_w id new_title db) in
     (∀ k, k ≠ id → meetings db' !! k = meetings db !! k)
     ∧ transcripts db' = transcripts db
     ∧ ai_interactions db' = ai_interactions db
     ∧ chunks db' = chunks db
     ∧ chunk_summaries db' = chunk_summaries db
     ∧ embedding_queue db' = embedding_queue db
     ∧ sequences db' = sequences db).
Proof.
  unfold updateMeetingTitle, run_stmt, update_title. cbn [tables executed].
  destruct (fault_w 0).
  { cbn. split_and!; try done. split; [done | by intros [? _]]. }
  destruct (meetings db !! id) as [row|] eqn:Hm; cbn [fst snd tables].
  - split_and!; try done.
    + intros _. unfold getMeetingDetails, returned, bind, query, run_stmt.
      cbn [tables executed meetings transcripts ai_interactions].
      destruct (fault 0); [done |]. rewrite lookup_insert_eq, Hm.
      cbn [tables executed meetings transcripts ai_interactions].
      destruct (fault 1); [done |].
      cbn [tables executed meetings transcripts ai_interactions].
      destruct (fault 2); [done |].
      unfold of_option, ret, throw, summary_fields. cbn [summary_json].
      by destruct (parse_or_empty (summary_json row) ≫= _).
    + intros k Hk. cbn. by rewrite lookup_insert_ne.
  - split_and!; try done. split; [done |]. by intros [_ [? ?]].
Qed.

(** X7.  [updateMeetingSummary] never throws and writes at most one cell.
    When it returns [false] the store is as before; when it returns [true]
    the meeting is stored and only its [summary_json] cell has changed.  It
    returns [false] without a change when the meeting is not stored, when
    the cell does not parse, and when the cell holds the JSON [null]; a
    cell that is NULL or empty is read as the empty object, so the updates
    become the whole detailed summary. *)
Theorem updateMeetingSummary_one_cell
    (fault : nat -> bool) (id : string) (updates : gmap string value) (db : Tables) :
  (snd (updateMeetingSummary fault id updates db) = false →
   fst (updateMeetingSummary fault id updates db) = db)
  ∧ (snd (updateMeetingSummary fault id updates db) = true →
     ∃ row json,
       meetings db !! id = Some row
       ∧ fst (updateMeetingSummary fault id updates db)
         = with_summary_json id row json db)
  ∧ (∀ row, meetings db !! id = Some row →
       parse_or_empty (summary_json row) = None
       ∨ parse_or_empty (summary_json row) = Some VNull →
       updateMeetingSummary fault id updates db = (db, false))
  ∧ (∀ row, meetings db !! id = Some row →
       summary_json row = None ∨ summary_json row = Some (RawText "") →
       fault 0 = false → fault 1 = false →
       updateMeetingSummary fault id updates db
       = (with_summary_json id row
            (JsonText (VObj {[ "detailedSummary" := VObj (omap kept updates) ]})) db,
          true)).
Proof.
  split_and!.
  - destruct (updateMeetingSummary_cases fault id updates db)
      as [-> | (row & existing & cur & _ & _ & _ & ->)]; done.
  - destruct (updateMeetingSummary_cases fault id updates db)
      as [-> | (row & existing & cur & Hrow & _ & _ & ->)]; [done |].
    intros _. by eexists _, _.
  - intros row Hrow Hbad.
    unfold updateMeetingSummary, bind, run_stmt. cbn [tables executed].
    destruct (fault 0); [done |]. rewrite Hrow.
    by destruct Hbad as [-> | ->].
  - intros row Hrow Hnone H0 H1.
    unfold updateMeetingSummary, bind, run_stmt. cbn [tables executed].
    rewrite H0, Hrow.
    assert (Hp : parse_or_empty (summary_json row) = Some (VObj ∅))
      by by destruct Hnone as [-> | ->].
    rewrite Hp. cbn [prop tables executed]. rewrite H1.
    unfold update_summary_json. rewrite Hrow. cbn [ret].
    unfold stringify, with_summary_json. rewrite to_json_obj.
    rewrite lookup_empty. cbn [default js_truthy spread].
    assert (Hcell : omap kept (<["detailedSummary" := VObj (updates ∪ ∅)]> ∅)
                    = ({[ "detailedSummary" := VObj (omap kept updates) ]}
                       : gmap string value)).
    { rewrite (right_id_L ∅ (∪)), insert_empty.
      apply omap_singleton_Some. by rewrite <- to_json_obj. }
    by rewrite Hcell.
Qed.






Definition first_update : gmap string value := {[ "overview" := VStr "First." ]}.
Definition second_update : gmap string value := {[ "overview" := VStr "Second." ]}.

Lemma updateMeetingTitle_renames_only_witness :
  snd (updateMeetingTitle quiet "demo-meeting-002" "Renamed" ListFacts.seeded) = true
  ∧ ∃ x, getMeetingDetails quiet merge_engine "demo-meeting-002"
           (fst (updateMeetingTitle quiet "demo-meeting-002" "Renamed" ListFacts.seeded))
         = Ok (Some x)
         ∧ l_title x = "Renamed".
Proof.
  destruct (updateMeetingTitle_renames_only quiet quiet merge_engine "demo-meeting-002"
              "Renamed" ListFacts.seeded) as (Hiff & _ & Hget & _).
  assert (Hok : snd (updateMeetingTitle quiet "demo-meeting-002" "Renamed"
                       ListFacts.seeded) = true).
  { apply Hiff. split; [reflexivity |].
    exists (meeting_row (demoMeeting "2024-01-01T09:30:00.000Z") 1704101400000 288000).
    vm_compute. reflexivity. }
  split; [exact Hok |].
  destruct ListFacts.seeded_details as (x & Hx).
  exists (retitled "Renamed" x). split; [| reflexivity].
  rewrite (Hget Hok), Hx. reflexivity.
Defined.

Lemma updateMeetingSummary_one_cell_witness :
  snd (updateMeetingSummary quiet "demo-meeting-002" first_update ListFacts.seeded) = true
  ∧ ∃ row json,
      meetings ListFacts.seeded !! "demo-meeting-002" = Some row
      ∧ fst (updateMeetingSummary quiet "demo-meeting-002" first_update ListFacts.seeded)
        = with_summary_json "demo-meeting-002" row json ListFacts.seeded.
Proof.
  assert (Hok : snd (updateMeetingSummary quiet "demo-meeting-002" first_update
                       ListFacts.seeded) = true) by (vm_compute; reflexivity).
  split; [exact Hok |].
  destruct (updateMeetingSummary_one_cell quiet "demo-meeting-002" first_update
              ListFacts.seeded) as (_ & H & _).
  exact (H Hok).
Defined.


(** The second overview is the one that stays. *)
Example overview_updated_twice :
  (summary_json <$> meetings (fst (updateMeetingSummary quiet "demo-meeting-002"
                                     (second_update ∪ first_update) ListFacts.seeded))
                      !! "demo-meeting-002")
  ≫= (fun cell => cell ≫= (fun t => match t with
                                       | JsonText (VObj m) =>
                                           match m !! "detailedSummary" with
                                           | Some (VObj d) => d !! "overview"
                                           | _ => None
                                           end
                                       | _ => None
                                       end))
  = Some (VStr "Second.").
Proof. vm_compute. reflexivity. Qed.

End UpdateFacts.

(** ** The meeting store: seeding, deleting, and what every store keeps *)
Module LifecycleFacts.
Import JS Store Queries SaveFacts SummaryFacts StoreOpsFacts JsonFacts OrderFacts BuiltFacts
  ReadFacts ListFacts.

Lemma saved_fresh meeting s d db :
  meetings db !! id meeting = None →
  saved meeting s d db
  = {| meetings := <[id meeting := meeting_row meeting s d]> (meetings db);
       transcripts := transcripts db
         ++ transcript_rows (id meeting) (S (seq_transcripts (sequences db)))
              (segments_of meeting);
       ai_interactions := ai_interactions db
         ++ interaction_rows (id meeting) (S (seq_interactions (sequences db)))
              (usages_of meeting);
       chunks := chunks db;
       chunk_summaries := chunk_summaries db;
       embedding_queue := embedding_queue db;
       sequences :=
         mkSequences (seq_transcripts (sequences db) + length (segments_of meeting))
           (seq_interactions (sequences db) + length (usages_of meeting))
           (seq_chunks (sequences db)) (seq_summaries (sequences db))
           (seq_queue (sequences db)) |}.
Proof.
  intros Hm. unfold saved, insert_or_replace_meeting, delete_from_meetings.
  by rewrite Hm.
Qed.

(** X9.  [seedDemoMeeting] only adds.  Whatever happens, every stored
    meeting keeps its row, the transcript and interaction rows that were
    there stay first in their tables, and the chunk tables are as before;
    when it throws, the store is as before.  When it returns, the demo
    meeting is stored and seeding again changes nothing.  On a store
    without the demo meeting, when the statements run, it adds the meeting
    row, titled and lasting as the demo, not marked processed, with five
    transcript rows and one interaction row. *)
Theorem seedDemoMeeting_only_adds
    (fault : nat -> bool) (today : string) (todayMs : Z) (db : Tables) :
  let r := seedDemoMeeting fault today todayMs db in
  (∀ k row, meetings db !! k = Some row → meetings r.1 !! k = Some row)
  ∧ transcripts db `prefix_of` transcripts r.1
  ∧ ai_interactions db `prefix_of` ai_interactions r.1
  ∧ chunks r.1 = chunks db
  ∧ chunk_summaries r.1 = chunk_summaries db
  ∧ embedding_queue r.1 = embedding_queue db
  ∧ (r.2 = Throw → r.1 = db)
  ∧ (r.2 = Ok tt →
     is_Some (meetings r.1 !! demoId)
     ∧ ∀ fault' today' todayMs', fault' 0 = false →
         seedDemoMeeting fault' today' todayMs' r.1 = (r.1, Ok tt))
  ∧ (meetings db !! demoId = None → (∀ k, k < 8 → fault k = false) →
     r.2 = Ok tt
     ∧ (∃ row, meetings r.1 !! demoId = Some row
               ∧ title row = "Natively Demo with CEO Evin"
               ∧ created_at row = today
               ∧ start_time row = todayMs
               ∧ duration_ms row = 288000%Z
               ∧ source row = Some "manual"
               ∧ is_processed row = 0%Z)
     ∧ length (transcripts r.1) = length (transcripts db) + 5
     ∧ length (ai_interactions r.1) = length (ai_interactions db) + 1).
Proof.
  cbv zeta.
  assert (Hagain : ∀ t, is_Some (meetings t !! demoId) →
            ∀ fault' today' todayMs', fault' 0 = false →
              seedDemoMeeting fault' today' todayMs' t = (t, Ok tt)).
  { intros t [row Hrow] fault' today' ms' H0.
    unfold seedDemoMeeting, query, run_stmt. cbn [tables executed].
    by rewrite H0, Hrow. }
  destruct (seedDemoMeeting_cases fault today todayMs db)
    as [Hr | [(Hsome & Hr) | (Hnone & Hr)]].
  - rewrite Hr. cbn [fst snd]. split_and!; try done.
    intros Hnone Hf. exfalso.
    unfold seedDemoMeeting, query, run_stmt in Hr. cbn [tables executed] in Hr.
    rewrite (Hf 0) in Hr by lia. rewrite Hnone in Hr.
    rewrite saveMeeting_fault_free in Hr; [done |].
    intros k Hk. apply Hf. cbn in Hk. lia.
  - rewrite Hr. cbn [fst snd]. split_and!; try done.
    + split; [done | by apply Hagain].
    + intros Hnone. destruct Hsome as [x Hx]. congruence.
  - rewrite Hr. cbn [fst snd]. rewrite (saved_fresh (demoMeeting today) todayMs 288000 db Hnone).
    cbn [meetings transcripts ai_interactions chunks chunk_summaries embedding_queue].
    split_and!; try done.
    + intros k row Hk. rewrite lookup_insert_ne; [done |].
      intros Heq. rewrite <- Heq in Hk.
      change (meetings db !! demoId = Some row) in Hk. congruence.
    + by apply prefix_app_r.
    + by apply prefix_app_r.
    + intros _. split.
      * cbn. rewrite lookup_insert_eq. by eexists.
      * apply Hagain. cbn. rewrite lookup_insert_eq. by eexists.
    + intros _ _. split_and!; try done.
      * eexists. split; [apply lookup_insert_eq |]. by split_and!.
      * by rewrite length_app.
      * by rewrite length_app.
Qed.

Lemma seedDemoMeeting_only_adds_witness :
  snd (seedDemoMeeting quiet "2024-01-01T09:30:00.000Z" 1704101400000 empty) = Ok tt
  ∧ length (transcripts (fst (seedDemoMeeting quiet "2024-01-01T09:30:00.000Z"
                                 1704101400000 empty))) = 5
  ∧ seedDemoMeeting quiet "2024-01-02T09:30:00.000Z" 1704187800000
      (fst (seedDemoMeeting quiet "2024-01-01T09:30:00.000Z" 1704101400000 empty))
    = (fst (seedDemoMeeting quiet "2024-01-01T09:30:00.000Z" 1704101400000 empty), Ok tt).
Proof.
  destruct (seedDemoMeeting_only_adds quiet "2024-01-01T09:30:00.000Z" 1704101400000 empty)
    as (_ & _ & _ & _ & _ & _ & _ & Hagain & Hfresh).
  destruct (Hfresh eq_refl (fun _ _ => eq_refl)) as (Hok & _ & Hlen & _).
  split; [exact Hok |]. split; [exact Hlen |].
  destruct (Hagain Hok) as [_ H]. by apply H.
Defined.

(** The calls of the API write no chunk, no chunk summary and no job. *)
Lemma built_without_chunks db :
  built db → chunks db = [] ∧ chunk_summaries db = [] ∧ embedding_queue db = [].
Proof.
  induction 1 as [|fault c db _ (Hc & Hs & Hq)]; [done |].
  destruct c as [meeting s d | id t | id updates | id | today todayMs]; cbn [after].
  - destruct (saveMeeting_cases fault meeting s d db) as [-> | ->]; cbn [fst]; [done |].
    rewrite saved_chunks, saved_chunk_summaries, (proj1 (saved_queue _ _ _ _)).
    rewrite Hc, Hs, Hq. by destruct (meetings db !! id meeting).
  - destruct (updateMeetingTitle_cases fault id t db) as [-> | (row & _ & ->)];
      cbn [fst]; [done |].
    pose proof (update_title_tables id t db) as (_ & _ & H1 & H2 & H3 & _).
    by rewrite H1, H2, H3.
  - by destruct (updateMeetingSummary_cases fault id updates db)
      as [-> | (row & existing & cur & _ & _ & _ & ->)].
  - destruct (deleteMeeting_result fault id db) as [-> | (_ & ->)]; cbn [fst]; [done |].
    cbn. by rewrite Hc, Hs, Hq.
  - destruct (seedDemoMeeting_cases fault today todayMs db)
      as [-> | [(_ & ->) | (Hnone & ->)]]; cbn [fst]; [done | done |].
    by rewrite (saved_fresh (demoMeeting today) todayMs 288000 db Hnone).
Qed.

(** X10.  Deleting a meeting that was just saved under a new id undoes
    the save: every table is as before the save, and only the
    AUTOINCREMENT counters keep the ids that the save used. *)
Theorem deleteMeeting_undoes_saveMeeting
    (fault_w fault_d : nat -> bool) (meeting : Meeting) (s d : Z) (db : Tables) :
  built db →
  meetings db !! id meeting = None →
  (∀ k, k < statements meeting → fault_w k = false) →
  fault_d 0 = false →
  ∃ db2,
    deleteMeeting fault_d (id meeting) (fst (saveMeeting fault_w meeting s d db))
    = (db2, true)
    ∧ meetings db2 = meetings db
    ∧ transcripts db2 = transcripts db
    ∧ ai_interactions db2 = ai_interactions db
    ∧ chunks db2 = chunks db
    ∧ chunk_summaries db2 = chunk_summaries db
    ∧ embedding_queue db2 = embedding_queue db
    ∧ seq_transcripts (sequences db2)
      = seq_transcripts (sequences db) + length (default [] (transcript meeting))
    ∧ seq_interactions (sequences db2)
      = seq_interactions (sequences db) + length (default [] (usage meeting)).
Proof.
  intros Hb Hnone Hw Hd.
  destruct (built_invariants db Hb) as ((Ht & Hi) & _ & _).
  destruct (built_without_chunks db Hb) as (Hc & Hs & Hq).
  rewrite saveMeeting_fault_free by done. cbn [fst].
  rewrite deleteMeeting_runs by done.
  rewrite saved_meetings_insert, lookup_insert_eq.
  eexists. split; [reflexivity |].
  rewrite (saved_fresh meeting s d db Hnone).
  cbn [delete_meeting_row meetings transcripts ai_interactions chunks chunk_summaries
       embedding_queue sequences seq_transcripts seq_interactions].
  assert (Hfilter : ∀ {A} (key : A -> string) (old new : list A),
            Forall (fun r => is_Some (meetings db !! key r)) old →
            Forall (fun r => key r = id meeting) new →
            filter (fun r => key r ≠ id meeting) (old ++ new) = old).
  { intros A key old new Hold Hnew. rewrite filter_app.
    rewrite filter_others.
    - assert (Hn : filter (fun r => key r ≠ id meeting) new = []); [| by rewrite Hn, app_nil_r].
      induction Hnew as [|x new Hx _ IH]; [done |].
      by rewrite filter_cons_False by (intros H; by apply H).
    - eapply Forall_impl; [exact Hold |]. intros r [x Hr] Heq. congruence. }
  split_and!; try done.
  - by rewrite delete_insert_id.
  - apply Hfilter; [done | apply transcript_rows_owner].
  - apply Hfilter; [done | apply interaction_rows_owner].
  - by rewrite Hc.
  - by rewrite Hs.
Qed.

Lemma recent_all_ids fault E db :
  readable db →
  fault 0 = false →
  ∃ l, getRecentMeetings fault E (Some (-1)%Z) db = Ok l
       ∧ ∀ k, k ∈ l_id <$> l ↔ is_Some (meetings db !! k).
Proof.
  intros Hread H0.
  set (rows := order_by E _ created_desc (map_to_list (meetings db))).
  assert (Hst : Forall (fun r => meetings db !! r.1 = Some r.2) rows).
  { apply Forall_forall. intros r Hr. unfold rows in Hr.
    rewrite (order_by_permutation E) in Hr. by apply elem_of_map_to_list' in Hr. }
  destruct (list_views None db rows Hread Hst) as (l & Hl & H2).
  exists l. split; [by apply getRecentMeetings_runs |].
  intros k. rewrite (listed_ids None rows l H2). unfold rows. split.
  - intros Hk. apply list_elem_of_fmap in Hk as ([k' row] & -> & Hin).
    rewrite (order_by_permutation E) in Hin.
    apply elem_of_map_to_list in Hin. by eexists.
  - intros [row Hk]. apply list_elem_of_fmap. exists (k, row). split; [done |].
    rewrite (order_by_permutation E). by apply elem_of_map_to_list.
Qed.

(** X11.  [deleteMeeting] returns [true] exactly when the meeting was
    stored (when its statement runs).  Afterwards [getMeetingDetails]
    returns [null] for the meeting, and the full list of
    [getRecentMeetings] holds the other stored meetings and not this
    one. *)
Theorem deleteMeeting_then_reads
    (fault_d fault : nat -> bool) (E : Engine) (id : string) (db : Tables) :
  built db →
  fault_d 0 = false →
  fault 0 = false →
  (snd (deleteMeeting fault_d id db) = true ↔ is_Some (meetings db !! id))
  ∧ getMeetingDetails fault E id (fst (deleteMeeting fault_d id db)) = Ok None
  ∧ ∃ l, getRecentMeetings fault E (Some (-1)%Z) (fst (deleteMeeting fault_d id db)) = Ok l
         ∧ ∀ k, k ∈ l_id <$> l ↔ k ≠ id ∧ is_Some (meetings db !! k).
Proof.
  intros Hb Hd H0.
  assert (Hb' : built (after fault_d (DoDelete id) db)) by by constructor.
  destruct (built_invariants _ Hb') as (_ & _ & Hread). cbn [after] in Hread.
  destruct (recent_all_ids fault E _ Hread H0) as (l & Hl & Hiff).
  rewrite deleteMeeting_runs in * by done.
  destruct (meetings db !! id) as [row|] eqn:Hrow; cbn [fst snd] in *.
  - split_and!.
    + split; [by eexists | done].
    + apply getMeetingDetails_missing; [done |]. cbn. apply lookup_delete_eq.
    + exists l. split; [done |]. intros k. rewrite Hiff. cbn.
      destruct (decide (k = id)) as [->|Hne].
      * rewrite lookup_delete_eq. split; [by intros [? ?] | by intros [? _]].
      * rewrite lookup_delete_ne by done. split; [done | by intros [_ ?]].
  - split_and!.
    + split; [done | by intros [? ?]].
    + by apply getMeetingDetails_missing.
    + exists l. split; [done |]. intros k. rewrite Hiff. split.
      * intros Hk. split; [| done]. intros ->. rewrite Hrow in Hk. by destruct Hk.
      * by intros [_ ?].
Qed.

Lemma increasing_NoDup (l : list nat) : StronglySorted lt l → NoDup l.
Proof.
  induction 1 as [|x l _ IH Hall]; constructor; [| done].
  intros Hin. rewrite Forall_forall in Hall. specialize (Hall x Hin). lia.
Qed.

(** X12.  What every store that the API builds keeps, whether the calls
    committed or failed: each transcript row and each interaction row
    belongs to a stored meeting; the row ids of a table are distinct and
    none is above the AUTOINCREMENT counter of the table; every
    [summary_json] cell holds a JSON object; and [getMeetingDetails] throws
    for no id when its statements run. *)
Theorem built_store_consistent (db : Tables) :
  built db →
  Forall (fun r => is_Some (meetings db !! t_meeting_id r)) (transcripts db)
  ∧ Forall (fun r => is_Some (meetings db !! i_meeting_id r)) (ai_interactions db)
  ∧ NoDup (t_id <$> transcripts db)
  ∧ NoDup (i_id <$> ai_interactions db)
  ∧ Forall (fun r => t_id r ≤ seq_transcripts (sequences db)) (transcripts db)
  ∧ Forall (fun r => i_id r ≤ seq_interactions (sequences db)) (ai_interactions db)
  ∧ (∀ k row, meetings db !! k = Some row →
       ∃ m, summary_json row = Some (JsonText (VObj m)))
  ∧ (∀ fault E id, (∀ k, k < 3 → fault k = false) →
       ∃ r, getMeetingDetails fault E id db = Ok r).
Proof.
  intros Hb. destruct (built_invariants db Hb) as ((Ht & Hi) & (H1 & H2 & H3 & H4) & Hread).
  split_and!; try done.
  - by apply increasing_NoDup.
  - by apply increasing_NoDup.
  - by rewrite Forall_fmap in H2.
  - by rewrite Forall_fmap in H4.
  - intros k row Hk. destruct (Hread k row Hk) as (m & Hm & _). by exists m.
  - intros fault E id Hf. destruct (meetings db !! id) as [row|] eqn:Hrow.
    + destruct (readable_fields db id row Hread Hrow) as [f Hfields].
      rewrite (getMeetingDetails_stored fault E id db row f Hf Hrow Hfields). by eexists.
    + rewrite getMeetingDetails_missing; [by eexists | apply Hf; lia | done].
Qed.

(** *** The duration string *)




(** Below zero the sign shows in both fields. *)
Example durationStr_negative : durationStr (-1) = "-1:-1".
Proof. vm_compute. reflexivity. Qed.

Lemma deleteMeeting_undoes_saveMeeting_witness :
  ∃ db2,
    deleteMeeting quiet "m7" (fst (saveMeeting quiet two_segment_meeting 0 20000 seeded))
    = (db2, true)
    ∧ meetings db2 = meetings seeded
    ∧ transcripts db2 = transcripts seeded
    ∧ seq_transcripts (sequences db2) = 7.
Proof.
  destruct (deleteMeeting_undoes_saveMeeting quiet quiet two_segment_meeting 0 20000
              seeded built_seeded eq_refl (fun _ _ => eq_refl) eq_refl)
    as (db2 & Hd & Hm & Ht & _ & _ & _ & _ & Hs & _).
  exists db2. split; [exact Hd |]. split; [exact Hm |]. split; [exact Ht |].
  rewrite Hs. vm_compute. reflexivity.
Defined.

Lemma deleteMeeting_then_reads_witness :
  snd (deleteMeeting quiet "demo-meeting-002" seeded) = true
  ∧ getMeetingDetails quiet merge_engine "demo-meeting-002"
      (fst (deleteMeeting quiet "demo-meeting-002" seeded)) = Ok None.
Proof.
  destruct (deleteMeeting_then_reads quiet quiet merge_engine "demo-meeting-002" seeded
              built_seeded eq_refl eq_refl) as (Hiff & Hg & _).
  split; [| exact Hg]. apply Hiff.
  exists (meeting_row (demoMeeting "2024-01-01T09:30:00.000Z") 1704101400000 288000).
  vm_compute. reflexivity.
Defined.

Lemma built_store_consistent_witness :
  NoDup (t_id <$> transcripts seeded)
  ∧ ∃ r, getMeetingDetails quiet merge_engine "demo-meeting-002" seeded = Ok r.
Proof.
  destruct (built_store_consistent seeded built_seeded)
    as (_ & _ & Hnd & _ & _ & _ & _ & Hget).
  split; [exact Hnd |]. apply Hget. intros k Hk. reflexivity.
Defined.


End LifecycleFacts.
